(** * GAMA: typed tree genomes, their mutation, compilation and bookkeeping

    A shallow embedding of the search machinery of the [gama] package
    ([gama/ea/mutation.py], [gama/ea/automl_gp.py], [gama/ea/async_ea.py],
    [gama/utilities/observer.py]) together with the properties the
    natural-language specification states about it.

    Conventions of the embedding:
    - a genome (a DEAP [PrimitiveTree]) is a [list node] in prefix order;
    - Python objects that are mutated in place live in a store ([gmap] from
      object identities to contents), so aliasing is visible;
    - every call of [np.random.choice] consumes one draw of an explicit
      random source [rng];
    - raised exceptions are values of the [result] type. *)

From Stdlib Require Import ZArith QArith Lia Bool Ascii String OrderedTypeEx.
From stdpp Require Import base option list gmap strings pretty sorting.

Open Scope string_scope.
Open Scope list_scope.
Open Scope nat_scope.

(* ===================================================================== *)
(** ** Results of fallible Python code *)
(* ===================================================================== *)

Inductive exn : Type :=
  | ValueError (msg : string)
  | Exception (msg : string)
  | IndexError (msg : string)
  | AttributeError (msg : string)
  | KeyError (msg : string)
  | TimeoutException                (* stopit.utils.TimeoutException *)
  | KeyboardInterrupt.              (* a BaseException that is no Exception *)

(** [isinstance(e, Exception)]: what [except Exception] catches. *)
Definition is_Exception (e : exn) : bool :=
  match e with KeyboardInterrupt => false | _ => true end.

Inductive result (A : Type) : Type :=
  | Ok (a : A)          (* normal return *)
  | Raise (e : exn).    (* an exception leaves the function *)
Arguments Ok {A} a.
Arguments Raise {A} e.

#[global] Instance result_ret : MRet result := λ A a, Ok a.
#[global] Instance result_bind : MBind result := λ A B k r,
  match r with
  | Ok a => k a
  | Raise e => Raise e
  end.

(** The random source: the [k]-th draw of a run.  [choice] models
    [np.random.choice(xs)]: a uniformly drawn member of [xs], and a
    [ValueError] when [xs] is empty. *)
Definition rng := nat → nat.

Definition choice {A} (draw : nat) (xs : list A) : result A :=
  match xs !! (draw mod length xs) with
  | Some x => Ok x
  | None => Raise (ValueError "'a' cannot be empty unless no samples are taken")
  end.

Definition shift (k : nat) (r : rng) : rng := λ i, r (k + i).

(** [enumerate(xs)] *)
Fixpoint enumerate_from {A} (i : nat) (xs : list A) : list (nat * A) :=
  match xs with
  | [] => []
  | x :: xs' => (i, x) :: enumerate_from (S i) xs'
  end.
Definition enumerate {A} (xs : list A) : list (nat * A) := enumerate_from 0 xs.

(** [xs[start:]] for an integer [start] (a negative start counts from the
    end and is clipped at the front). *)
Definition slice_from {A} (start : Z) (xs : list A) : list A :=
  if (start <? 0)%Z then drop (Z.to_nat (Z.of_nat (length xs) + start)) xs
  else drop (Z.to_nat start) xs.

(* ===================================================================== *)
(** ** DEAP's typed nodes and primitive sets ([deap.gp]) *)
(* ===================================================================== *)

Module gp.

(** Nominal types.  [Data] and [Predictions] are the two dummy classes of
    [automl_gp.py]; every hyperparameter type is a class created by
    [type(name, (object,), {})]: two such classes are different objects
    even when they carry the same name, hence the serial number. *)
Inductive ty : Type :=
  | Data
  | Predictions
  | Hyper (name : string) (serial : nat).

#[global] Instance ty_eq_dec : EqDecision ty.
Proof. solve_decision. Defined.

#[global] Instance ty_countable : Countable ty.
Proof.
  refine (inj_countable'
    (λ t, match t with
          | Data => inl false
          | Predictions => inl true
          | Hyper n s => inr (n, s)
          end)
    (λ x, match x with
          | inl false => Data
          | inl true => Predictions
          | inr (n, s) => Hyper n s
          end) _).
  by intros [].
Defined.

(** [cls.__name__] *)
Definition __name__ (t : ty) : string :=
  match t with
  | Data => "Data"
  | Predictions => "Predictions"
  | Hyper n _ => n
  end.

Definition is_hyper (t : ty) : bool :=
  match t with Hyper _ _ => true | _ => false end.

(** [gp.Primitive]: name, argument types, return type. *)
Record Primitive : Type := mkPrimitive {
  prim_name : string;
  prim_args : list ty;
  prim_ret : ty
}.

(** [gp.Terminal]: name, value, return type.  For a terminal added under
    a name, DEAP stores that name as the value (the Python object is kept
    in [pset.context]); for an input argument the value is the argument's
    name. *)
Record Terminal : Type := mkTerminal {
  term_name : string;
  term_value : string;
  term_ret : ty
}.

#[global] Instance Primitive_eq_dec : EqDecision Primitive.
Proof. solve_decision. Defined.
#[global] Instance Terminal_eq_dec : EqDecision Terminal.
Proof. solve_decision. Defined.

Inductive node : Type :=
  | Prim (p : Primitive)
  | Term (t : Terminal).

#[global] Instance node_eq_dec : EqDecision node.
Proof. solve_decision. Defined.

(** [issubclass(type(el), gp.Primitive)], [issubclass(type(el), gp.Terminal)] *)
Definition is_Primitive (el : node) : bool :=
  match el with Prim _ => true | Term _ => false end.
Definition is_Terminal (el : node) : bool :=
  match el with Prim _ => false | Term _ => true end.

(** [el.ret], [el.args] (a terminal takes no argument), [el.name] *)
Definition ret (el : node) : ty :=
  match el with Prim p => prim_ret p | Term t => term_ret t end.
Definition args (el : node) : list ty :=
  match el with Prim p => prim_args p | Term _ => [] end.
Definition name (el : node) : string :=
  match el with Prim p => prim_name p | Term t => term_name t end.

(** [gp.PrimitiveSetTyped], as far as the code reads it: the two
    [defaultdict(list)] tables, the names of the input arguments and the
    evaluation context, which maps the name of a registered node to the
    Python object it stands for (rendered as a string here). *)
Record PrimitiveSetTyped : Type := mkPset {
  primitives : gmap ty (list Primitive);
  terminals : gmap ty (list Terminal);
  arguments : list string;
  context : gmap string string
}.

End gp.
Import gp.

(** A genome is the node sequence of a [PrimitiveTree]. *)
Abbreviation genome := (list node).

(* ===================================================================== *)
(** ** The type-consistency invariant of the data model *)
(* ===================================================================== *)

(** Reading a genome front to back against the stack of argument types
    still to be satisfied: a node must return the type on top of the
    stack, and a primitive then asks for its own arguments first.
    [pending q l] is the stack left after reading [l] from [q], and [None]
    when a node does not fit. *)
Fixpoint pending (q : list ty) (l : genome) : option (list ty) :=
  match l with
  | [] => Some q
  | el :: l' =>
      match q with
      | t :: q' => if decide (ret el = t) then pending (args el ++ q') l' else None
      | [] => None
      end
  end.

(** A genome is type-consistent for a root type when it reads as exactly
    one expression of that type: every argument of every primitive is
    satisfied, in order, by a following terminal or subtree that returns
    exactly the required type, and nothing is left over. *)
Definition type_consistent (root : ty) (ind : genome) : Prop :=
  pending [root] ind = Some [].

#[global] Instance type_consistent_dec root ind : Decision (type_consistent root ind).
Proof. unfold type_consistent. apply _. Defined.

(* ===================================================================== *)
(** ** The store of individuals *)
(* ===================================================================== *)

(** An individual ([creator.Individual], a list subclass) is an object:
    its identity is a location and the store holds its node sequence.
    [creator.Individual(expr)] allocates a new object. *)
Abbreviation loc := nat.
Abbreviation heap := (gmap loc genome).

Definition new_Individual (expr : genome) (h : heap) : loc * heap :=
  let l := fresh (dom h) in (l, <[l := expr]> h).

(* ===================================================================== *)
(** ** [gama/ea/mutation.py] *)
(* ===================================================================== *)

Module mutation.

(** The loop of [find_unmatched_terminal], started at index [i] with the
    queue [unmatched_args].  [None] is the source's [False]. *)
Fixpoint find_unmatched_terminal_loop
    (unmatched_args : list ty) (i : nat) (individual : genome) : option nat :=
  match individual with
  | [] => None
  | el :: rest =>
      let push (q : list ty) := if is_Primitive el then args el ++ q else q in
      if bool_decide (0 < length unmatched_args)
         && bool_decide (head unmatched_args = Some (ret el))
      then find_unmatched_terminal_loop (push (tail unmatched_args)) (S i) rest
      else if is_Terminal el then Some i
      else find_unmatched_terminal_loop (push unmatched_args) (S i) rest
  end.

Definition find_unmatched_terminal (individual : genome) : option nat :=
  find_unmatched_terminal_loop [] 0 individual.

(** The positions a mutation may pick:
    [[i for i, el in enumerate(ind) if cond(el)]] *)
Definition positions (cond : node → bool) (ind : genome) : list nat :=
  (List.filter (λ ie, cond ie.2) (enumerate ind)).*1.

Definition eligible_terminal (pset : PrimitiveSetTyped) (el : node) : bool :=
  is_Terminal el && bool_decide (1 < length (terminals pset !!! ret el)).

Definition eligible_primitive (pset : PrimitiveSetTyped) (el : node) : bool :=
  is_Primitive el && bool_decide (1 < length (primitives pset !!! ret el)).

Section operators.
(** [str(ind)], which the messages of the exceptions hold, is DEAP's
    [PrimitiveTree.__str__]; it is taken as given. *)
Variable str : genome → string.

(** The node sequence [mut_replace_terminal] leaves in its argument. *)
Definition mut_replace_terminal_expr
    (r : rng) (ind : genome) (pset : PrimitiveSetTyped) : result genome :=
  let eligible := positions (eligible_terminal pset) ind in
  if bool_decide (eligible = []) then
    Raise (ValueError
      ("Individual could not be mutated because no valid terminal was available: "
       +:+ str ind))
  else
    to_change ← choice (r 0) eligible;
    match ind !! to_change with
    | None => Raise (IndexError "list index out of range")
    | Some cur =>
        let alternatives :=
          List.filter (λ t, bool_decide (Term t ≠ cur)) (terminals pset !!! ret cur) in
        new ← choice (r 1) alternatives;
        Ok (<[to_change := Term new]> ind)
    end.

(** [mut_replace_terminal(ind, pset)]: the assignment
    [ind[to_change] = ...] writes into the object passed in, and that
    same object is returned. *)
Definition mut_replace_terminal
    (r : rng) (ind : loc) (pset : PrimitiveSetTyped) (h : heap) : result loc * heap :=
  match mut_replace_terminal_expr r (h !!! ind) pset with
  | Ok expr => (Ok ind, <[ind := expr]> h)
  | Raise e => (Raise e, h)
  end.

(** [[np.random.choice(pset.terminals[ret_type]) for ret_type in types]],
    the first draw being number [k]. *)
Fixpoint sample_terminals
    (r : rng) (k : nat) (pset : PrimitiveSetTyped) (types : list ty)
    : result (list Terminal) :=
  match types with
  | [] => Ok []
  | ret_type :: types' =>
      t ← choice (r k) (terminals pset !!! ret_type);
      ts ← sample_terminals r (S k) pset types';
      Ok (t :: ts)
  end.

(** The node sequence of the individual [mut_replace_primitive] builds. *)
Definition mut_replace_primitive_expr
    (r : rng) (ind : genome) (pset : PrimitiveSetTyped) : result genome :=
  let eligible := positions (eligible_primitive pset) ind in
  if bool_decide (eligible = []) then
    Raise (ValueError
      ("Individual could not be mutated because no valid primitive was available: "
       +:+ str ind))
  else
    to_change ← choice (r 0) eligible;
    match ind !! to_change with
    | None => Raise (IndexError "list index out of range")
    | Some old =>
        let number_of_removed_terminals := (Z.of_nat (length (args old)) - 1)%Z in
        let alternatives :=
          List.filter (λ prim, bool_decide (prim_name prim ≠ name old))
                      (primitives pset !!! ret old) in
        new_primitive ← choice (r 1) alternatives;
        new_terminals ← sample_terminals r 2 pset (drop 1 (prim_args new_primitive));
        let new_terminals := Term <$> new_terminals in
        match find_unmatched_terminal (drop (to_change + 1) ind) with
        | None =>
            if bool_decide (number_of_removed_terminals = 0%Z) then
              let new_expr := ind ++ new_terminals in
              Ok (<[to_change := Prim new_primitive]> new_expr)
            else
              Raise (Exception
                ("Found no unmatched terminals after removing a primitive which had terminals: "
                 +:+ str ind))
        | Some terminal_index =>
            let terminal_index := terminal_index + (to_change + 1) in
            match ind !! terminal_index with
            | None => Raise (IndexError "list index out of range")
            | Some (Prim _) => Raise (AttributeError "'Primitive' object has no attribute 'value'")
            | Some (Term t) =>
                let terminal_index :=
                  if bool_decide (term_value t ∈ arguments pset)
                  then terminal_index + 1 else terminal_index in
                let new_expr :=
                  take terminal_index ind ++ new_terminals
                  ++ slice_from (Z.of_nat terminal_index + number_of_removed_terminals) ind in
                Ok (<[to_change := Prim new_primitive]> new_expr)
            end
        end
    end.

(** [mut_replace_primitive(ind, pset)]: the result is a new
    [creator.Individual]; the argument is only read. *)
Definition mut_replace_primitive
    (r : rng) (ind : loc) (pset : PrimitiveSetTyped) (h : heap) : result loc * heap :=
  match mut_replace_primitive_expr r (h !!! ind) pset with
  | Ok new_expr => let '(l, h') := new_Individual new_expr h in (Ok l, h')
  | Raise e => (Raise e, h)
  end.

(** The functions [random_valid_mutation] chooses from. *)
Inductive mut_fn : Type :=
  | fn_mut_replace_primitive
  | fn_mutInsert
  | fn_mutShrink
  | fn_mut_replace_terminal.

Section random_valid_mutation.
(** [gp.mutInsert] and [gp.mutShrink] are DEAP's; they are taken as
    given. *)
Variable mutInsert : rng → loc → PrimitiveSetTyped → heap → result loc * heap.
Variable mutShrink : rng → loc → heap → result loc * heap.

Definition available_mutations (ind : genome) : list mut_fn :=
  [fn_mut_replace_primitive; fn_mutInsert]
  ++ (if bool_decide (1 < length (List.filter is_Primitive ind))
      then [fn_mutShrink] else [])
  ++ (if bool_decide (1 < length (List.filter is_Terminal ind))
      then [fn_mut_replace_terminal] else []).

(** [random_valid_mutation(ind, pset, return_function=True)]; with
    [return_function=False] the second component is dropped. *)
Definition random_valid_mutation
    (r : rng) (ind : loc) (pset : PrimitiveSetTyped) (h : heap)
    : result (loc * mut_fn) * heap :=
  match choice (r 0) (available_mutations (h !!! ind)) with
  | Raise e => (Raise e, h)
  | Ok fn =>
      let '(new_ind, h') :=
        match fn with
        | fn_mutShrink => mutShrink (shift 1 r) ind h
        | fn_mutInsert => mutInsert (shift 1 r) ind pset h
        | fn_mut_replace_primitive => mut_replace_primitive (shift 1 r) ind pset h
        | fn_mut_replace_terminal => mut_replace_terminal (shift 1 r) ind pset h
        end in
      (new_ind ≫= λ l, Ok (l, fn), h')
  end.
End random_valid_mutation.
End operators.

End mutation.

(* ===================================================================== *)
(** ** Python strings, slices and [sorted] *)
(* ===================================================================== *)

(** A slice bound [i] of a sequence of length [len], as Python clips it. *)
Definition slice_bound (len : nat) (i : Z) : nat :=
  if (i <? 0)%Z then Z.to_nat (Z.of_nat len + i) else Nat.min (Z.to_nat i) len.

(** [s[start:stop]] on strings *)
Definition str_slice (start stop : Z) (s : string) : string :=
  let a := slice_bound (String.length s) start in
  let b := slice_bound (String.length s) stop in
  String.substring a (b - a) s.

(** The highest index of [c] in [s], counted from [i]. *)
Fixpoint rfind_from (c : ascii) (i : nat) (s : string) : option nat :=
  match s with
  | EmptyString => None
  | String a s' =>
      match rfind_from c (S i) s' with
      | Some j => Some j
      | None => if Ascii.eqb a c then Some i else None
      end
  end.

(** [s.rfind(c, 0, stop)]; [s.rfind(c)] is [rfind c (len s) s]. *)
Definition rfind (c : ascii) (stop : Z) (s : string) : Z :=
  match rfind_from c 0 (str_slice 0 stop s) with
  | Some j => Z.of_nat j
  | None => (-1)%Z
  end.

(** [sorted(xs, key=...)] is a stable sort; [le a b] says that the key of
    [a] is at most the key of [b].  An element is put in front of the
    first element of the sorted rest that is not smaller, so elements
    with equal keys keep their order. *)
Fixpoint sorted_insert {A} (le : A → A → bool) (x : A) (l : list A) : list A :=
  match l with
  | [] => [x]
  | y :: l' => if le x y then x :: y :: l' else y :: sorted_insert le x l'
  end.

Fixpoint sorted {A} (le : A → A → bool) (l : list A) : list A :=
  match l with
  | [] => []
  | x :: l' => sorted_insert le x (sorted le l')
  end.

(* ===================================================================== *)
(** ** Individuals and their fitness ([deap.base.Fitness]) *)
(* ===================================================================== *)

(** Objective values and times are modelled as integers: the code below
    only stores, compares and orders them.  [values] is empty until a
    fitness is assigned. *)
Record Fitness : Type := mkFitness {
  weights : list Z;
  values : list Z;
  start_time : Z;
  time : Z
}.

(** [fitness.wvalues]: the values multiplied by the weights *)
Definition wvalues (f : Fitness) : list Z := zip_with Z.mul (values f) (weights f).

Record Individual : Type := mkIndividual {
  expr : genome;
  fitness : Fitness
}.

(** [t[i]] on a tuple *)
Definition tuple_get {A} (t : list A) (i : nat) : result A :=
  match t !! i with
  | Some x => Ok x
  | None => Raise (IndexError "tuple index out of range")
  end.

(* ===================================================================== *)
(** ** [gama/ea/automl_gp.py] *)
(* ===================================================================== *)

Module automl_gp.

(** An instantiated operator the call of [primitive_class] on the keyword arguments: the class and
    the keyword arguments it was built from. *)
Record component : Type := mkComponent {
  comp_class : string;
  comp_kwargs : gmap string string
}.

(** A step of the pipeline: an instantiated operator or one of the
    supplied preprocessing steps (known by its class name). *)
Inductive step : Type :=
  | Operator (c : component)
  | Preprocessing (class_name : string).

(** [sklearn.pipeline.Pipeline(steps)] *)
Inductive Pipeline : Type := mkPipeline (steps : list (string * step)).

Abbreviation kwargs := (gmap string string).
Abbreviation checks := (gmap string (kwargs → bool)).

Definition extract_arg_name (terminal_name : string) : string :=
  let equal_idx := rfind "="%char (Z.of_nat (String.length terminal_name)) terminal_name in
  let start_parameter_name := (rfind "."%char equal_idx terminal_name + 1)%Z in
  str_slice start_parameter_name equal_idx terminal_name.

(** The dict comprehension of [expression_to_component]: a later pair
    overwrites an earlier one with the same key; a name that is not in
    the context is a [KeyError]. *)
Fixpoint build_kwargs (pset : PrimitiveSetTyped) (acc : kwargs)
    (required_provided : list (ty * node)) : result kwargs :=
  match required_provided with
  | [] => Ok acc
  | (_, p) :: rest =>
      match context pset !! name p with
      | None => Raise (KeyError (name p))
      | Some v => build_kwargs pset (<[extract_arg_name (name p) := v]> acc) rest
      end
  end.

Definition expression_to_component
    (primitive : Primitive) (terminals : list node) (pset : PrimitiveSetTyped)
    (parameter_checks : option checks) : result (component * nat) :=
  let required :=
    reverse (List.filter (λ t, negb (String.eqb (__name__ t) "Data")) (prim_args primitive)) in
  let required_provided := zip required terminals in
  if negb (forallb (λ rp, bool_decide (rp.1 = ret rp.2)) required_provided) then
    Raise (ValueError "Missing {}-terminal for {}-primitive.")
  else
    kw ← build_kwargs pset ∅ required_provided;
    match context pset !! prim_name primitive with
    | None => Raise (KeyError (prim_name primitive))
    | Some primitive_class =>
        let rejected :=
          match parameter_checks with
          | None => false
          | Some pc =>
              match pc !! prim_name primitive with
              | None => false
              | Some check => negb (check kw)
              end
          end in
        if rejected then
          Raise (ValueError "Not a valid configuration according to the provided parameter check.")
        else
          Ok ({| comp_class := primitive_class; comp_kwargs := kw |}, size kw)
    end.

(** The [while] loop of [compile_individual].  Every turn drops at least
    the first node of [ind], so [length ind] turns are enough; the
    result is [None] for the source's [return None]. *)
Fixpoint compile_loop (fuel : nat) (ind : genome)
    (components : list (string * step)) (name_counter : gmap string nat)
    (pset : PrimitiveSetTyped) (parameter_checks : option checks)
    : result (option (list (string * step))) :=
  match fuel, ind with
  | 0, _ | _, [] => Ok (Some components)
  | S fuel', Term _ :: remainder =>
      if bool_decide (0 < length remainder) then Raise (Exception "")
      else Ok (Some components)
  | S fuel', Prim prim :: remainder =>
      match expression_to_component prim (reverse remainder) pset parameter_checks with
      | Raise (ValueError _) => Ok None
      | Raise e => Raise e
      | Ok (component, n_kwargs) =>
          let name := prim_name prim +:+ pretty (name_counter !!! prim_name prim) in
          let name_counter :=
            <[prim_name prim := name_counter !!! prim_name prim + 1]> name_counter in
          let components := components ++ [(name, Operator component)] in
          let ind' :=
            if bool_decide (n_kwargs = 0) then remainder
            else take (length ind - n_kwargs - 1) remainder in
          compile_loop fuel' ind' components name_counter pset parameter_checks
      end
  end.

Definition compile_individual (expr : genome) (pset : PrimitiveSetTyped)
    (parameter_checks : option checks) (preprocessing_steps : list string)
    : result (option Pipeline) :=
  r ← compile_loop (length expr) expr [] ∅ pset parameter_checks;
  match r with
  | None => Ok None
  | Some components =>
      let components :=
        components ++ ((λ cls, (cls, Preprocessing cls)) <$> reverse preprocessing_steps) in
      Ok (Some (mkPipeline (reverse components)))
  end.

(** [individual_length]: the number of primitives. *)
Definition individual_length (individual : genome) : nat :=
  length (List.filter is_Primitive individual).

(** [eliminate_worst(pop, n)]:
    [list(sorted(pop, key=lambda x: x.fitness.wvalues[0]))[-n:]].
    The key of every individual is computed first. *)
Fixpoint keyed (pop : list Individual) : result (list (Z * Individual)) :=
  match pop with
  | [] => Ok []
  | x :: pop' =>
      k ← tuple_get (wvalues (fitness x)) 0;
      rest ← keyed pop';
      Ok ((k, x) :: rest)
  end.

Definition eliminate_worst (pop : list Individual) (n : Z) : result (list Individual) :=
  ks ← keyed pop;
  Ok (slice_from (- n) (sorted (λ a b, (a.1 <=? b.1)%Z) ks).*2).

Section eliminate_NSGA.
(** [deap.tools.selNSGA2] is DEAP's. *)
Variable selNSGA2 : list Individual → nat → list Individual.

Definition eliminate_NSGA (pop : list Individual) (n : Z) : list Individual :=
  slice_from (- n) (selNSGA2 pop (length pop)).
End eliminate_NSGA.

Section generate_valid.
(** [gen_grow_safe] is of [gama.ea.modified_deap] and is taken as given:
    it draws from the random source and hands back what is left of it. *)
Variable gen_grow_safe : PrimitiveSetTyped → Z → Z → rng → result genome * rng.

(** The [for _ in range(50)] loop of [generate_valid] with [attempts]
    turns left; [toolbox_compile] is [toolbox.compile]. *)
Fixpoint generate_valid_loop (attempts : nat) (pset : PrimitiveSetTyped) (min_ max_ : Z)
    (toolbox_compile : genome → result (option Pipeline)) (r : rng)
    : result genome * rng :=
  match attempts with
  | 0 => (Raise (Exception ""), r)
  | S attempts' =>
      match gen_grow_safe pset min_ max_ r with
      | (Raise e, r') => (Raise e, r')
      | (Ok ind, r') =>
          match toolbox_compile ind with
          | Raise e => (Raise e, r')
          | Ok (Some pl) => (Ok ind, r')
          | Ok None => generate_valid_loop attempts' pset min_ max_ toolbox_compile r'
          end
      end
  end.

(** [generate_valid(pset, min_, max_, toolbox)] *)
Definition generate_valid (pset : PrimitiveSetTyped) (min_ max_ : Z)
    (toolbox_compile : genome → result (option Pipeline)) (r : rng)
    : result genome * rng :=
  generate_valid_loop 50 pset min_ max_ toolbox_compile r.
End generate_valid.

(** [np.random.choice(range(n), size=2, replace=False)]: two different
    indices below [n], and a [ValueError] when there are fewer than two. *)
Definition choice_two (draw1 draw2 : nat) (n : nat) : result (nat * nat) :=
  match n with
  | 0 => Raise (ValueError "'a' cannot be empty unless no samples are taken")
  | 1 => Raise (ValueError
                  "Cannot take a larger sample than population when 'replace=False'")
  | _ =>
      let i := draw1 mod n in
      let j := draw2 mod (n - 1) in
      Ok (i, if bool_decide (j < i) then j else S j)
  end.

(** [pop[i]] on a list *)
Definition list_get {A} (l : list A) (i : nat) : result A :=
  match l !! i with
  | Some x => Ok x
  | None => Raise (IndexError "list index out of range")
  end.

Section offspring_mate_or_mutate.
(** [np.random.random()]: the float in [[0, 1)] a draw stands for.
    [toolbox.mate] and [toolbox.mutate] are what the toolbox was given;
    they work on the clones they are handed ([toolbox.clone] is a deep
    copy: individuals are values here), draw from the random source and
    hand back what is left of it. *)
Variable random : nat → Q.
Variable mate : Individual → Individual → rng → result (Individual * Individual) * rng.
Variable mutate : Individual → rng → result Individual * rng.

(** The [for _ in range(n)] loop with [turns] turns left. *)
Fixpoint offspring_loop (turns : nat) (pop : list Individual) (cxpb mutpb : Q)
    (offspring : list Individual) (r : rng) : result (list Individual) * rng :=
  match turns with
  | 0 => (Ok offspring, r)
  | S turns' =>
      match choice_two (r 0) (r 1) (length pop) with
      | Raise e => (Raise e, r)
      | Ok (i1, i2) =>
          let r := shift 2 r in
          match list_get pop i1, list_get pop i2 with
          | Raise e, _ | Ok _, Raise e => (Raise e, r)
          | Ok ind1, Ok ind2 =>
              if negb (Qle_bool cxpb (random (r 0))) then
                match mate ind1 ind2 (shift 1 r) with
                | (Raise e, r') => (Raise e, r')
                | (Ok (ind1, ind2), r') =>
                    offspring_loop turns' pop cxpb mutpb (offspring ++ [ind1]) r'
                end
              else if negb (Qle_bool mutpb (random (r 1))) then
                match mutate ind1 (shift 2 r) with
                | (Raise e, r') => (Raise e, r')
                | (Ok ind1, r') =>
                    offspring_loop turns' pop cxpb mutpb (offspring ++ [ind1]) r'
                end
              else offspring_loop turns' pop cxpb mutpb (offspring ++ [ind1]) (shift 2 r)
          end
      end
  end.

(** [offspring_mate_or_mutate(pop, n, cxpb, mutpb, toolbox)] *)
Definition offspring_mate_or_mutate (pop : list Individual) (n : Z) (cxpb mutpb : Q)
    (r : rng) : result (list Individual) * rng :=
  offspring_loop (Z.to_nat n) pop cxpb mutpb [] r.
End offspring_mate_or_mutate.

End automl_gp.

(* ===================================================================== *)
(** ** [gama/utilities/observer.py] *)
(* ===================================================================== *)

Module observer.

(** Modelled from the spec: the class
    [gama.utilities.generic.paretofront.ParetoFront] is not among the
    sources.  Its [update] inserts an individual that no member
    dominates, evicts the members it dominates and returns whether the
    set changed; domination is component-wise [>=] with [>] in at least
    one component of the weighted objective vector. *)
Fixpoint all_ge (a b : list Z) : bool :=
  match a, b with
  | x :: a', y :: b' => (y <=? x)%Z && all_ge a' b'
  | _, _ => true
  end.
Fixpoint some_gt (a b : list Z) : bool :=
  match a, b with
  | x :: a', y :: b' => (y <? x)%Z || some_gt a' b'
  | _, _ => false
  end.
Definition dominates (a b : list Z) : bool := all_ge a b && some_gt a b.

Definition ParetoFront_update (front : list Individual) (ind : Individual)
    : bool * list Individual :=
  let w x := wvalues (fitness x) in
  if existsb (λ m, dominates (w m) (w ind)) front then (false, front)
  else (true, List.filter (λ m, negb (dominates (w ind) (w m))) front ++ [ind]).

(** The observer object.  Callbacks are known by an identifier. *)
Record Observer : Type := mkObserver {
  _overall_pareto_front : list Individual;
  _current_pareto_front : list Individual;
  _pareto_callbacks : list nat;
  _individuals : list Individual;
  _individuals_since_last_pareto_update : nat;
  _evaluation_filename : string
}.

(** What the observer acts on outside itself: the files it appends to
    (a file is the list of its lines) and the callbacks it invokes. *)
Record world : Type := mkWorld {
  files : gmap string (list string);
  calls : list (nat * Individual)
}.

Section Observer.
(** [str(ind)], the canonical string of an individual, is DEAP's
    [PrimitiveTree.__str__]. *)
Variable str : Individual → string.

Definition __init__ (id_ : string) : Observer :=
  {| _overall_pareto_front := [];
     _current_pareto_front := [];
     _pareto_callbacks := [];
     _individuals := [];
     _individuals_since_last_pareto_update := 0;
     _evaluation_filename := id_ +:+ "_evaluations.csv" |}.

(** [open(name, 'a')] creates the file when it does not exist. *)
Definition open_append (name : string) (w : world) : world :=
  {| files := <[name := files w !!! name]> (files w); calls := calls w |}.

Definition write_line (name line : string) (w : world) : world :=
  {| files := <[name := files w !!! name ++ [line]]> (files w); calls := calls w |}.

Definition _record_individual (self : Observer) (ind : Individual) (w : world)
    : result unit * world :=
  let w := open_append (_evaluation_filename self) w in
  match tuple_get (wvalues (fitness ind)) 0 with
  | Raise e => (Raise e, w)
  | Ok w0 =>
      match tuple_get (wvalues (fitness ind)) 1 with
      | Raise e => (Raise e, w)
      | Ok w1 =>
          let to_record := [pretty (time (fitness ind)); pretty w0; pretty w1; str ind] in
          (Ok (), write_line (_evaluation_filename self)
                    (String.concat ";" to_record +:+ String "010"%char "") w)
      end
  end.

Definition _update_pareto_front (self : Observer) (ind : Individual) (w : world) : world :=
  {| files := files w;
     calls := calls w ++ ((λ callback, (callback, ind)) <$> _pareto_callbacks self) |}.

(** [Observer.update(ind)]: the observer as it is left, the outcome and
    the world. *)
Definition update (self : Observer) (ind : Individual) (w : world)
    : Observer * result unit * world :=
  let self1 :=
    {| _overall_pareto_front := _overall_pareto_front self;
       _current_pareto_front := _current_pareto_front self;
       _pareto_callbacks := _pareto_callbacks self;
       _individuals := _individuals self ++ [ind];
       _individuals_since_last_pareto_update := _individuals_since_last_pareto_update self;
       _evaluation_filename := _evaluation_filename self |} in
  match _record_individual self1 ind w with
  | (Raise e, w1) => (self1, Raise e, w1)
  | (Ok _, w1) =>
      let '(updated, current) := ParetoFront_update (_current_pareto_front self1) ind in
      let since :=
        if updated then 0 else _individuals_since_last_pareto_update self1 + 1 in
      let '(updated', overall) := ParetoFront_update (_overall_pareto_front self1) ind in
      let self2 :=
        {| _overall_pareto_front := overall;
           _current_pareto_front := current;
           _pareto_callbacks := _pareto_callbacks self1;
           _individuals := _individuals self1;
           _individuals_since_last_pareto_update := since;
           _evaluation_filename := _evaluation_filename self1 |} in
      (self2, Ok (), if updated' then _update_pareto_front self2 ind w1 else w1)
  end.

Definition reset_current_pareto_front (self : Observer) : Observer :=
  {| _overall_pareto_front := _overall_pareto_front self;
     _current_pareto_front := [];
     _pareto_callbacks := _pareto_callbacks self;
     _individuals := _individuals self;
     _individuals_since_last_pareto_update := 0;
     _evaluation_filename := _evaluation_filename self |}.

(** The key of [best_n]: [(-x.fitness.values[0], str(x))] *)
Fixpoint best_n_keys (xs : list Individual) : result (list ((Z * string) * Individual)) :=
  match xs with
  | [] => Ok []
  | x :: xs' =>
      v ← tuple_get (values (fitness x)) 0;
      rest ← best_n_keys xs';
      Ok (((- v)%Z, str x, x) :: rest)
  end.

(** Tuples compare lexicographically, strings by code point. *)
Definition key_le (a b : Z * string) : bool :=
  (a.1 <? b.1)%Z || ((a.1 =? b.1)%Z && String.leb a.2 b.2).

(** [Observer.best_n(n)]; [n] is the number of individuals asked for. *)
Definition best_n (self : Observer) (n : nat) : result (list Individual) :=
  ks ← best_n_keys (_individuals self);
  let best_pipelines := (sorted (λ a b, key_le a.1 b.1) ks).*2 in
  Ok (take n best_pipelines).

Definition on_pareto_updated (self : Observer) (fn : nat) : Observer :=
  {| _overall_pareto_front := _overall_pareto_front self;
     _current_pareto_front := _current_pareto_front self;
     _pareto_callbacks := _pareto_callbacks self ++ [fn];
     _individuals := _individuals self;
     _individuals_since_last_pareto_update := _individuals_since_last_pareto_update self;
     _evaluation_filename := _evaluation_filename self |}.
End Observer.

End observer.

(* ===================================================================== *)
(** ** [gama/ea/async_ea.py] *)
(* ===================================================================== *)

Module async_ea.

(** The surroundings of the loop: the wall clock ([time.time()]), the
    log, and whether the evaluation dispatcher was started.  A record of
    the log is the message of a warning and, for [exc_info=True], the
    exception that was being handled. *)
Record world : Type := mkWorld {
  now : Q;
  log : list (string * option exn);
  dispatcher_started : bool
}.

(** [log.warning(msg)] and [log.warning(msg, exc_info=True)] *)
Definition log_warning (msg : string) (exc_info : option exn) (w : world) : world :=
  {| now := now w; log := log w ++ [(msg, exc_info)];
     dispatcher_started := dispatcher_started w |}.

(** A callback runs in the world: it returns or raises, and time passes. *)
Abbreviation callback := (world → result unit * world).

(** [_safe_outside_call(fn, timeout)] *)
Definition _safe_outside_call (fn : callback) (timeout : world → bool) (w : world)
    : result unit * world :=
  let after_try (w : world) :=
    if timeout w then
      (Raise TimeoutException,
       log_warning "Time exceeded during callback, but exception was swallowed." None w)
    else (Ok (), w) in
  match fn w with
  | (Ok _, w1) => after_try w1
  | (Raise TimeoutException, w1) => (Raise TimeoutException, w1)
  | (Raise e, w1) =>
      if is_Exception e then
        after_try (log_warning "Exception during callback." (Some e) w1)
      else (Raise e, w1)
  end.

(** The numbers [async_ea] is called with: an [int], or a [float], which
    is finite, an infinity or NaN.  A comparison with NaN is false
    whichever way it is put. *)
Inductive number : Type :=
  | Int (z : Z)
  | Float (q : Q)
  | Infinity (negative : bool)
  | NaN.

(** The number an [int] or a finite [float] stands for. *)
Definition finite (x : number) : option Q :=
  match x with
  | Int z => Some (inject_Z z)
  | Float q => Some q
  | Infinity _ | NaN => None
  end.

(** [x <= c], [x > c] and [c > x] for a finite [c] *)
Definition number_le (x : number) (c : Q) : bool :=
  match x with
  | Int z => Qle_bool (inject_Z z) c
  | Float q => Qle_bool q c
  | Infinity negative => negative
  | NaN => false
  end.

Definition number_gt (x : number) (c : Q) : bool :=
  match x with
  | Int z => negb (Qle_bool (inject_Z z) c)
  | Float q => negb (Qle_bool q c)
  | Infinity negative => negb negative
  | NaN => false
  end.

Definition gt_number (c : Q) (x : number) : bool :=
  match x with
  | Int z => negb (Qle_bool c (inject_Z z))
  | Float q => negb (Qle_bool c q)
  | Infinity negative => negative
  | NaN => false
  end.

(** [exceed_timeout()]: [(time.time() - start_time) > max_time_seconds] *)
Definition exceed_timeout (start_time : Q) (max_time_seconds : number) (w : world) : bool :=
  gt_number (now w - start_time) max_time_seconds.

Section async_ea.
(** [str.format] on a number ([float.__format__], [int.__format__]) is
    Python's and is taken as given.  The evolutionary loop proper
    (everything from the [with stopit.ThreadingTimeout] block on) is taken
    as given too. *)
Variable format : number → string.
Variable evolve : Q → world → result (list Individual) * world.

(** The three checks at the head of [async_ea]; the value of the
    offending parameter is formatted into the message. *)
Definition check_parameters (max_n_evaluations max_time_seconds n_jobs : number)
    : result unit :=
  if number_le max_time_seconds 0 || number_gt max_time_seconds 3e6 then
    Raise (ValueError
      ("'max_time_seconds' must be greater than 0 and less than or equal to 3e6, but was "
       +:+ format max_time_seconds +:+ "."))
  else if number_le max_n_evaluations 0 then
    Raise (ValueError
      ("'n_evaluations' must be non-negative, but was " +:+ format max_n_evaluations +:+ "."))
  else if number_le n_jobs 0 then
    Raise (ValueError ("'n_jobs' must be non-negative, but was " +:+ format n_jobs +:+ "."))
  else Ok ().

(** [async_ea(...)]: validation, then the dispatcher is started and
    the loop runs. *)
Definition async_ea (start_population : list Individual)
    (max_n_evaluations max_time_seconds n_jobs : number) (w : world)
    : result (list Individual) * world :=
  match check_parameters max_n_evaluations max_time_seconds n_jobs with
  | Raise e => (Raise e, w)
  | Ok _ =>
      let start_time := now w in
      let w := {| now := now w; log := log w; dispatcher_started := true |} in
      evolve start_time w
  end.
End async_ea.

(** The output of an evaluation:
    [(score, start_time, evaluation_time, length)] *)
Record output : Type := mkOutput {
  score : Z;
  out_start_time : Z;
  evaluation_time : Z;
  length : Z
}.

Definition set_values (f : Fitness) (vs : list Z) : Fitness :=
  {| weights := weights f; values := vs; start_time := start_time f; time := time f |}.

(** [get_next_evaluation_result()], given what
    [evaluation_dispatcher.get_next_result()] delivered.  The individual
    is an object held in [queued_individuals]: the assignment to its
    fitness is seen there too. *)
Definition get_next_evaluation_result
    (objectives : list string) (queued_individuals : gmap nat Individual)
    (next_result : nat * output)
    : result (Individual * gmap nat Individual) :=
  let '(identifier, out) := next_result in
  match queued_individuals !! identifier with
  | None => Raise (KeyError (pretty identifier))
  | Some individual =>
      f ←
        (if bool_decide (List.length objectives = 1) then
           Ok (set_values (fitness individual) [score out])
         else
           o1 ← tuple_get objectives 1;
           if String.eqb o1 "time" then
             Ok (set_values (fitness individual) [score out; evaluation_time out])
           else if String.eqb o1 "size" then
             Ok (set_values (fitness individual) [score out; length out])
           else Ok (fitness individual));
      let f := {| weights := weights f; values := values f;
                  start_time := out_start_time out; time := evaluation_time out |} in
      let individual := {| expr := expr individual; fitness := f |} in
      Ok (individual, <[identifier := individual]> queued_individuals)
  end.

Section queue_individual_for_evaluation.
(** [str(individual)] is DEAP's; [toolbox.compile] is what the toolbox
    was given; [evaluation_dispatcher.queue_evaluation] is of
    [gama.utilities.generic.function_dispatcher]: it takes the pipeline
    and returns the identifier of the evaluation. *)
Variable str : Individual → string.
Variable toolbox_compile : Individual → result (option automl_gp.Pipeline).
Context {Dispatcher : Type}.
Variable queue_evaluation : automl_gp.Pipeline → Dispatcher → nat * Dispatcher.

(** What the closure [queue_individual_for_evaluation] works on. *)
Record queue : Type := mkQueue {
  queued_individuals_str : gset string;
  queued_individuals : gmap nat Individual;
  evaluation_dispatcher : Dispatcher
}.

(** [queue_individual_for_evaluation(individual)] *)
Definition queue_individual_for_evaluation (individual : Individual) (q : queue)
    : result bool * queue :=
  if bool_decide (str individual ∉ queued_individuals_str q) then
    let q := {| queued_individuals_str := queued_individuals_str q ∪ {[ str individual ]};
                queued_individuals := queued_individuals q;
                evaluation_dispatcher := evaluation_dispatcher q |} in
    match toolbox_compile individual with
    | Raise e => (Raise e, q)
    | Ok None => (Ok false, q)
    | Ok (Some compiled_individual) =>
        let '(identifier, d) :=
          queue_evaluation compiled_individual (evaluation_dispatcher q) in
        (Ok true,
         {| queued_individuals_str := queued_individuals_str q;
            queued_individuals := <[identifier := individual]> (queued_individuals q);
            evaluation_dispatcher := d |})
    end
  else (Ok false, q).

(** [for individual in start_population:
       queue_individual_for_evaluation(individual)] *)
Fixpoint queue_population (start_population : list Individual) (q : queue)
    : result unit * queue :=
  match start_population with
  | [] => (Ok (), q)
  | individual :: rest =>
      match queue_individual_for_evaluation individual q with
      | (Raise e, q') => (Raise e, q')
      | (Ok _, q') => queue_population rest q'
      end
  end.
End queue_individual_for_evaluation.

End async_ea.

(* ===================================================================== *)
(** ** Well-formed primitive sets *)
(* ===================================================================== *)

(** What [pset_from_config] guarantees of the primitive set it builds:
    - every primitive is filed under its return type, returns [Data] or
      [Predictions], and takes the data first and then one hyperparameter
      type per hyperparameter ([[Data, *hyperparameter_types]]);
    - every terminal is filed under its return type, and the terminals of
      type [Data] are exactly the input arguments (every other terminal is
      registered under a name of the form [key=value], which is its
      value). *)
Definition prim_wf (T : ty) (p : Primitive) : Prop :=
  prim_ret p = T ∧ is_hyper T = false
  ∧ head (prim_args p) = Some Data
  ∧ Forall (λ t, is_hyper t = true) (tail (prim_args p)).

Definition term_wf (pset : PrimitiveSetTyped) (T : ty) (t : Terminal) : Prop :=
  term_ret t = T ∧ (term_value t ∈ arguments pset ↔ T = Data).

Definition pset_wf (pset : PrimitiveSetTyped) : Prop :=
  map_Forall (λ T ps, Forall (prim_wf T) ps) (primitives pset)
  ∧ map_Forall (λ T ts, Forall (term_wf pset T) ts) (terminals pset).

#[global] Instance pset_wf_dec pset : Decision (pset_wf pset).
Proof. unfold pset_wf, prim_wf, term_wf. apply _. Defined.

(** The nodes of a genome are nodes of the primitive set. *)
Definition node_of (pset : PrimitiveSetTyped) (el : node) : Prop :=
  match el with
  | Prim p => p ∈ primitives pset !!! prim_ret p
  | Term t => t ∈ terminals pset !!! term_ret t
  end.

Definition genome_over (pset : PrimitiveSetTyped) (ind : genome) : Prop :=
  Forall (node_of pset) ind.

#[global] Instance genome_over_dec pset ind : Decision (genome_over pset ind).
Proof.
  unfold genome_over. apply Forall_dec. intros []; simpl; apply _.
Defined.

(** What [pset_from_config] guarantees for compilation: every primitive
    and every hyperparameter terminal is registered in the context under
    its name; no hyperparameter type is called [Data]; and the terminals
    of different hyperparameters of one operator give different keyword
    names (their names read [Operator.hyperparameter=value]). *)
Definition arg_name (t : Terminal) : string := automl_gp.extract_arg_name (term_name t).

Fixpoint distinct_keywords (pset : PrimitiveSetTyped) (hy : list ty) : Prop :=
  match hy with
  | [] => True
  | T :: hy' =>
      Forall (λ T', Forall (λ t, Forall (λ t', arg_name t ≠ arg_name t')
                                        (terminals pset !!! T'))
                           (terminals pset !!! T)) hy'
      ∧ distinct_keywords pset hy'
  end.

#[global] Instance distinct_keywords_dec pset hy : Decision (distinct_keywords pset hy).
Proof. induction hy; simpl; apply _. Defined.

Definition prim_compile_wf (pset : PrimitiveSetTyped) (p : Primitive) : Prop :=
  is_Some (context pset !! prim_name p)
  ∧ Forall (λ t, __name__ t ≠ "Data") (tail (prim_args p))
  ∧ distinct_keywords pset (tail (prim_args p)).

Definition compile_wf (pset : PrimitiveSetTyped) : Prop :=
  map_Forall (λ _ ps, Forall (prim_compile_wf pset) ps) (primitives pset)
  ∧ map_Forall (λ T ts, is_hyper T = true →
                        Forall (λ t, is_Some (context pset !! term_name t)) ts)
               (terminals pset).

#[global] Instance compile_wf_dec pset : Decision (compile_wf pset).
Proof. unfold compile_wf, prim_compile_wf. apply _. Defined.

(** The order of [best_n]: [x.fitness.values[0]] of an evaluated
    individual, and "[x] is ranked no later than [y]": a larger first
    objective value first, the canonical string deciding between equal
    values. *)
Definition primary_value (x : Individual) : Z := default 0%Z (values (fitness x) !! 0).

Definition primary_wvalue (x : Individual) : Z := default 0%Z (wvalues (fitness x) !! 0).

Definition ranks_before (str : Individual → string) (x y : Individual) : Prop :=
  (primary_value y < primary_value x)%Z
  ∨ (primary_value x = primary_value y ∧ String.leb (str x) (str y) = true).

(** The same order on the weighted value [x.fitness.wvalues[0]]. *)
Definition ranks_before_weighted (str : Individual → string) (x y : Individual) : Prop :=
  (primary_wvalue y < primary_wvalue x)%Z
  ∨ (primary_wvalue x = primary_wvalue y ∧ String.leb (str x) (str y) = true).

(** The individual as [get_next_evaluation_result] leaves it: the fitness
    values [vs], and the start time and duration of the evaluation. *)
Definition evaluated (individual : Individual) (out : async_ea.output) (vs : list Z)
    : Individual :=
  {| expr := expr individual;
     fitness := {| weights := weights (fitness individual);
                   values := vs;
                   start_time := async_ea.out_start_time out;
                   time := async_ea.evaluation_time out |} |}.


(** The random source as the first [k] candidates of [generate_valid]
    leave it, when each of them was grown and compiled to [None]. *)
Fixpoint rejected
    (gen_grow_safe : PrimitiveSetTyped → Z → Z → rng → result genome * rng)
    (pset : PrimitiveSetTyped) (min_ max_ : Z)
    (toolbox_compile : genome → result (option automl_gp.Pipeline))
    (k : nat) (r : rng) : option rng :=
  match k with
  | 0 => Some r
  | S k' =>
      match gen_grow_safe pset min_ max_ r with
      | (Ok ind, r') =>
          match toolbox_compile ind with
          | Ok None => rejected gen_grow_safe pset min_ max_ toolbox_compile k' r'
          | _ => None
          end
      | _ => None
      end
  end.

(** The individual at [l] in the store [h] is a type-consistent genome
    over the primitive set. *)
Definition valid_individual (pset : PrimitiveSetTyped) (root : ty) (h : heap) (l : loc)
    : Prop :=
  ∃ g, h !! l = Some g ∧ genome_over pset g ∧ type_consistent root g.

(** Lists of hyperparameter types. *)
Abbreviation hypers := (Forall (λ t : ty, is_hyper t = true)).

(** Where the scan started behind a primitive is expected to stop, given
    the data subtree [D] of the primitive and the nodes [HR] behind it. *)
Definition scan_stop (D HR : genome) : option nat :=
  match D with
  | Term _ :: _ => Some 0
  | _ => if bool_decide (HR = []) then None else Some (length D)
  end.

(** The scan as the specification words it: the queue is seeded with the
    declared argument types of the replaced primitive. *)
Definition find_unmatched_terminal_seeded (replaced : Primitive) (individual : genome)
    : option nat :=
  mutation.find_unmatched_terminal_loop (prim_args replaced) 0 individual.

(* ===================================================================== *)
(** ** A small configuration, used for the concrete instances below *)
(* ===================================================================== *)

(** The primitive set [pset_from_config] builds for two transformers
    ([Scaler] with a flag, [PCA] with a number of components) and two
    classifiers ([Tree] with a depth, [NB] without hyperparameter). *)
Module demo.

Definition T_with_mean : ty := Hyper "Scalerwith_mean" 0.
Definition T_n : ty := Hyper "PCAn_components" 1.
Definition T_depth : ty := Hyper "Treemax_depth" 2.

Definition Scaler : Primitive := mkPrimitive "Scaler" [Data; T_with_mean] Data.
Definition PCA : Primitive := mkPrimitive "PCA" [Data; T_n] Data.
Definition Tree : Primitive := mkPrimitive "Tree" [Data; T_depth] Predictions.
Definition NB : Primitive := mkPrimitive "NB" [Data] Predictions.

Definition data : Terminal := mkTerminal "ARG0" "data" Data.
Definition named (name : string) (T : ty) : Terminal := mkTerminal name name T.
Definition mean_True : Terminal := named "Scaler.with_mean=True" T_with_mean.
Definition mean_False : Terminal := named "Scaler.with_mean=False" T_with_mean.
Definition n_1 : Terminal := named "PCA.n_components=1" T_n.
Definition n_2 : Terminal := named "PCA.n_components=2" T_n.
Definition depth_1 : Terminal := named "Tree.max_depth=1" T_depth.
Definition depth_2 : Terminal := named "Tree.max_depth=2" T_depth.

Definition pset : PrimitiveSetTyped :=
  {| primitives := {[ Data := [Scaler; PCA]; Predictions := [Tree; NB] ]};
     terminals := {[ Data := [data];
                     T_with_mean := [mean_True; mean_False];
                     T_n := [n_1; n_2];
                     T_depth := [depth_1; depth_2] ]};
     arguments := ["data"];
     context := {[ "Scaler" := "<class Scaler>"; "PCA" := "<class PCA>";
                   "Tree" := "<class Tree>"; "NB" := "<class NB>";
                   "Scaler.with_mean=True" := "True";
                   "Scaler.with_mean=False" := "False";
                   "PCA.n_components=1" := "1"; "PCA.n_components=2" := "2";
                   "Tree.max_depth=1" := "1"; "Tree.max_depth=2" := "2" ]} |}.

(** A primitive set with a single classifier and no hyperparameter. *)
Definition pset_one_classifier : PrimitiveSetTyped :=
  {| primitives := {[ Predictions := [NB] ]};
     terminals := {[ Data := [data] ]};
     arguments := ["data"];
     context := {[ "NB" := "<class NB>" ]} |}.

(** [Tree(Scaler(data, with_mean=True), max_depth=1)] *)
Definition pipeline : genome :=
  [Prim Tree; Prim Scaler; Term data; Term mean_True; Term depth_1].

(** The store that holds [pipeline] as object 0. *)
Definition store : heap := {[ 0 := pipeline ]}.

(** A random source whose draws all select the first candidate. *)
Definition first : rng := λ _, 0.

(** A random source whose first draw selects the fourth candidate.  For
    [pipeline], [random_valid_mutation] then applies [mut_replace_terminal]. *)
Definition last_then_first : rng := λ k, if k is 0 then 3 else 0.

(** Stand-ins for [gp.mutInsert] and [gp.mutShrink] that return the
    individual as it is (what both do when they find nothing to change). *)
Definition unchanged_insert (r : rng) (ind : loc) (pset : PrimitiveSetTyped) (h : heap)
    : result loc * heap := (Ok ind, h).
Definition unchanged_shrink (r : rng) (ind : loc) (h : heap)
    : result loc * heap := (Ok ind, h).

(** A rendering of genomes that stands for [str]: the names of the
    nodes. *)
Definition render (g : genome) : string := String.concat " " (name <$> g).

(** A rendering of individuals that stands for [str]: the names of the
    nodes and the first objective value. *)
Definition str (x : Individual) : string :=
  String.concat " " (name <$> expr x) +:+ " #" +:+ pretty (primary_value x).

(** An evaluated individual with one objective. *)
Definition scored (weight value : Z) : Individual :=
  {| expr := pipeline;
     fitness := {| weights := [weight]; values := [value]; start_time := 0; time := 1 |} |}.

(** Individuals waiting for their evaluation, and an evaluation output. *)
Definition unevaluated : Individual :=
  {| expr := pipeline;
     fitness := {| weights := [1%Z; (-1)%Z]; values := []; start_time := 0; time := 0 |} |}.

Definition queued : gmap nat Individual := {[ 7 := unevaluated ]}.

Definition out : async_ea.output :=
  {| async_ea.score := 90; async_ea.out_start_time := 1000;
     async_ea.evaluation_time := 12; async_ea.length := 2 |}.

(** Callbacks: one that takes five seconds and raises a [ValueError], one
    that is interrupted by the timeout of the loop. *)
Definition slow_failing_callback : async_ea.callback :=
  λ w, (Raise (ValueError "bad callback"),
        {| async_ea.now := (async_ea.now w + 5)%Q;
           async_ea.log := async_ea.log w;
           async_ea.dispatcher_started := async_ea.dispatcher_started w |}).

Definition interrupted_callback : async_ea.callback :=
  λ w, (Raise TimeoutException, w).

Definition world0 : async_ea.world :=
  {| async_ea.now := 100; async_ea.log := []; async_ea.dispatcher_started := false |}.

(** An observer that has recorded the given individuals. *)
Definition recorded (xs : list Individual) : observer.Observer :=
  {| observer._overall_pareto_front := [];
     observer._current_pareto_front := [];
     observer._pareto_callbacks := [];
     observer._individuals := xs;
     observer._individuals_since_last_pareto_update := 0;
     observer._evaluation_filename := "run_evaluations.csv" |}.

(** A stand-in for [gen_grow_safe] that grows [pipeline] every time. *)
Definition grow (pset : PrimitiveSetTyped) (min_ max_ : Z) (r : rng)
    : result genome * rng := (Ok pipeline, shift 1 r).

(** A stand-in for [gen_grow_safe] that grows a genome that does not
    compile ([Tree] without its hyperparameter) for the draw 0, and
    [pipeline] for every other draw. *)
Definition grow_by_draw (pset : PrimitiveSetTyped) (min_ max_ : Z) (r : rng)
    : result genome * rng :=
  (Ok (if r 0 is 0 then [Prim Tree; Term data] else pipeline), shift 1 r).

(** A random source whose first 49 draws are 0. *)
Definition zero_49_times : rng := λ k, if k <? 49 then 0 else 1.

(** [toolbox.compile] as [compile_individual] over [pset], without
    parameter checks and preprocessing steps. *)
Definition compile (ind : genome) : result (option automl_gp.Pipeline) :=
  automl_gp.compile_individual ind pset None [].

(** Stand-ins for [np.random.random], [toolbox.mate] (the two parents
    change places) and [toolbox.mutate] (nothing changes). *)
Definition random (draw : nat) : Q := Z.of_nat (draw mod 100) # 100.
Definition mate (ind1 ind2 : Individual) (r : rng)
    : result (Individual * Individual) * rng := (Ok (ind2, ind1), r).
Definition mutate (ind1 : Individual) (r : rng) : result Individual * rng := (Ok ind1, r).

(** A dispatcher that numbers the evaluations. *)
Definition queue_evaluation (pl : automl_gp.Pipeline) (next : nat) : nat * nat :=
  (next, S next).

(** An individual that does not compile: a hyperparameter is missing. *)
Definition incomplete : Individual :=
  {| expr := [Prim Tree; Term data];
     fitness := {| weights := [1%Z; (-1)%Z]; values := []; start_time := 0; time := 0 |} |}.

(** An empty queue. *)
Definition queue0 : async_ea.queue :=
  {| async_ea.queued_individuals_str := ∅;
     async_ea.queued_individuals := ∅;
     async_ea.evaluation_dispatcher := 0 |}.

(** A stand-in for [str.format] on the numbers of the instances below:
    [int]s, and [float]s without fraction. *)
Definition format (x : async_ea.number) : string :=
  match x with
  | async_ea.Int z => pretty z
  | async_ea.Float q => pretty (Qnum q `div` Z.pos (Qden q))%Z +:+ ".0"
  | async_ea.Infinity negative => if negative then "-inf" else "inf"
  | async_ea.NaN => "nan"
  end.

(** [unevaluated] after its evaluation: a score of 90 and a size of 2. *)
Definition measured : Individual := evaluated unevaluated out [90; 2]%Z.

End demo.

(* ===================================================================== *)
(** ** Reading genomes: lemmas on [pending] *)
(* ===================================================================== *)

Section pending_facts.

Lemma pending_app q l1 l2 :
  pending q (l1 ++ l2) = pending q l1 ≫= λ q', pending q' l2.
Proof.
  revert q. induction l1 as [|el l1 IH]; intros q; simpl; [done|].
  destruct q as [|t q]; [done|]. case_decide; [apply IH | done].
Qed.

(** A sequence that uses up [q1] leaves what lies below it untouched. *)
Lemma pending_frame q1 q2 l1 :
  pending q1 l1 = Some [] → pending (q1 ++ q2) l1 = Some q2.
Proof.
  revert q1. induction l1 as [|el l1 IH]; intros q1; simpl.
  - by intros [= ->].
  - destruct q1 as [|t q1]; [done|]. simpl. case_decide; [|done].
    intros Hp. rewrite app_assoc. by apply IH.
Qed.

(** A sequence that uses up [q1 ++ q2] splits into one for [q1] and one
    for [q2]. *)
Lemma pending_split q1 q2 l :
  pending (q1 ++ q2) l = Some [] →
  ∃ l1 l2, l = l1 ++ l2 ∧ pending q1 l1 = Some [] ∧ pending q2 l2 = Some [].
Proof.
  revert q1. induction l as [|el l IH]; intros q1; simpl.
  - intros [= H]. apply app_eq_nil in H as [-> ->]. by exists [], [].
  - destruct q1 as [|t q1]; simpl.
    + intros H. exists [], (el :: l). by simpl.
    + case_decide as Ht; [|done]. rewrite app_assoc. intros Hp.
      destruct (IH _ Hp) as (l1 & l2 & -> & H1 & H2).
      exists (el :: l1), l2. simpl. by rewrite decide_True.
Qed.

Lemma pending_nil_inv l : pending [] l = Some [] → l = [].
Proof. by destruct l. Qed.

End pending_facts.

(* ===================================================================== *)
(** ** Genomes over a well-formed primitive set *)
(* ===================================================================== *)

Lemma lookup_total_elem {V} (m : gmap ty (list V)) (k : ty) (x : V) :
  x ∈ m !!! k → ∃ l, m !! k = Some l ∧ x ∈ l.
Proof.
  rewrite lookup_total_alt. destruct (m !! k) as [l|]; simpl; [eauto|].
  intros Hx. by apply elem_of_nil in Hx.
Qed.

Lemma choice_elem {A} (draw : nat) (xs : list A) (x : A) :
  choice draw xs = Ok x → x ∈ xs.
Proof.
  unfold choice. destruct (xs !! _) eqn:E; [|done].
  intros [= <-]. by eapply list_elem_of_lookup_2.
Qed.

Lemma enumerate_from_lookup {A} (k i : nat) (x : A) (xs : list A) :
  (i, x) ∈ enumerate_from k xs → k ≤ i ∧ xs !! (i - k) = Some x.
Proof.
  revert k. induction xs as [|y xs IH]; intros k; simpl.
  - intros Hin. by apply elem_of_nil in Hin.
  - rewrite elem_of_cons. intros [[= -> ->]|Hin].
    + by rewrite Nat.sub_diag.
    + apply IH in Hin as [Hle Hl]. split; [lia|].
      replace (i - k) with (S (i - S k)) by lia. done.
Qed.

Lemma positions_elem (cond : node → bool) (ind : genome) (i : nat) :
  i ∈ mutation.positions cond ind → ∃ el, ind !! i = Some el ∧ cond el = true.
Proof.
  unfold mutation.positions. rewrite list_elem_of_fmap.
  intros ([j el] & -> & Hin). simpl.
  apply list_elem_of_In, List.filter_In in Hin as [Hin Hc].
  apply list_elem_of_In, enumerate_from_lookup in Hin as [_ Hl].
  rewrite Nat.sub_0_r in Hl. eauto.
Qed.

Section over_pset.
Context (pset : PrimitiveSetTyped) (Hwf : pset_wf pset).

Lemma prim_of_wf (p : Primitive) :
  node_of pset (Prim p) →
  is_hyper (prim_ret p) = false ∧ ∃ hy, prim_args p = Data :: hy ∧ hypers hy.
Proof.
  simpl. intros Hin. apply lookup_total_elem in Hin as (ps & Hps & Hin).
  destruct Hwf as [Hp _]. specialize (Hp _ _ Hps).
  rewrite Forall_forall in Hp. destruct (Hp _ Hin) as (_ & Hh & Hd & Ht).
  split; [done|]. destruct (prim_args p) as [|a hy]; [done|].
  simpl in *. injection Hd as ->. eauto.
Qed.

Lemma term_of_wf (t : Terminal) :
  node_of pset (Term t) → (term_value t ∈ arguments pset ↔ term_ret t = Data).
Proof.
  simpl. intros Hin. apply lookup_total_elem in Hin as (ts & Hts & Hin).
  destruct Hwf as [_ Ht]. specialize (Ht _ _ Hts).
  rewrite Forall_forall in Ht. by destruct (Ht _ Hin) as (_ & Hv).
Qed.

Lemma prim_in_pset (T : ty) (p : Primitive) :
  p ∈ primitives pset !!! T → prim_ret p = T ∧ node_of pset (Prim p).
Proof.
  intros Hin. pose proof Hin as Hin'.
  apply lookup_total_elem in Hin as (ps & Hps & Hin).
  destruct Hwf as [Hp _]. specialize (Hp _ _ Hps).
  rewrite Forall_forall in Hp. destruct (Hp _ Hin) as (Hr & _).
  split; [done|]. simpl. by rewrite Hr.
Qed.

Lemma term_in_pset (T : ty) (t : Terminal) :
  t ∈ terminals pset !!! T → term_ret t = T ∧ node_of pset (Term t).
Proof.
  intros Hin. pose proof Hin as Hin'.
  apply lookup_total_elem in Hin as (ts & Hts & Hin).
  destruct Hwf as [_ Ht]. specialize (Ht _ _ Hts).
  rewrite Forall_forall in Ht. destruct (Ht _ Hin) as (Hr & _).
  split; [done|]. simpl. by rewrite Hr.
Qed.

(** Below the top of the pending stack there are hyperparameter types
    only. *)
Lemma pending_tail_hypers (l : genome) (q q' : list ty) :
  genome_over pset l → hypers (tail q) → pending q l = Some q' → hypers (tail q').
Proof.
  revert q. induction l as [|el l IH]; intros q Hl Hq; simpl.
  - by intros [= <-].
  - destruct q as [|t q0]; [done|]. case_decide as Hr; [|done].
    apply Forall_cons in Hl as [Hel Hl]. apply IH; [done|].
    destruct el as [p|t0]; simpl.
    + destruct (prim_of_wf p Hel) as (_ & hy & -> & Hhy). simpl.
      by apply Forall_app.
    + simpl in Hq. destruct q0; simpl; [done|]. by apply Forall_cons in Hq as [_ ?].
Qed.

(** Hyperparameter types are satisfied by terminals only, one each, and
    none of them is an input argument. *)
Lemma pending_hypers_terminals (l : genome) (q : list ty) :
  genome_over pset l → hypers q → pending q l = Some [] →
  length l = length q
  ∧ Forall (λ el, ∃ t, el = Term t ∧ term_value t ∉ arguments pset) l.
Proof.
  revert q. induction l as [|el l IH]; intros q Hl Hq; simpl.
  - by intros [= ->].
  - destruct q as [|t q0]; [done|]. case_decide as Hr; [|done].
    apply Forall_cons in Hl as [Hel Hl]. apply Forall_cons in Hq as [Ht Hq].
    destruct el as [p|t0]; simpl in *.
    + destruct (prim_of_wf p Hel) as (Hn & _). congruence.
    + intros Hp. destruct (IH _ Hl Hq Hp) as [Hlen Hall]. split; [by rewrite Hlen|].
      apply Forall_cons. split; [|done]. exists t0. split; [done|].
      rewrite (term_of_wf t0 Hel). intros Hd. rewrite Hr in Hd. by rewrite Hd in Ht.
Qed.

(** The shape of a type-consistent genome around one of its primitives:
    the primitive is followed by its data subtree [D], then by its own
    hyperparameter terminals [H], then by the terminals [R] of the
    primitives that enclose it. *)
Lemma genome_at_primitive (root : ty) (ind : genome) (i : nat) (p : Primitive) :
  genome_over pset ind → type_consistent root ind → ind !! i = Some (Prim p) →
  ∃ pre D H R hs,
    ind = pre ++ Prim p :: D ++ H ++ R ∧ length pre = i
    ∧ pending [root] pre = Some (prim_ret p :: hs) ∧ hypers hs
    ∧ pending [Data] D = Some []
    ∧ pending (tail (prim_args p)) H = Some []
    ∧ pending hs R = Some [].
Proof.
  intros Hover Hcons Hi.
  pose proof (take_drop_middle _ _ _ Hi) as Hsplit.
  assert (Hlen : length (take i ind) = i).
  { apply length_take_le. apply lookup_lt_Some in Hi. lia. }
  unfold genome_over in Hover. rewrite <- Hsplit in Hover, Hcons.
  apply Forall_app in Hover as [Hpre Hrest].
  apply Forall_cons in Hrest as [Hp Hrest].
  unfold type_consistent in Hcons. rewrite pending_app in Hcons.
  destruct (pending [root] (take i ind)) as [q1|] eqn:Eq1; [|done].
  simpl in Hcons. destruct q1 as [|t hs]; [done|].
  case_decide as Hr; [|done]. subst t.
  assert (Hhs : hypers hs).
  { apply (pending_tail_hypers (take i ind) [root] (prim_ret p :: hs)); [done| |done]. apply Forall_nil_2. }
  destruct (prim_of_wf p Hp) as (_ & hy & Hargs & Hhy).
  rewrite Hargs in Hcons. change (Data :: hy ++ hs) with ([Data] ++ (hy ++ hs)) in Hcons.
  apply (pending_split [Data] (hy ++ hs)) in Hcons as (D & HR & Hd & HD & HHR).
  apply (pending_split hy hs) in HHR as (H & R & -> & HH & HR).
  exists (take i ind), D, H, R, hs. rewrite Hargs. simpl.
  rewrite <- Hsplit at 1. by rewrite Hd.
Qed.

End over_pset.

(* ===================================================================== *)
(** ** The scan of [find_unmatched_terminal] and the splice *)
(* ===================================================================== *)

(** Nodes that use up the queue are passed over by the scan. *)
Lemma scan_matched (q : list ty) (i : nat) (l1 l2 : genome) :
  pending q l1 = Some [] →
  mutation.find_unmatched_terminal_loop q i (l1 ++ l2)
  = mutation.find_unmatched_terminal_loop [] (i + length l1) l2.
Proof.
  revert q i. induction l1 as [|el l1 IH]; intros q i; simpl.
  - intros [= ->]. by rewrite Nat.add_0_r.
  - destruct q as [|t q]; [done|]. case_decide as Hr; [|done]. intros Hp.
    rewrite bool_decide_eq_true_2 by (simpl; lia).
    rewrite bool_decide_eq_true_2 by (simpl; congruence). simpl.
    replace (i + S (length l1)) with (S i + length l1) by lia.
    destruct el; simpl in *; by apply IH.
Qed.

Lemma scan_terminal (i : nat) (t : Terminal) (l : genome) :
  mutation.find_unmatched_terminal_loop [] i (Term t :: l) = Some i.
Proof. reflexivity. Qed.

Lemma scan_primitive (i : nat) (p : Primitive) (l : genome) :
  mutation.find_unmatched_terminal_loop [] i (Prim p :: l)
  = mutation.find_unmatched_terminal_loop (prim_args p) (S i) l.
Proof. simpl. by rewrite app_nil_r. Qed.

Lemma sample_terminals_Forall2 (r : rng) (k : nat) (pset : PrimitiveSetTyped)
    (types : list ty) (ts : list Terminal) :
  mutation.sample_terminals r k pset types = Ok ts →
  Forall2 (λ t T, t ∈ terminals pset !!! T) ts types.
Proof.
  revert k ts. induction types as [|T types IH]; intros k ts; simpl.
  - intros [= <-]. constructor.
  - destruct (choice (r k) _) as [t|] eqn:Ec; [|done]. simpl.
    destruct (mutation.sample_terminals r (S k) pset types) as [ts'|] eqn:Es; [|done].
    simpl. intros [= <-]. constructor; [by eapply choice_elem | by eapply IH].
Qed.

Section splice.
Context (pset : PrimitiveSetTyped) (Hwf : pset_wf pset).

(** Where the scan stops behind a primitive: on the data leaf, or else on
    the first node behind the data subtree, if there is one. *)
Lemma scan_behind_primitive (D HR : genome) (q : list ty) :
  genome_over pset D → genome_over pset HR →
  pending [Data] D = Some [] → hypers q → pending q HR = Some [] →
  (∃ d, D = [Term d] ∧ term_value d ∈ arguments pset
        ∧ mutation.find_unmatched_terminal (D ++ HR) = Some 0)
  ∨ ((is_Primitive <$> head D) = Some true
     ∧ ((HR = [] ∧ q = [] ∧ mutation.find_unmatched_terminal (D ++ HR) = None)
        ∨ (∃ t X, HR = Term t :: X ∧ (term_value t ∉ arguments pset)
            ∧ mutation.find_unmatched_terminal (D ++ HR) = Some (length D)))).
Proof.
  intros HoD HoR HD Hq HR_.
  destruct D as [|el D']; [done|]. simpl in HD.
  case_decide as Hr; [|done]. apply Forall_cons in HoD as [Hel HoD].
  destruct el as [p|d]; simpl in *.
  - right. split; [done|].
    assert (Hscan : mutation.find_unmatched_terminal (Prim p :: D' ++ HR)
                    = mutation.find_unmatched_terminal_loop [] (S (length D')) HR).
    { unfold mutation.find_unmatched_terminal. rewrite scan_primitive.
      rewrite app_nil_r in HD. by rewrite (scan_matched _ _ _ _ HD). }
    destruct (pending_hypers_terminals pset Hwf HR q HoR Hq HR_) as [Hlen Hall].
    destruct HR as [|x X].
    + left. destruct q; [|done]. by rewrite Hscan.
    + right. apply Forall_cons in Hall as [(t & -> & Ht) _].
      exists t, X. by rewrite Hscan.
  - left. apply pending_nil_inv in HD as ->. exists d.
    split; [done|]. split; [|done]. by apply (term_of_wf pset Hwf d Hel).
Qed.

(** What [mut_replace_primitive] builds from a type-consistent genome:
    the chosen primitive is exchanged, its data subtree [D] stays, its own
    hyperparameter terminals [H] give way to the new ones, and the rest
    [R] stays. *)
Lemma mut_replace_primitive_expr_splice {str : genome → string} (root : ty) (r : rng) (ind ind' : genome) :
  genome_over pset ind → type_consistent root ind →
  mutation.mut_replace_primitive_expr str r ind pset = Ok ind' →
  ∃ pre p D H R hs p' newT,
    ind = pre ++ Prim p :: D ++ H ++ R
    ∧ ind' = pre ++ Prim p' :: D ++ (Term <$> newT) ++ R
    ∧ pending [root] pre = Some (prim_ret p :: hs) ∧ hypers hs
    ∧ pending [Data] D = Some []
    ∧ pending (tail (prim_args p)) H = Some []
    ∧ pending hs R = Some []
    ∧ p' ∈ primitives pset !!! prim_ret p ∧ prim_name p' ≠ prim_name p
    ∧ Forall2 (λ t T, t ∈ terminals pset !!! T) newT (tail (prim_args p'))
    ∧ mutation.find_unmatched_terminal (D ++ H ++ R) = scan_stop D (H ++ R)
    ∧ length H = length (prim_args p) - 1.
Proof.
  intros Hover Hcons. unfold mutation.mut_replace_primitive_expr.
  case_bool_decide as Hel; [done|].
  destruct (choice (r 0) _) as [a|] eqn:Ea; [|done]. simpl.
  apply choice_elem, positions_elem in Ea as (old & Hold & Hc).
  rewrite Hold. unfold mutation.eligible_primitive in Hc.
  apply andb_true_iff in Hc as [Hprim _].
  destruct old as [p|]; [|done]. clear Hprim. simpl ret. simpl name. simpl args.
  destruct (choice (r 1) _) as [p'|] eqn:Ep'; [|done]. simpl.
  apply choice_elem, list_elem_of_In, List.filter_In in Ep' as [Hp' Hname].
  apply list_elem_of_In in Hp'. apply bool_decide_eq_true_1 in Hname.
  destruct (mutation.sample_terminals r 2 pset _) as [newT|] eqn:Et; [|done]. simpl.
  apply sample_terminals_Forall2 in Et.
  replace (drop 1 (prim_args p')) with (tail (prim_args p')) in Et
    by (by destruct (prim_args p')).
  destruct (genome_at_primitive pset Hwf root ind a p Hover Hcons Hold)
    as (pre & D & H & R & hs & Hind & Hlen & Hpre & Hhs & HD & HH & HR).
  destruct (prim_of_wf pset Hwf p) as (_ & hy & Hargs & Hhy).
  { unfold genome_over in Hover. rewrite Forall_forall in Hover.
    apply Hover. by eapply list_elem_of_lookup_2. }
  rewrite Hargs in HH |- *. simpl in HH.
  assert (HoD : genome_over pset D ∧ genome_over pset (H ++ R)).
  { unfold genome_over in *. rewrite Hind in Hover.
    apply Forall_app in Hover as [_ Hover]. apply Forall_cons in Hover as [_ Hover].
    by apply Forall_app in Hover. }
  destruct HoD as [HoD HoHR].
  assert (HHR : pending (hy ++ hs) (H ++ R) = Some []).
  { rewrite pending_app, (pending_frame _ _ _ HH). done. }
  assert (HlenH : length H = length hy).
  { apply Forall_app in HoHR as [HoH _].
    by destruct (pending_hypers_terminals pset Hwf H hy HoH Hhy HH). }
  assert (Hdrop : drop (a + 1) ind = D ++ H ++ R).
  { rewrite Hind. rewrite cons_middle, app_assoc.
    apply drop_app_length'. rewrite length_app. simpl. lia. }
  rewrite Hdrop.
  assert (Hn : (Z.of_nat (length (Data :: hy)) - 1)%Z = Z.of_nat (length hy)).
  { simpl length. lia. }
  rewrite Hn. intros Hres.
  exists pre, p, D, H, R, hs, p', newT.
  cut (ind' = pre ++ Prim p' :: D ++ (Term <$> newT) ++ R
       ∧ mutation.find_unmatched_terminal (D ++ H ++ R) = scan_stop D (H ++ R)).
  { intros [-> Hstop]. rewrite Hargs. simpl. rewrite Nat.sub_0_r. done. }
  assert (Hins : ∀ X, <[a := Prim p']> (pre ++ Prim p :: X) = pre ++ Prim p' :: X).
  { intros X. rewrite insert_app_r_alt by lia.
    replace (a - length pre) with 0 by lia. done. }
  assert (Hslice : ∀ k, k = length pre + 1 + length D →
            slice_from (Z.of_nat k + Z.of_nat (length hy)) ind = R).
  { intros k ->. unfold slice_from.
    destruct (Z.ltb_spec (Z.of_nat (length pre + 1 + length D) + Z.of_nat (length hy)) 0);
      [lia|].
    rewrite Hind. rewrite cons_middle. rewrite !app_assoc.
    apply drop_app_length'. rewrite !length_app. simpl. lia. }
  assert (Htake : ∀ k, k = length pre + 1 + length D →
            take k ind = pre ++ Prim p :: D).
  { intros k ->. rewrite Hind.
    replace (pre ++ Prim p :: D ++ H ++ R) with ((pre ++ Prim p :: D) ++ H ++ R)
      by (by rewrite <- app_assoc).
    apply take_app_length'. rewrite length_app. simpl. lia. }
  destruct (scan_behind_primitive D (H ++ R) (hy ++ hs) HoD HoHR HD)
    as [(d & -> & Hd & Hscan)|[HDp [(Hnil & Hq & Hscan)|(t & X & HX & Ht & Hscan)]]];
    [by apply Forall_app|done|..]; rewrite Hscan in Hres; split.
  - (* the data argument is the input leaf *)
    simpl in Hres.
    assert (Hl : ind !! (a + 1) = Some (Term d)).
    { rewrite Hind. replace (a + 1) with (S (length pre)) by lia.
      rewrite lookup_app_r by lia. by replace (S (length pre) - length pre) with 1 by lia. }
    rewrite Hl in Hres. rewrite bool_decide_eq_true_2 in Hres by done.
    rewrite Htake, Hslice in Hres by (simpl; lia).
    injection Hres as <-. rewrite <- app_assoc. simpl. apply Hins.
  - done.
  - (* nothing follows the data subtree *)
    apply app_eq_nil in Hnil as [-> ->]. apply app_eq_nil in Hq as [-> ->].
    rewrite bool_decide_eq_true_2 in Hres by done.
    injection Hres as <-. rewrite Hind, !app_nil_r.
    rewrite <- app_assoc. simpl. by rewrite Hins.
  - rewrite Hscan, Hnil. by destruct D as [|[] ?].
  - (* the scan stops on the first node behind the data subtree *)
    assert (Hl : ind !! (length D + (a + 1)) = Some (Term t)).
    { rewrite Hind, HX. rewrite cons_middle, !app_assoc.
      apply list_lookup_middle. rewrite !length_app. simpl. lia. }
    rewrite Hl in Hres. rewrite bool_decide_eq_false_2 in Hres by done.
    rewrite Htake, Hslice in Hres by lia.
    injection Hres as <-. rewrite <- app_assoc. simpl. apply Hins.
  - rewrite Hscan, HX. by destruct D as [|[] ?].
Qed.

End splice.

(* ===================================================================== *)
(** ** The mutation operators on the store *)
(* ===================================================================== *)

Lemma mut_replace_terminal_expr_inv {str : genome → string} (r : rng) (ind ind' : genome) (pset : PrimitiveSetTyped) :
  mutation.mut_replace_terminal_expr str r ind pset = Ok ind' →
  ∃ i t t', ind !! i = Some (Term t) ∧ ind' = <[i := Term t']> ind
            ∧ t' ∈ terminals pset !!! term_ret t ∧ t' ≠ t.
Proof.
  unfold mutation.mut_replace_terminal_expr.
  case_bool_decide as Hel; [done|].
  destruct (choice (r 0) _) as [i|] eqn:Ei; [|done]. simpl.
  apply choice_elem, positions_elem in Ei as (cur & Hcur & Hc).
  rewrite Hcur. unfold mutation.eligible_terminal in Hc.
  apply andb_true_iff in Hc as [Hterm _]. destruct cur as [|t]; [done|].
  destruct (choice (r 1) _) as [t'|] eqn:Et; [|done]. simpl. intros [= <-].
  apply choice_elem, list_elem_of_In, List.filter_In in Et as [Hin Hne].
  apply list_elem_of_In in Hin. apply bool_decide_eq_true_1 in Hne.
  exists i, t, t'. repeat split; [done..|]. congruence.
Qed.

Lemma mut_replace_terminal_store {str : genome → string} (r : rng) (ind ind' : loc) (pset : PrimitiveSetTyped)
    (h h' : heap) (g : genome) :
  h !! ind = Some g →
  mutation.mut_replace_terminal str r ind pset h = (Ok ind', h') →
  ∃ new_expr, mutation.mut_replace_terminal_expr str r g pset = Ok new_expr
              ∧ ind' = ind ∧ h' = <[ind := new_expr]> h.
Proof.
  intros Hg. unfold mutation.mut_replace_terminal.
  rewrite (lookup_total_correct _ _ _ Hg).
  destruct (mutation.mut_replace_terminal_expr str r g pset) as [new_expr|]; [|done].
  intros [= <- <-]. by exists new_expr.
Qed.

Lemma mut_replace_primitive_store {str : genome → string} (r : rng) (ind ind' : loc) (pset : PrimitiveSetTyped)
    (h h' : heap) (g : genome) :
  h !! ind = Some g →
  mutation.mut_replace_primitive str r ind pset h = (Ok ind', h') →
  ∃ new_expr, mutation.mut_replace_primitive_expr str r g pset = Ok new_expr
              ∧ h !! ind' = None ∧ h' = <[ind' := new_expr]> h.
Proof.
  intros Hg. unfold mutation.mut_replace_primitive, new_Individual.
  rewrite (lookup_total_correct _ _ _ Hg).
  destruct (mutation.mut_replace_primitive_expr str r g pset) as [new_expr|]; [|done].
  intros [= <- <-]. exists new_expr. split; [done|]. split; [|done].
  apply not_elem_of_dom. apply is_fresh.
Qed.

(** Exchanging a node for one of the same return and argument types
    does not change how the genome reads. *)
Lemma pending_insert (q : list ty) (l : genome) (i : nat) (el el' : node) :
  l !! i = Some el → ret el' = ret el → args el' = args el →
  pending q (<[i := el']> l) = pending q l.
Proof.
  intros Hl Hr Ha. revert q i Hl. induction l as [|x l IH]; intros q i Hl; [done|].
  destruct i as [|i]; simpl in *.
  - injection Hl as ->. destruct q; [done|]. by rewrite Hr, Ha.
  - destruct q; [done|]. case_decide; [|done]. by apply IH.
Qed.

Lemma pending_new_terminals (newT : list Terminal) (hy : list ty) :
  Forall2 (λ t T, term_ret t = T) newT hy → pending hy (Term <$> newT) = Some [].
Proof.
  induction 1 as [|t T newT hy Ht _ IH]; simpl; [done|]. by rewrite decide_True.
Qed.

Section preservation.
Context (pset : PrimitiveSetTyped) (Hwf : pset_wf pset) (root : ty).

Lemma mut_replace_terminal_expr_valid {str : genome → string} (r : rng) (g g' : genome) :
  genome_over pset g → type_consistent root g →
  mutation.mut_replace_terminal_expr str r g pset = Ok g' →
  genome_over pset g' ∧ type_consistent root g'.
Proof.
  intros Hover Hcons Hm.
  apply mut_replace_terminal_expr_inv in Hm as (i & t & t' & Hi & -> & Hin & _).
  destruct (term_in_pset pset Hwf _ _ Hin) as [Hret Hnode]. split.
  - by apply Forall_insert.
  - unfold type_consistent. by rewrite (pending_insert _ _ _ (Term t)).
Qed.

Lemma mut_replace_primitive_expr_valid {str : genome → string} (r : rng) (g g' : genome) :
  genome_over pset g → type_consistent root g →
  mutation.mut_replace_primitive_expr str r g pset = Ok g' →
  genome_over pset g' ∧ type_consistent root g'.
Proof.
  intros Hover Hcons Hm.
  destruct (mut_replace_primitive_expr_splice pset Hwf root r g g' Hover Hcons Hm)
    as (pre & p & D & H & R & hs & p' & newT
        & -> & -> & Hpre & Hhs & HD & HH & HR & Hp' & _ & HnewT & _ & _).
  destruct (prim_in_pset pset Hwf _ _ Hp') as [Hret Hnode].
  destruct (prim_of_wf pset Hwf p' Hnode) as (_ & hy' & Hargs & _).
  rewrite Hargs in HnewT. simpl in HnewT.
  assert (Hts : Forall2 (λ t T, term_ret t = T ∧ node_of pset (Term t)) newT hy').
  { eapply Forall2_impl; [done|]. intros t T Hin. by apply term_in_pset. }
  split.
  - unfold genome_over in *.
    apply Forall_app in Hover as [Hopre Hover].
    apply Forall_cons in Hover as [_ Hover].
    apply Forall_app in Hover as [HoD Hover]. apply Forall_app in Hover as [_ HoR].
    apply Forall_app. split; [done|]. apply Forall_cons. split; [done|].
    apply Forall_app. split; [done|]. apply Forall_app. split; [|done].
    apply Forall_fmap. clear -Hts. induction Hts as [|???? [_ ?]]; by constructor.
  - unfold type_consistent. rewrite pending_app, Hpre. simpl.
    rewrite decide_True by done. rewrite Hargs.
    change ((Data :: hy') ++ hs) with ([Data] ++ (hy' ++ hs)).
    rewrite pending_app, (pending_frame _ _ _ HD). simpl.
    rewrite pending_app, (pending_frame hy' hs (Term <$> newT)); [done|].
    apply pending_new_terminals. eapply Forall2_impl; [done|]. by intros ?? [].
Qed.

End preservation.

(* ===================================================================== *)
(** ** Mutation: type consistency, the discarded span, aliasing *)
(* ===================================================================== *)

(** C1. Over a primitive set as [pset_from_config] builds it, a mutation
    operator that returns leaves a type-consistent genome: if the
    individual passed in reads as one expression of the root type, so does
    the individual returned by [mut_replace_terminal], by
    [mut_replace_primitive] and by [random_valid_mutation] (for the two
    operators of DEAP that [random_valid_mutation] may choose, this is
    assumed of them). *)
Theorem mutation_preserves_type_consistency (str : genome → string)
    (pset : PrimitiveSetTyped) (root : ty) (r : rng) (ind : loc) (h : heap) :
  pset_wf pset → valid_individual pset root h ind →
  (∀ ind' h', mutation.mut_replace_terminal str r ind pset h = (Ok ind', h') →
              valid_individual pset root h' ind')
  ∧ (∀ ind' h', mutation.mut_replace_primitive str r ind pset h = (Ok ind', h') →
                valid_individual pset root h' ind')
  ∧ (∀ mutInsert mutShrink,
       (∀ r' ind' h', mutInsert r' ind pset h = (Ok ind', h') →
                      valid_individual pset root h' ind') →
       (∀ r' ind' h', mutShrink r' ind h = (Ok ind', h') →
                      valid_individual pset root h' ind') →
       ∀ ind' fn h',
         mutation.random_valid_mutation str mutInsert mutShrink r ind pset h
         = (Ok (ind', fn), h') →
         valid_individual pset root h' ind').
Proof.
  intros Hwf (g & Hg & Hover & Hcons).
  assert (Hterm : ∀ r ind' h',
            mutation.mut_replace_terminal str r ind pset h = (Ok ind', h') →
            valid_individual pset root h' ind').
  { intros r0 ind' h' Hm.
    destruct (mut_replace_terminal_store _ _ _ _ _ _ _ Hg Hm) as (g' & He & -> & ->).
    exists g'. split; [by rewrite lookup_insert_eq|].
    by eapply mut_replace_terminal_expr_valid. }
  assert (Hprim : ∀ r ind' h',
            mutation.mut_replace_primitive str r ind pset h = (Ok ind', h') →
            valid_individual pset root h' ind').
  { intros r0 ind' h' Hm.
    destruct (mut_replace_primitive_store _ _ _ _ _ _ _ Hg Hm) as (g' & He & _ & ->).
    exists g'. split; [by rewrite lookup_insert_eq|].
    by eapply mut_replace_primitive_expr_valid. }
  split; [apply Hterm|]. split; [apply Hprim|].
  intros mutInsert mutShrink HI HS ind' fn h'.
  unfold mutation.random_valid_mutation.
  destruct (choice (r 0) _) as [f|]; [|done].
  destruct f.
  - destruct (mutation.mut_replace_primitive _ _ _ _ _) as [[l|] h1] eqn:E; [|done].
    simpl. intros [= <- <- <-]. by eapply Hprim.
  - destruct (mutInsert _ _ _ _) as [[l|] h1] eqn:E; [|done].
    simpl. intros [= <- <- <-]. by eapply HI.
  - destruct (mutShrink _ _ _) as [[l|] h1] eqn:E; [|done].
    simpl. intros [= <- <- <-]. by eapply HS.
  - destruct (mutation.mut_replace_terminal _ _ _ _ _) as [[l|] h1] eqn:E; [|done].
    simpl. intros [= <- <- <-]. by eapply Hterm.
Qed.

Lemma mutation_preserves_type_consistency_witness :
  valid_individual demo.pset Predictions
    (mutation.mut_replace_terminal demo.render demo.first 0 demo.pset demo.store).2 0
  ∧ valid_individual demo.pset Predictions
      (mutation.mut_replace_primitive demo.render demo.first 0 demo.pset demo.store).2 1
  ∧ valid_individual demo.pset Predictions
      (mutation.random_valid_mutation demo.render demo.unchanged_insert demo.unchanged_shrink
         demo.last_then_first 0 demo.pset demo.store).2 0.
Proof.
  destruct (mutation_preserves_type_consistency demo.render
              demo.pset Predictions demo.first 0 demo.store) as (Ht & Hp & _).
  { apply (bool_decide_unpack _). vm_compute. exact I. }
  { exists demo.pipeline. split; [reflexivity|].
    split; apply (bool_decide_unpack _); vm_compute; exact I. }
  destruct (mutation_preserves_type_consistency demo.render
              demo.pset Predictions demo.last_then_first 0 demo.store) as (_ & _ & Hr).
  { apply (bool_decide_unpack _). vm_compute. exact I. }
  { exists demo.pipeline. split; [reflexivity|].
    split; apply (bool_decide_unpack _); vm_compute; exact I. }
  split; [|split].
  - apply Ht. vm_compute. reflexivity.
  - apply Hp. vm_compute. reflexivity.
  - apply (Hr demo.unchanged_insert demo.unchanged_shrink) with (fn := mutation.fn_mut_replace_terminal).
    + intros r' ind' h' [= <- <-]. exists demo.pipeline. split; [reflexivity|].
      split; apply (bool_decide_unpack _); vm_compute; exact I.
    + intros r' ind' h' [= <- <-]. exists demo.pipeline. split; [reflexivity|].
      split; apply (bool_decide_unpack _); vm_compute; exact I.
    + vm_compute. reflexivity.
Defined.

(** C3, as the code has it.  The scan of [find_unmatched_terminal] starts
    behind the replaced primitive with an empty queue; a node that returns
    the type at the head of the queue pops it, a primitive pushes its
    argument types onto the front, and the scan stops at the first
    terminal that does not return the type at the head of the queue.  In a
    type-consistent genome this stop is the input leaf when the data
    argument of the replaced primitive is that leaf, and otherwise the
    first node behind the data subtree (none when nothing follows).  The
    nodes discarded are the primitive's own hyperparameter terminals [H],
    which follow the data subtree [D]; [D] is kept. *)
Theorem replaced_span_located_by_scan (str : genome → string)
    (pset : PrimitiveSetTyped) (root : ty) (r : rng) (ind ind' : genome) :
  pset_wf pset → genome_over pset ind → type_consistent root ind →
  mutation.mut_replace_primitive_expr str r ind pset = Ok ind' →
  (∀ l, mutation.find_unmatched_terminal l = mutation.find_unmatched_terminal_loop [] 0 l)
  ∧ (∀ el q i l,
       mutation.find_unmatched_terminal_loop (ret el :: q) i (el :: l)
       = mutation.find_unmatched_terminal_loop (args el ++ q) (S i) l)
  ∧ (∀ p q i l, head q ≠ Some (prim_ret p) →
       mutation.find_unmatched_terminal_loop q i (Prim p :: l)
       = mutation.find_unmatched_terminal_loop (prim_args p ++ q) (S i) l)
  ∧ (∀ t q i l, head q ≠ Some (term_ret t) →
       mutation.find_unmatched_terminal_loop q i (Term t :: l) = Some i)
  ∧ ∃ pre p p' D H R newT,
      ind = pre ++ Prim p :: D ++ H ++ R
      ∧ type_consistent Data D
      ∧ pending (tail (prim_args p)) H = Some []
      ∧ length H = length (prim_args p) - 1
      ∧ mutation.find_unmatched_terminal (D ++ H ++ R) = scan_stop D (H ++ R)
      ∧ ind' = pre ++ Prim p' :: D ++ (Term <$> newT) ++ R.
Proof.
  intros Hwf Hover Hcons Hm. split; [done|]. split; [|split; [|split]].
  - intros el q i l. simpl.
    rewrite (bool_decide_eq_true_2 (Some _ = Some _)) by done. by destruct el.
  - intros p q i l Hq. simpl.
    rewrite (bool_decide_eq_false_2 (head q = _)) by done. by rewrite andb_false_r.
  - intros t q i l Hq. simpl.
    rewrite (bool_decide_eq_false_2 (head q = _)) by done. by rewrite andb_false_r.
  - destruct (mut_replace_primitive_expr_splice pset Hwf root r ind ind' Hover Hcons Hm)
      as (pre & p & D & H & R & hs & p' & newT
          & Hi & Hi' & _ & _ & HD & HH & _ & _ & _ & _ & Hstop & Hlen).
    by exists pre, p, p', D, H, R, newT.
Qed.

Lemma replaced_span_located_by_scan_witness :
  ∃ pre p p' D H R newT,
    demo.pipeline = pre ++ Prim p :: D ++ H ++ R
    ∧ type_consistent Data D
    ∧ pending (tail (prim_args p)) H = Some []
    ∧ length H = length (prim_args p) - 1
    ∧ mutation.find_unmatched_terminal (D ++ H ++ R) = scan_stop D (H ++ R)
    ∧ [Prim demo.NB; Prim demo.Scaler; Term demo.data; Term demo.mean_True]
      = pre ++ Prim p' :: D ++ (Term <$> newT) ++ R.
Proof.
  refine (proj2 (proj2 (proj2 (proj2
    (replaced_span_located_by_scan demo.render demo.pset Predictions demo.first demo.pipeline
       [Prim demo.NB; Prim demo.Scaler; Term demo.data; Term demo.mean_True]
       _ _ _ _))))).
  - apply (bool_decide_unpack _). vm_compute. exact I.
  - apply (bool_decide_unpack _). vm_compute. exact I.
  - apply (bool_decide_unpack _). vm_compute. exact I.
  - vm_compute. reflexivity.
Defined.

(** C3 as stated fails: with the queue seeded with the argument types of
    the replaced primitive, the scan behind [Tree] in
    [Tree(Scaler(data, with_mean=True), max_depth=1)] matches every node
    and finds no terminal, whereas the scan of the code, which starts with
    an empty queue, stops at the terminal [max_depth=1]. *)
Lemma scan_queue_is_not_seeded :
  mutation.find_unmatched_terminal (drop 1 demo.pipeline) = Some 3
  ∧ find_unmatched_terminal_seeded demo.Tree (drop 1 demo.pipeline) = None
  ∧ mutation.find_unmatched_terminal (drop 1 demo.pipeline)
    ≠ find_unmatched_terminal_seeded demo.Tree (drop 1 demo.pipeline).
Proof. vm_compute. by repeat split. Qed.

(** C6, as the code has it.  [mut_replace_terminal] writes into the
    individual passed in and returns that same object, whose node sequence
    is no longer what it was; [mut_replace_primitive] returns a new object
    and leaves every individual of the store as it was;
    [random_valid_mutation] does what the operator it chose does. *)
Theorem mutation_aliasing (str : genome → string)
    (pset : PrimitiveSetTyped) (r : rng) (ind : loc) (h : heap) (g : genome) :
  h !! ind = Some g →
  (∀ ind' h', mutation.mut_replace_terminal str r ind pset h = (Ok ind', h') →
     ind' = ind ∧ (∃ g', h' !! ind = Some g' ∧ g' ≠ g)
     ∧ ∀ l, l ≠ ind → h' !! l = h !! l)
  ∧ (∀ ind' h', mutation.mut_replace_primitive str r ind pset h = (Ok ind', h') →
       ind' ≠ ind ∧ h !! ind' = None ∧ h' !! ind = Some g
       ∧ ∀ l, l ≠ ind' → h' !! l = h !! l)
  ∧ (∀ mutInsert mutShrink ind' fn h',
       mutation.random_valid_mutation str mutInsert mutShrink r ind pset h
       = (Ok (ind', fn), h') →
       (fn = mutation.fn_mut_replace_terminal → ind' = ind ∧ h' !! ind ≠ Some g)
       ∧ (fn = mutation.fn_mut_replace_primitive → ind' ≠ ind ∧ h' !! ind = Some g)).
Proof.
  intros Hg.
  assert (Hterm : ∀ r ind' h',
            mutation.mut_replace_terminal str r ind pset h = (Ok ind', h') →
            ind' = ind ∧ (∃ g', h' !! ind = Some g' ∧ g' ≠ g)
            ∧ ∀ l, l ≠ ind → h' !! l = h !! l).
  { intros r0 ind' h' Hm.
    destruct (mut_replace_terminal_store _ _ _ _ _ _ _ Hg Hm) as (g' & He & -> & ->).
    split; [done|]. split.
    - exists g'. split; [by rewrite lookup_insert_eq|].
      apply mut_replace_terminal_expr_inv in He as (i & t & t' & Hi & -> & _ & Hne).
      intros Heq. apply Hne.
      assert (Hl : <[i := Term t']> g !! i = Some (Term t')).
      { apply list_lookup_insert_eq. by eapply lookup_lt_Some. }
      rewrite Heq, Hi in Hl. congruence.
    - intros l Hl. by rewrite lookup_insert_ne. }
  assert (Hprim : ∀ r ind' h',
            mutation.mut_replace_primitive str r ind pset h = (Ok ind', h') →
            ind' ≠ ind ∧ h !! ind' = None ∧ h' !! ind = Some g
            ∧ ∀ l, l ≠ ind' → h' !! l = h !! l).
  { intros r0 ind' h' Hm.
    destruct (mut_replace_primitive_store _ _ _ _ _ _ _ Hg Hm) as (g' & He & Hfresh & ->).
    assert (ind' ≠ ind) by congruence.
    split; [done|]. split; [done|]. split.
    - by rewrite lookup_insert_ne.
    - intros l Hl. by rewrite lookup_insert_ne. }
  split; [apply Hterm|]. split; [apply Hprim|].
  intros mutInsert mutShrink ind' fn h'.
  unfold mutation.random_valid_mutation.
  destruct (choice (r 0) _) as [f|]; [|done].
  destruct f.
  - destruct (mutation.mut_replace_primitive _ _ _ _ _) as [[l|] h1] eqn:E; [|done].
    simpl. intros [= <- <- <-]. split; [done|]. intros _.
    by destruct (Hprim _ _ _ E) as (? & _ & ? & _).
  - destruct (mutInsert _ _ _ _) as [[l|] h1] eqn:E; [|done].
    simpl. by intros [= <- <- <-].
  - destruct (mutShrink _ _ _) as [[l|] h1] eqn:E; [|done].
    simpl. by intros [= <- <- <-].
  - destruct (mutation.mut_replace_terminal _ _ _ _ _) as [[l|] h1] eqn:E; [|done].
    simpl. intros [= <- <- <-]. split; [|done]. intros _.
    destruct (Hterm _ _ _ E) as (-> & (g' & Hg' & Hne) & _).
    split; [done|]. rewrite Hg'. congruence.
Qed.

Lemma mutation_aliasing_witness :
  (mutation.mut_replace_terminal demo.render demo.first 0 demo.pset demo.store).2 !! 0
  ≠ Some demo.pipeline
  ∧ (mutation.mut_replace_primitive demo.render demo.first 0 demo.pset demo.store).2 !! 0
    = Some demo.pipeline.
Proof.
  destruct (mutation_aliasing demo.render demo.pset demo.first 0 demo.store demo.pipeline)
    as (Ht & Hp & _); [reflexivity|].
  split.
  - destruct (Ht 0 (mutation.mut_replace_terminal demo.render demo.first 0 demo.pset demo.store).2)
      as (_ & (g' & Hg' & Hne) & _); [vm_compute; reflexivity|].
    rewrite Hg'. congruence.
  - destruct (Hp 1 (mutation.mut_replace_primitive demo.render demo.first 0 demo.pset demo.store).2)
      as (_ & _ & Hkeep & _); [vm_compute; reflexivity|]. exact Hkeep.
Defined.

(** C6 as stated fails: [mut_replace_terminal] returns the object it was
    given (object 0), and the node sequence of that object has changed. *)
Lemma mut_replace_terminal_mutates_its_argument :
  ∃ h', mutation.mut_replace_terminal demo.render demo.first 0 demo.pset demo.store = (Ok 0, h')
        ∧ demo.store !! 0 = Some demo.pipeline
        ∧ h' !! 0 = Some [Prim demo.Tree; Prim demo.Scaler; Term demo.data;
                          Term demo.mean_False; Term demo.depth_1]
        ∧ h' !! 0 ≠ demo.store !! 0.
Proof.
  eexists. split; [vm_compute; reflexivity|]. split; [reflexivity|].
  split; [reflexivity|]. vm_compute. discriminate.
Qed.

(* ===================================================================== *)
(** ** Compilation *)
(* ===================================================================== *)

Lemma build_kwargs_raises (pset : PrimitiveSetTyped) (acc : automl_gp.kwargs)
    (pairs : list (ty * node)) (e : exn) :
  automl_gp.build_kwargs pset acc pairs = Raise e → ∃ k, e = KeyError k.
Proof.
  revert acc. induction pairs as [|[T el] pairs IH]; intros acc; simpl; [done|].
  destruct (context pset !! name el); [apply IH|]. intros [= <-]. eauto.
Qed.

Lemma expression_to_component_raises (primitive : Primitive) (terminals : list node)
    (pset : PrimitiveSetTyped) (parameter_checks : option automl_gp.checks) (e : exn) :
  automl_gp.expression_to_component primitive terminals pset parameter_checks = Raise e →
  (∃ m, e = ValueError m) ∨ (∃ k, e = KeyError k).
Proof.
  unfold automl_gp.expression_to_component.
  destruct (negb (forallb _ _)); [intros [= <-]; eauto|].
  destruct (automl_gp.build_kwargs _ _ _) as [kw|e'] eqn:Ek; simpl.
  - destruct (context pset !! prim_name primitive); [|intros [= <-]; eauto].
    match goal with |- (if ?b then _ else _) = _ → _ => destruct b end;
      [intros [= <-]; eauto|done].
  - intros [= <-]. right. by eapply build_kwargs_raises.
Qed.

(** A [ValueError] never leaves the loop of [compile_individual]. *)
Lemma compile_loop_raises (fuel : nat) (ind : genome) (components : list (string * automl_gp.step))
    (name_counter : gmap string nat) (pset : PrimitiveSetTyped)
    (parameter_checks : option automl_gp.checks) (e : exn) :
  automl_gp.compile_loop fuel ind components name_counter pset parameter_checks = Raise e →
  e = Exception "" ∨ ∃ k, e = KeyError k.
Proof.
  revert ind components name_counter.
  induction fuel as [|fuel IH]; intros ind components name_counter; [by destruct ind|].
  destruct ind as [|[prim|t] remainder]; simpl; [done| |].
  - destruct (automl_gp.expression_to_component _ _ _ _) as [[c n]|e'] eqn:Ee.
    + apply IH.
    + destruct (expression_to_component_raises _ _ _ _ _ Ee) as [[m ->]|[k ->]];
        [done|]. intros [= <-]. eauto.
  - case_bool_decide; [|done]. intros [= <-]. by left.
Qed.

(** The loop does not depend on the fuel, once there is enough. *)
Lemma compile_loop_fuel (fuel1 fuel2 : nat) (ind : genome)
    (components : list (string * automl_gp.step)) (name_counter : gmap string nat)
    (pset : PrimitiveSetTyped) (parameter_checks : option automl_gp.checks) :
  length ind ≤ fuel1 → length ind ≤ fuel2 →
  automl_gp.compile_loop fuel1 ind components name_counter pset parameter_checks
  = automl_gp.compile_loop fuel2 ind components name_counter pset parameter_checks.
Proof.
  revert fuel2 ind components name_counter.
  induction fuel1 as [|fuel1 IH]; intros fuel2 ind components name_counter H1 H2.
  - destruct ind; [|simpl in H1; lia]. by destruct fuel2.
  - destruct ind as [|[prim|t] remainder]; [by destruct fuel2|..];
      (destruct fuel2 as [|fuel2]; [simpl in H2; lia|]); simpl in *; [|done].
    destruct (automl_gp.expression_to_component _ _ _ _) as [[c n]|e'] eqn:Ee; [|done].
    apply IH; case_bool_decide; rewrite ?length_take; lia.
Qed.

Section compile_valid.
Context (pset : PrimitiveSetTyped) (Hwf : pset_wf pset) (Hcwf : compile_wf pset).

Lemma prim_of_compile_wf (p : Primitive) :
  node_of pset (Prim p) → prim_compile_wf pset p.
Proof.
  simpl. intros Hin. apply lookup_total_elem in Hin as (ps & Hps & Hin).
  destruct Hcwf as [Hp _]. specialize (Hp _ _ Hps).
  rewrite Forall_forall in Hp. by apply Hp.
Qed.

Lemma term_in_context (T : ty) (t : Terminal) :
  is_hyper T = true → t ∈ terminals pset !!! T → is_Some (context pset !! term_name t).
Proof.
  intros HT Hin. apply lookup_total_elem in Hin as (ts & Hts & Hin).
  destruct Hcwf as [_ Ht]. specialize (Ht _ _ Hts HT).
  rewrite Forall_forall in Ht. by apply Ht.
Qed.

(** The nodes that satisfy hyperparameter types are terminals of the
    primitive set, one for each type. *)
Lemma hyper_terminals (H : genome) (hy : list ty) :
  genome_over pset H → hypers hy → pending hy H = Some [] →
  ∃ ts, H = Term <$> ts ∧ Forall2 (λ t T, t ∈ terminals pset !!! T) ts hy.
Proof.
  revert hy. induction H as [|el H IH]; intros hy Hover Hhy; simpl.
  - intros [= ->]. by exists [].
  - destruct hy as [|T hy]; [done|]. case_decide as Hr; [|done].
    apply Forall_cons in Hover as [Hel Hover]. apply Forall_cons in Hhy as [HT Hhy].
    destruct el as [p|t]; simpl in *.
    + destruct (prim_of_wf pset Hwf p Hel) as (Hn & _). congruence.
    + intros Hp. destruct (IH _ Hover Hhy Hp) as (ts & -> & Hts).
      exists (t :: ts). split; [done|]. constructor; [|done]. by rewrite <- Hr.
Qed.

Lemma filter_not_Data (hy : list ty) :
  Forall (λ t, __name__ t ≠ "Data") hy →
  List.filter (λ t, negb (String.eqb (__name__ t) "Data")) (Data :: hy) = hy.
Proof.
  simpl. induction 1 as [|T hy HT _ IH]; simpl; [done|].
  apply String.eqb_neq in HT. rewrite HT. simpl. by rewrite IH.
Qed.

Lemma distinct_keywords_NoDup (hy : list ty) (ts : list Terminal) :
  distinct_keywords pset hy → Forall2 (λ t T, t ∈ terminals pset !!! T) ts hy →
  NoDup (arg_name <$> ts).
Proof.
  intros Hd Hts. revert Hd. induction Hts as [|t T ts hy Ht Hts IH]; simpl.
  - intros _. constructor.
  - intros [Hhead Hd]. constructor; [|by apply IH].
    rewrite list_elem_of_fmap. intros (t' & Heq & Hin).
    apply list_elem_of_lookup in Hin as [i Hi].
    destruct (Forall2_lookup_l _ _ _ _ _ Hts Hi) as (T' & HT' & Ht').
    rewrite Forall_forall in Hhead.
    specialize (Hhead T' (list_elem_of_lookup_2 _ _ _ HT')).
    rewrite Forall_forall in Hhead. specialize (Hhead t Ht).
    rewrite Forall_forall in Hhead. by apply (Hhead t' Ht').
Qed.

Lemma pairs_match (hy : list ty) (ts : list Terminal) :
  Forall2 (λ t T, term_ret t = T) ts hy →
  forallb (λ rp : ty * node, bool_decide (rp.1 = ret rp.2)) (zip hy (Term <$> ts)) = true.
Proof.
  induction 1 as [|t T ts hy Ht _ IH]; simpl; [done|].
  by rewrite bool_decide_eq_true_2.
Qed.

Lemma build_kwargs_ok (hy : list ty) (ts : list Terminal) (acc : automl_gp.kwargs) :
  Forall2 (λ t (_ : ty), is_Some (context pset !! term_name t)) ts hy →
  NoDup (arg_name <$> ts) → (∀ t, t ∈ ts → acc !! arg_name t = None) →
  ∃ kw, automl_gp.build_kwargs pset acc (zip hy (Term <$> ts)) = Ok kw
        ∧ size kw = size acc + length ts.
Proof.
  intros Hts. revert acc. induction Hts as [|t T ts hy [v Hv] _ IH]; intros acc; simpl.
  - intros _ _. exists acc. split; [done|lia].
  - intros Hnd Hacc. apply NoDup_cons in Hnd as [Hnotin Hnd]. rewrite Hv.
    destruct (IH (<[arg_name t := v]> acc) Hnd) as (kw & Hkw & Hsize).
    + intros t' Hin. rewrite lookup_insert_ne.
      * apply Hacc. by right.
      * intros Heq. apply Hnotin. rewrite Heq. by apply list_elem_of_fmap_2.
    + exists kw. split; [done|]. rewrite Hsize.
      rewrite map_size_insert_None; [lia|]. apply Hacc. by left.
Qed.

(** On the arguments of a type-consistent genome, building the operator
    either succeeds with one keyword per hyperparameter, or the parameter
    check rejects the combination. *)
Lemma expression_to_component_valid (p : Primitive) (hy : list ty) (D : genome)
    (ts : list Terminal) (parameter_checks : option automl_gp.checks) :
  node_of pset (Prim p) → prim_args p = Data :: hy →
  Forall2 (λ t T, t ∈ terminals pset !!! T) ts hy →
  (∃ c, automl_gp.expression_to_component p (reverse (D ++ (Term <$> ts))) pset
          parameter_checks = Ok (c, length ts))
  ∨ (∃ m, automl_gp.expression_to_component p (reverse (D ++ (Term <$> ts))) pset
            parameter_checks = Raise (ValueError m)).
Proof.
  intros Hp Hargs Hts.
  destruct (prim_of_compile_wf p Hp) as ([cls Hcls] & Hnames & Hdist).
  destruct (prim_of_wf pset Hwf p Hp) as (_ & hy0 & Hargs0 & Hhy).
  rewrite Hargs in Hargs0. injection Hargs0 as <-.
  rewrite Hargs in Hnames, Hdist. simpl in Hnames, Hdist.
  unfold automl_gp.expression_to_component.
  rewrite Hargs, (filter_not_Data hy Hnames).
  rewrite reverse_app, <- fmap_reverse.
  rewrite <- (app_nil_r (reverse hy)).
  rewrite (zip_with_app pair (reverse hy) [] (Term <$> reverse ts) (reverse D))
    by (rewrite length_fmap, !length_reverse; symmetry; by eapply Forall2_length).
  simpl. rewrite app_nil_r.
  apply Forall2_reverse in Hts.
  rewrite pairs_match.
  2: { eapply Forall2_impl; [done|]. intros t T Hin. by apply (term_in_pset pset Hwf). }
  simpl.
  destruct (build_kwargs_ok (reverse hy) (reverse ts) ∅) as (kw & -> & Hsize).
  - assert (Hhy' : hypers (reverse hy)) by by apply Forall_reverse.
    clear -Hts Hhy' Hcwf. induction Hts as [|t T ts' hy' Ht _ IH]; [constructor|].
    apply Forall_cons in Hhy' as [HT Hhy']. constructor; [|by apply IH].
    by eapply term_in_context.
  - rewrite fmap_reverse, reverse_Permutation.
    apply Forall2_reverse in Hts. rewrite !reverse_involutive in Hts.
    by eapply distinct_keywords_NoDup.
  - intros t _. apply lookup_empty.
  - simpl. rewrite Hcls. rewrite map_size_empty, length_reverse in Hsize.
    simpl in Hsize. rewrite Hsize.
    match goal with |- context [if ?b then _ else _] => destruct b end; eauto.
Qed.


End compile_valid.

(** The invariant read from the back, as [compile_individual] reads a
    genome: a genome that starts with a primitive is type-consistent
    exactly when it ends with one terminal of exactly the required type
    for each hyperparameter of the primitive, in order, and what lies
    between is a type-consistent data argument. *)
Lemma type_consistent_from_the_back (pset : PrimitiveSetTyped) (root : ty)
    (p : Primitive) (rest : genome) :
  pset_wf pset → genome_over pset (Prim p :: rest) →
  type_consistent root (Prim p :: rest)
  ↔ prim_ret p = root
    ∧ ∃ D ts, rest = D ++ (Term <$> ts) ∧ type_consistent Data D
              ∧ Forall2 (λ t T, term_ret t = T) ts (tail (prim_args p)).
Proof.
  intros Hwf Hover. apply Forall_cons in Hover as [Hp Hover].
  destruct (prim_of_wf pset Hwf p Hp) as (_ & hy & Hargs & Hhy).
  unfold type_consistent. simpl. rewrite Hargs, app_nil_r. simpl. split.
  - case_decide as Hr; [|done]. intros Hcons. split; [done|].
    apply (pending_split [Data] hy) in Hcons as (D & H & -> & HD & HH).
    apply Forall_app in Hover as [_ HoH].
    destruct (hyper_terminals pset Hwf H hy HoH Hhy HH) as (ts & -> & Hts).
    exists D, ts. split; [done|]. split; [done|].
    eapply Forall2_impl; [done|]. intros t T Hin. by apply (term_in_pset pset Hwf).
  - intros (Hr & D & ts & -> & HD & Hts). rewrite decide_True by done.
    change (Data :: hy) with ([Data] ++ hy).
    rewrite pending_app, (pending_frame _ _ _ HD). simpl.
    by apply pending_new_terminals.
Qed.



Section compile_over_pset.
Context (pset : PrimitiveSetTyped) (Hwf : pset_wf pset) (Hcwf : compile_wf pset).




End compile_over_pset.




(** The check of [expression_to_component] compares the pairs that [zip]
    forms and no more: where the terminals of a primitive are missing
    altogether there is no pair, and the primitive is built without
    them. *)
Example compile_individual_without_terminals :
  automl_gp.compile_individual [Prim demo.Tree] demo.pset None []
  = Ok (Some (automl_gp.mkPipeline
                [("Tree0", automl_gp.Operator (automl_gp.mkComponent "<class Tree>" ∅))])).
Proof. vm_compute. reflexivity. Qed.

(* ===================================================================== *)
(** ** Sorting *)
(* ===================================================================== *)

Section sorted_facts.
Context {A : Type} (le : A → A → bool).

Lemma sorted_insert_Permutation (x : A) (l : list A) : sorted_insert le x l ≡ₚ x :: l.
Proof.
  induction l as [|y l IH]; simpl; [done|].
  destruct (le x y); [done|]. rewrite IH. apply Permutation_swap.
Qed.

Lemma sorted_Permutation (l : list A) : sorted le l ≡ₚ l.
Proof.
  induction l as [|x l IH]; simpl; [done|].
  by rewrite sorted_insert_Permutation, IH.
Qed.

Context (le_total : ∀ a b, le a b = true ∨ le b a = true).
Context (le_trans : ∀ a b c, le a b = true → le b c = true → le a c = true).

Lemma sorted_insert_StronglySorted (x : A) (l : list A) :
  StronglySorted (λ a b, le a b = true) l →
  StronglySorted (λ a b, le a b = true) (sorted_insert le x l).
Proof.
  induction l as [|y l IH]; simpl; intros Hl.
  - repeat constructor.
  - apply StronglySorted_cons in Hl as [Hy Hl].
    destruct (le x y) eqn:Exy.
    + apply StronglySorted_cons. split; [|by apply StronglySorted_cons].
      constructor; [done|]. eapply Forall_impl; [done|]. intros z Hz. by eapply le_trans.
    + apply StronglySorted_cons. split; [|by apply IH].
      rewrite sorted_insert_Permutation. constructor; [|done].
      destruct (le_total x y); congruence.
Qed.

Lemma sorted_StronglySorted (l : list A) :
  StronglySorted (λ a b, le a b = true) (sorted le l).
Proof.
  induction l as [|x l IH]; simpl; [constructor|]. by apply sorted_insert_StronglySorted.
Qed.

End sorted_facts.

(** Sorting pairs of a key and an element on the key is sorting the
    elements by their keys. *)
Lemma sorted_keyed {A K} (le : K → K → bool) (key : A → K) (l : list A) :
  (sorted (λ a b : K * A, le a.1 b.1) ((λ x, (key x, x)) <$> l)).*2
  = sorted (λ x y, le (key x) (key y)) l.
Proof.
  assert (Hins : ∀ x l', (sorted_insert (λ a b : K * A, le a.1 b.1) (key x, x)
                            ((λ x, (key x, x)) <$> l'))
                         = (λ x, (key x, x)) <$> sorted_insert (λ x y, le (key x) (key y)) x l').
  { intros x l'. induction l' as [|y l' IH]; [done|].
    rewrite fmap_cons. cbn [sorted_insert fst].
    destruct (le (key x) (key y)); [done|]. by rewrite IH. }
  assert (Hs : sorted (λ a b : K * A, le a.1 b.1) ((λ x, (key x, x)) <$> l)
               = (λ x, (key x, x)) <$> sorted (λ x y, le (key x) (key y)) l).
  { induction l as [|x l IH]; [done|].
    rewrite fmap_cons. cbn [sorted]. by rewrite IH, Hins. }
  rewrite Hs, <- list_fmap_compose. apply list_fmap_id.
Qed.

Lemma String_leb_trans (a b c : string) :
  String.leb a b = true → String.leb b c = true → String.leb a c = true.
Proof.
  unfold String.leb.
  destruct (String.compare a b) eqn:Eab; [|  |done];
    destruct (String.compare b c) eqn:Ebc; try done; intros _ _.
  - apply String.compare_eq_iff in Eab, Ebc. subst.
    pose proof (proj2 (OrderedTypeEx.String_as_OT.cmp_eq c c) eq_refl) as Hcc.
    unfold OrderedTypeEx.String_as_OT.cmp in Hcc. by rewrite Hcc.
  - apply String.compare_eq_iff in Eab. subst. by rewrite Ebc.
  - apply String.compare_eq_iff in Ebc. subst. by rewrite Eab.
  - apply OrderedTypeEx.String_as_OT.cmp_lt in Eab, Ebc.
    pose proof (OrderedTypeEx.String_as_OT.lt_trans _ _ _ Eab Ebc) as Hac.
    apply OrderedTypeEx.String_as_OT.cmp_lt in Hac.
    unfold OrderedTypeEx.String_as_OT.cmp in Hac. by rewrite Hac.
Qed.

Lemma key_le_total (a b : Z * string) :
  observer.key_le a b = true ∨ observer.key_le b a = true.
Proof.
  unfold observer.key_le. destruct a as [v s], b as [v' s']; simpl.
  destruct (Z.lt_trichotomy v v') as [Hlt|[->|Hgt]].
  - left. apply orb_true_iff. left. by apply Z.ltb_lt.
  - rewrite Z.ltb_irrefl, Z.eqb_refl. simpl. apply String.leb_total.
  - right. apply orb_true_iff. left. by apply Z.ltb_lt.
Qed.

Lemma key_le_spec (a b : Z * string) :
  observer.key_le a b = true ↔ (a.1 < b.1)%Z ∨ (a.1 = b.1 ∧ String.leb a.2 b.2 = true).
Proof.
  unfold observer.key_le.
  rewrite orb_true_iff, andb_true_iff, Z.ltb_lt, Z.eqb_eq. done.
Qed.

Lemma key_le_trans (a b c : Z * string) :
  observer.key_le a b = true → observer.key_le b c = true → observer.key_le a c = true.
Proof.
  rewrite !key_le_spec. intros [Hab|[Hab Hs]] [Hbc|[Hbc Hs']]; [left; lia..|].
  right. split; [lia|]. by eapply String_leb_trans.
Qed.

(* ===================================================================== *)
(** ** The observer: [best_n] *)
(* ===================================================================== *)

Lemma best_n_keys_ok (str : Individual → string) (xs : list Individual) :
  Forall (λ x, values (fitness x) ≠ []) xs →
  observer.best_n_keys str xs
  = Ok ((λ x, ((- primary_value x)%Z, str x, x)) <$> xs).
Proof.
  induction 1 as [|x xs Hx _ IH]; simpl; [done|].
  unfold tuple_get, primary_value. destruct (values (fitness x)) as [|v vs]; [done|].
  simpl. by rewrite IH.
Qed.

Lemma StronglySorted_weaken {A} (R1 R2 : A → A → Prop) (l : list A) :
  (∀ a b, a ∈ l → b ∈ l → R1 a b → R2 a b) → StronglySorted R1 l → StronglySorted R2 l.
Proof.
  intros HR Hs. induction Hs as [|x l _ IH Hx]; constructor.
  - apply IH. intros a b Ha Hb. apply HR; by right.
  - rewrite Forall_forall in Hx |- *. intros y Hy.
    apply HR; [by left|by right|by apply Hx].
Qed.

(** What [best_n] does.  For every [n] and every history of evaluated
    individuals, [best_n(n)] returns the first [min(n, number evaluated)]
    individuals of the history put in descending order of the first
    objective value [fitness.values[0]] (the value as assigned, not the
    weighted one), individuals with equal value in ascending order of
    their canonical string; with fewer than [n] individuals it returns
    all of them.  When the first objective has a positive weight, this is
    the descending order of the weighted value too. *)
Lemma best_n_ranking (str : Individual → string) (self : observer.Observer) (n : nat) :
  Forall (λ x, values (fitness x) ≠ []) (observer._individuals self) →
  ∃ best ranked,
    observer.best_n str self n = Ok best
    ∧ ranked ≡ₚ observer._individuals self
    ∧ StronglySorted (ranks_before str) ranked
    ∧ best = take n ranked
    ∧ length best = n `min` length (observer._individuals self)
    ∧ (length (observer._individuals self) ≤ n → best ≡ₚ observer._individuals self)
    ∧ (∀ weight, (0 < weight)%Z →
         Forall (λ x, head (weights (fitness x)) = Some weight) (observer._individuals self) →
         StronglySorted (ranks_before_weighted str) ranked).
Proof.
  intros Hev.
  set (key := λ x : Individual, ((- primary_value x)%Z, str x)).
  set (ranked := sorted (λ x y, observer.key_le (key x) (key y)) (observer._individuals self)).
  assert (Hperm : ranked ≡ₚ observer._individuals self) by apply sorted_Permutation.
  assert (Hsorted : StronglySorted (ranks_before str) ranked).
  { apply (StronglySorted_weaken (λ x y, observer.key_le (key x) (key y) = true)).
    - intros x y _ _. rewrite key_le_spec. unfold ranks_before, key. simpl.
      intros [Hlt|[Heq Hs]]; [left; lia|right; split; [lia|done]].
    - apply (sorted_StronglySorted (λ x y, observer.key_le (key x) (key y))).
      + intros a b. apply key_le_total.
      + intros a b c. apply key_le_trans. }
  exists (take n ranked), ranked.
  split; [|split; [done|split; [done|split; [done|split; [|split]]]]].
  - unfold observer.best_n. rewrite (best_n_keys_ok str _ Hev). simpl.
    by rewrite (sorted_keyed observer.key_le key).
  - by rewrite length_take, Hperm.
  - intros Hn. rewrite take_ge; [done|]. by rewrite Hperm.
  - intros weight Hpos Hweights.
    assert (Hw : ∀ x, x ∈ ranked → primary_wvalue x = (primary_value x * weight)%Z).
    { intros x Hx. rewrite Hperm in Hx. rewrite Forall_forall in Hev, Hweights.
      specialize (Hev x Hx). specialize (Hweights x Hx).
      unfold primary_wvalue, primary_value, wvalues.
      destruct (values (fitness x)) as [|v vs]; [done|].
      destruct (weights (fitness x)) as [|w0 ws]; [done|].
      simpl in *. congruence. }
    apply (StronglySorted_weaken (ranks_before str)); [|done].
    intros x y Hx Hy. unfold ranks_before, ranks_before_weighted.
    rewrite (Hw x Hx), (Hw y Hy). intros [Hlt|[Heq Hs]]; [left; nia|right].
    split; [by rewrite Heq|done].
Qed.

Lemma best_n_ranking_witness :
  ∃ best ranked,
    observer.best_n demo.str
      (demo.recorded [demo.scored 1 2; demo.scored 1 5; demo.scored 1 3]) 2 = Ok best
    ∧ ranked ≡ₚ [demo.scored 1 2; demo.scored 1 5; demo.scored 1 3]
    ∧ StronglySorted (ranks_before demo.str) ranked
    ∧ best = take 2 ranked
    ∧ length best = 2 `min` 3.
Proof.
  destruct (best_n_ranking demo.str
              (demo.recorded [demo.scored 1 2; demo.scored 1 5; demo.scored 1 3]) 2)
    as (best & ranked & Hb & Hp & Hs & Ht & Hl & _).
  - simpl. repeat constructor; discriminate.
  - exists best, ranked. repeat split; assumption.
Defined.

Example demo_best_n :
  observer.best_n demo.str
    (demo.recorded [demo.scored 1 2; demo.scored 1 5; demo.scored 1 3]) 2
  = Ok [demo.scored 1 5; demo.scored 1 3].
Proof. vm_compute. reflexivity. Qed.

(** C5 at a failing input.  Of two individuals whose first objective is
    minimised (weight [-1]) and has the values 1 and 2, so that the
    weighted values are -1 and -2 (larger is better), [best_n(1)] returns
    the one with value 2: the individual with the smaller weighted value,
    the worse of the two, where the docstring of [best_n] promises the
    best.  The key of the sort is [-x.fitness.values[0]], the value as
    assigned, not the weighted one. *)
Theorem best_n_orders_by_raw_value :
  observer.best_n demo.str (demo.recorded [demo.scored (-1) 1; demo.scored (-1) 2]) 1
  = Ok [demo.scored (-1) 2]
  ∧ wvalues (fitness (demo.scored (-1) 1)) = [(-1)%Z]
  ∧ wvalues (fitness (demo.scored (-1) 2)) = [(-2)%Z]
  ∧ (primary_wvalue (demo.scored (-1) 2) < primary_wvalue (demo.scored (-1) 1))%Z.
Proof. vm_compute. by repeat split. Qed.

(* ===================================================================== *)
(** ** Elimination *)
(* ===================================================================== *)

Lemma keyed_ok (pop : list Individual) :
  Forall (λ x, wvalues (fitness x) ≠ []) pop →
  automl_gp.keyed pop = Ok ((λ x, (primary_wvalue x, x)) <$> pop).
Proof.
  induction 1 as [|x xs Hx _ IH]; simpl; [done|].
  unfold tuple_get, primary_wvalue. destruct (wvalues (fitness x)) as [|v vs]; [done|].
  simpl. by rewrite IH.
Qed.

(** What [eliminate_worst] does: of the population in ascending order of
    the first weighted value it returns the last [n], so nothing it keeps
    is better than anything it returns. *)
Lemma eliminate_worst_selects_largest (pop : list Individual) (n : Z) :
  Forall (λ x, wvalues (fitness x) ≠ []) pop →
  (0 < n ≤ Z.of_nat (length pop))%Z →
  ∃ kept removed,
    automl_gp.eliminate_worst pop n = Ok removed
    ∧ kept ++ removed ≡ₚ pop
    ∧ length removed = Z.to_nat n
    ∧ ∀ x y, x ∈ kept → y ∈ removed → (primary_wvalue x ≤ primary_wvalue y)%Z.
Proof.
  intros Hev Hn.
  set (le := λ x y : Individual, (primary_wvalue x <=? primary_wvalue y)%Z).
  set (ranked := sorted le pop).
  assert (Hperm : ranked ≡ₚ pop) by apply sorted_Permutation.
  assert (Hlen : length ranked = length pop) by by rewrite Hperm.
  set (k := length pop - Z.to_nat n).
  exists (take k ranked), (drop k ranked).
  split; [|split; [|split]].
  - unfold automl_gp.eliminate_worst. rewrite (keyed_ok pop Hev). simpl.
    rewrite (sorted_keyed Z.leb primary_wvalue). fold le. fold ranked.
    unfold slice_from. destruct (Z.ltb_spec (- n) 0); [|lia].
    rewrite Hlen. do 2 f_equal. lia.
  - by rewrite take_drop.
  - rewrite length_drop, Hlen. lia.
  - intros x y Hx Hy.
    assert (Hs : StronglySorted (λ a b, le a b = true) (take k ranked ++ drop k ranked)).
    { rewrite take_drop. apply sorted_StronglySorted.
      - intros a b. unfold le. destruct (Z.le_ge_cases (primary_wvalue a) (primary_wvalue b));
          [left|right]; by apply Z.leb_le.
      - intros a b c. unfold le. rewrite !Z.leb_le. lia. }
    pose proof (StronglySorted_app_1_elem_of _ _ _ _ _ Hs Hx Hy) as Hle.
    by apply Z.leb_le in Hle.
Qed.

(** C4 at a failing input.  Of three individuals whose first weighted
    objective values are 2, 5 and 3 (larger is better), [eliminate_worst]
    with [n = 1] returns the one with value 5, the best; and with [n = 0]
    it returns all three. *)
Theorem eliminate_worst_returns_best :
  automl_gp.eliminate_worst [demo.scored 1 2; demo.scored 1 5; demo.scored 1 3] 1
  = Ok [demo.scored 1 5]
  ∧ primary_wvalue <$> [demo.scored 1 2; demo.scored 1 5; demo.scored 1 3] = [2; 5; 3]%Z
  ∧ automl_gp.eliminate_worst [demo.scored 1 2; demo.scored 1 5; demo.scored 1 3] 0
    = Ok [demo.scored 1 2; demo.scored 1 3; demo.scored 1 5].
Proof. vm_compute. by repeat split. Qed.

(* ===================================================================== *)
(** ** The loop: fitness assignment, callbacks, validation *)
(* ===================================================================== *)




(** C8.  Through [_safe_outside_call], an exception of the callback other
    than the timeout is logged (the log gains the record
    "Exception during callback." with the exception) and swallowed; after
    the callback has returned or its exception was swallowed, the timeout
    is polled and a [TimeoutException] is raised when the time is exceeded
    (with a record in the log that says so), and the call returns normally
    when it is not; a [TimeoutException] or a [KeyboardInterrupt] raised
    in the callback leaves [_safe_outside_call] at once, whatever the time
    is, and nothing is logged.  [exceed_timeout] holds exactly when the
    time elapsed since the start is more than the budget. *)
Theorem safe_outside_call_outcomes
    (fn : async_ea.callback) (timeout : async_ea.world → bool) (w w1 : async_ea.world)
    (r : result unit) :
  fn w = (r, w1) →
  (∀ e, r = Raise e → is_Exception e = true → e ≠ TimeoutException →
     let swallowed :=
       {| async_ea.now := async_ea.now w1;
          async_ea.log := async_ea.log w1 ++ [("Exception during callback.", Some e)];
          async_ea.dispatcher_started := async_ea.dispatcher_started w1 |} in
     async_ea._safe_outside_call fn timeout w
     = if timeout swallowed
       then (Raise TimeoutException,
             {| async_ea.now := async_ea.now w1;
                async_ea.log :=
                  async_ea.log w1
                  ++ [("Exception during callback.", Some e);
                      ("Time exceeded during callback, but exception was swallowed.",
                       None)];
                async_ea.dispatcher_started := async_ea.dispatcher_started w1 |})
       else (Ok (), swallowed))
  ∧ (r = Ok () →
     async_ea._safe_outside_call fn timeout w
     = if timeout w1
       then (Raise TimeoutException,
             {| async_ea.now := async_ea.now w1;
                async_ea.log :=
                  async_ea.log w1
                  ++ [("Time exceeded during callback, but exception was swallowed.",
                       None)];
                async_ea.dispatcher_started := async_ea.dispatcher_started w1 |})
       else (Ok (), w1))
  ∧ (r = Raise TimeoutException →
     async_ea._safe_outside_call fn timeout w = (Raise TimeoutException, w1))
  ∧ (r = Raise KeyboardInterrupt →
     async_ea._safe_outside_call fn timeout w = (Raise KeyboardInterrupt, w1))
  ∧ (∀ start_time max_time_seconds budget,
       async_ea.finite max_time_seconds = Some budget →
       async_ea.exceed_timeout start_time max_time_seconds w1 = true
       ↔ (budget < async_ea.now w1 - start_time)%Q).
Proof.
  intros Hfn. unfold async_ea._safe_outside_call. rewrite Hfn.
  split; [|split; [|split; [|split]]].
  - intros e -> He Hne. simpl.
    assert (Hlog : ∀ l : list (string * option exn),
              (l ++ [("Exception during callback.", Some e)])
              ++ [("Time exceeded during callback, but exception was swallowed.", None)]
              = l ++ [("Exception during callback.", Some e);
                      ("Time exceeded during callback, but exception was swallowed.",
                       None)]).
    { intros l. by rewrite <- app_assoc. }
    destruct e; try done; unfold async_ea.log_warning; simpl; by rewrite Hlog.
  - by intros ->.
  - by intros ->.
  - by intros ->.
  - intros start_time max_time_seconds budget Hb. unfold async_ea.exceed_timeout.
    destruct max_time_seconds; simpl in *; try done; injection Hb as <-;
      rewrite negb_true_iff, <- not_true_iff_false, Qle_bool_iff;
      (split; [apply Qnot_le_lt | apply Qlt_not_le]).
Qed.

Lemma safe_outside_call_outcomes_witness :
  async_ea._safe_outside_call demo.slow_failing_callback
    (async_ea.exceed_timeout 98 (async_ea.Int 10)) demo.world0
  = (Ok (),
     {| async_ea.now := 105;
        async_ea.log := [("Exception during callback.", Some (ValueError "bad callback"))];
        async_ea.dispatcher_started := false |})
  ∧ async_ea._safe_outside_call demo.slow_failing_callback
      (async_ea.exceed_timeout 98 (async_ea.Int 6)) demo.world0
    = (Raise TimeoutException,
       {| async_ea.now := 105;
          async_ea.log :=
            [("Exception during callback.", Some (ValueError "bad callback"));
             ("Time exceeded during callback, but exception was swallowed.", None)];
          async_ea.dispatcher_started := false |})
  ∧ async_ea._safe_outside_call demo.interrupted_callback
      (async_ea.exceed_timeout 98 (async_ea.Int 1000)) demo.world0
    = (Raise TimeoutException, demo.world0).
Proof.
  split; [|split].
  - exact (proj1 (safe_outside_call_outcomes demo.slow_failing_callback
                    (async_ea.exceed_timeout 98 (async_ea.Int 10)) demo.world0 _ _ eq_refl)
             (ValueError "bad callback") eq_refl eq_refl ltac:(discriminate)).
  - exact (proj1 (safe_outside_call_outcomes demo.slow_failing_callback
                    (async_ea.exceed_timeout 98 (async_ea.Int 6)) demo.world0 _ _ eq_refl)
             (ValueError "bad callback") eq_refl eq_refl ltac:(discriminate)).
  - exact (proj1 (proj2 (proj2 (safe_outside_call_outcomes demo.interrupted_callback
                    (async_ea.exceed_timeout 98 (async_ea.Int 1000)) demo.world0 _ _
                    eq_refl))) eq_refl).
Defined.

(** X23.  The checks at the head of [async_ea] on numbers that are finite
    ([int]s and finite [float]s).  [async_ea] raises a [ValueError] before
    anything else happens (the world is as it was: the dispatcher is not
    started and the loop is not entered) exactly when [max_time_seconds]
    is outside (0, 3e6], or [max_n_evaluations] is not positive, or
    [n_jobs] is not positive; the checks are made in this order, and the
    message names the first parameter whose bound is violated and gives
    its value.  When the three bounds hold, the dispatcher is started and
    the loop runs.  An infinite [max_time_seconds] is refused like a
    number outside the bounds. *)
Theorem async_ea_validation
    (format : async_ea.number → string)
    (evolve : Q → async_ea.world → result (list Individual) * async_ea.world)
    (start_population : list Individual)
    (max_n_evaluations max_time_seconds n_jobs : async_ea.number)
    (evaluations seconds jobs : Q) (w : async_ea.world) :
  async_ea.finite max_n_evaluations = Some evaluations →
  async_ea.finite max_time_seconds = Some seconds →
  async_ea.finite n_jobs = Some jobs →
  let time_ok := (0 < seconds)%Q ∧ (seconds <= 3e6)%Q in
  let outcome :=
    async_ea.async_ea format evolve start_population max_n_evaluations max_time_seconds
      n_jobs w in
  (time_ok ∧ (0 < evaluations)%Q ∧ (0 < jobs)%Q →
     outcome
     = evolve (async_ea.now w)
         {| async_ea.now := async_ea.now w; async_ea.log := async_ea.log w;
            async_ea.dispatcher_started := true |})
  ∧ (¬ time_ok →
     outcome
     = (Raise (ValueError
          ("'max_time_seconds' must be greater than 0 and less than or equal to 3e6, but was "
           +:+ format max_time_seconds +:+ ".")), w))
  ∧ (time_ok → (evaluations <= 0)%Q →
     outcome
     = (Raise (ValueError
          ("'n_evaluations' must be non-negative, but was "
           +:+ format max_n_evaluations +:+ ".")), w))
  ∧ (time_ok → (0 < evaluations)%Q → (jobs <= 0)%Q →
     outcome
     = (Raise (ValueError
          ("'n_jobs' must be non-negative, but was " +:+ format n_jobs +:+ ".")), w))
  ∧ (∀ negative,
       async_ea.async_ea format evolve start_population max_n_evaluations
         (async_ea.Infinity negative) n_jobs w
       = (Raise (ValueError
            ("'max_time_seconds' must be greater than 0 and less than or equal to 3e6, but was "
             +:+ format (async_ea.Infinity negative) +:+ ".")), w)).
Proof.
  intros Hn Ht Hj. simpl. unfold async_ea.async_ea, async_ea.check_parameters.
  assert (Hle : ∀ x q, async_ea.finite x = Some q →
                       async_ea.number_le x 0 = true ↔ (q <= 0)%Q).
  { intros x q Hx. destruct x; simpl in *; try done; injection Hx as <-;
      apply Qle_bool_iff. }
  assert (Hpos : ∀ x q, async_ea.finite x = Some q →
                        async_ea.number_le x 0 = false ↔ (0 < q)%Q).
  { intros x q Hx. rewrite <- not_true_iff_false, (Hle x q Hx).
    split; [apply Qnot_le_lt | apply Qlt_not_le]. }
  assert (Hmax : ∀ x q, async_ea.finite x = Some q →
                        async_ea.number_gt x 3e6 = false ↔ (q <= 3e6)%Q).
  { intros x q Hx. destruct x; simpl in *; try done; injection Hx as <-;
      rewrite negb_false_iff; apply Qle_bool_iff. }
  split; [|split; [|split; [|split]]].
  - intros ((Hp & Hm) & Hen & Hej).
    rewrite (proj2 (Hpos _ _ Ht) Hp), (proj2 (Hmax _ _ Ht) Hm). simpl.
    by rewrite (proj2 (Hpos _ _ Hn) Hen), (proj2 (Hpos _ _ Hj) Hej).
  - intros Hbad. destruct (async_ea.number_le max_time_seconds 0) eqn:E0; [done|]. simpl.
    destruct (async_ea.number_gt max_time_seconds 3e6) eqn:E1; [done|].
    destruct Hbad. split; [by apply (Hpos _ _ Ht)|by apply (Hmax _ _ Ht)].
  - intros (Hp & Hm) Hen.
    rewrite (proj2 (Hpos _ _ Ht) Hp), (proj2 (Hmax _ _ Ht) Hm). simpl.
    by rewrite (proj2 (Hle _ _ Hn) Hen).
  - intros (Hp & Hm) Hen Hej.
    rewrite (proj2 (Hpos _ _ Ht) Hp), (proj2 (Hmax _ _ Ht) Hm). simpl.
    by rewrite (proj2 (Hpos _ _ Hn) Hen), (proj2 (Hle _ _ Hj) Hej).
  - by intros [].
Qed.

Lemma async_ea_validation_witness :
  async_ea.async_ea demo.format (λ _ w, (Ok [], w)) [] (async_ea.Int 10000)
    (async_ea.Int 3600) (async_ea.Int 4) demo.world0
  = (Ok [], {| async_ea.now := 100; async_ea.log := []; async_ea.dispatcher_started := true |})
  ∧ async_ea.async_ea demo.format (λ _ w, (Ok [], w)) [] (async_ea.Int 10000)
      (async_ea.Float 1e7) (async_ea.Int 1) demo.world0
    = (Raise (ValueError
         "'max_time_seconds' must be greater than 0 and less than or equal to 3e6, but was 10000000.0."),
       demo.world0).
Proof.
  split.
  - refine (proj1 (async_ea_validation demo.format (λ _ w, (Ok [], w)) []
                     (async_ea.Int 10000) (async_ea.Int 3600) (async_ea.Int 4)
                     _ _ _ demo.world0 eq_refl eq_refl eq_refl) _).
    repeat split; (reflexivity || (vm_compute; discriminate)).
  - refine (proj1 (proj2 (async_ea_validation demo.format (λ _ w, (Ok [], w)) []
                     (async_ea.Int 10000) (async_ea.Float 1e7) (async_ea.Int 1)
                     _ _ _ demo.world0 eq_refl eq_refl eq_refl)) _).
    intros [_ Hle]. vm_compute in Hle. by apply Hle.
Defined.

(** C9 at a failing input.  With [max_time_seconds = float('nan')] (and
    the defaults [max_n_evaluations = 10000] and [n_jobs = 1]) no
    validation error is raised, although NaN does not lie in (0, 3e6]:
    both comparisons of the first check are false for NaN, so the
    dispatcher is started and the loop is entered.  The same holds of a
    NaN given for [n_jobs]. *)
Theorem async_ea_accepts_nan
    (format : async_ea.number → string)
    (evolve : Q → async_ea.world → result (list Individual) * async_ea.world)
    (start_population : list Individual) (w : async_ea.world) :
  async_ea.async_ea format evolve start_population (async_ea.Int 10000) async_ea.NaN
    (async_ea.Int 1) w
  = evolve (async_ea.now w)
      {| async_ea.now := async_ea.now w; async_ea.log := async_ea.log w;
         async_ea.dispatcher_started := true |}
  ∧ async_ea.async_ea format evolve start_population (async_ea.Int 10000)
      (async_ea.Int 3600) async_ea.NaN w
    = evolve (async_ea.now w)
        {| async_ea.now := async_ea.now w; async_ea.log := async_ea.log w;
           async_ea.dispatcher_started := true |}.
Proof. split; reflexivity. Qed.

(* ===================================================================== *)
(** ** The observer: the audit record *)
(* ===================================================================== *)

(** C10.  [Observer.update] reads the first and the second weighted
    objective value for the audit record in every call.  For an individual
    with two or more weighted values the line
    [time;wvalue 1;wvalue 2;canonical string] is appended to the file of
    the observer.  For an individual with fewer than two, [update] raises
    an [IndexError]: no line is written, neither front is updated and no
    callback runs (the individual has been appended to the history of the
    observer before, and the file has been opened). *)
Theorem update_reads_two_weighted_values
    (str : Individual → string) (self : observer.Observer) (ind : Individual)
    (w : observer.world) :
  let name := observer._evaluation_filename self in
  (length (wvalues (fitness ind)) < 2 →
     ∃ self' w' msg,
       observer.update str self ind w = (self', Raise (IndexError msg), w')
       ∧ observer.files w' !!! name = observer.files w !!! name
       ∧ observer.calls w' = observer.calls w
       ∧ observer._current_pareto_front self' = observer._current_pareto_front self
       ∧ observer._overall_pareto_front self' = observer._overall_pareto_front self
       ∧ observer._individuals_since_last_pareto_update self'
         = observer._individuals_since_last_pareto_update self
       ∧ observer._individuals self' = observer._individuals self ++ [ind])
  ∧ (∀ w0 w1 rest, wvalues (fitness ind) = w0 :: w1 :: rest →
     ∃ self' w',
       observer.update str self ind w = (self', Ok (), w')
       ∧ observer.files w' !!! name
         = observer.files w !!! name
           ++ [String.concat ";" [pretty (time (fitness ind)); pretty w0; pretty w1; str ind]
               +:+ String "010"%char ""]
       ∧ observer._individuals self' = observer._individuals self ++ [ind]).
Proof.
  simpl. split.
  - intros Hlen. unfold observer.update, observer._record_individual. simpl.
    destruct (wvalues (fitness ind)) as [|w0 [|w1 rest]]; simpl in *; [| |lia].
    + do 3 eexists. split; [done|]. simpl. rewrite lookup_total_insert_eq. done.
    + do 3 eexists. split; [done|]. simpl. rewrite lookup_total_insert_eq. done.
  - intros w0 w1 rest Hw. unfold observer.update, observer._record_individual. simpl.
    rewrite Hw. simpl.
    destruct (observer.ParetoFront_update (observer._current_pareto_front self) ind)
      as [updated current].
    destruct (observer.ParetoFront_update (observer._overall_pareto_front self) ind)
      as [updated' overall].
    do 2 eexists. split; [done|]. split; [|done].
    destruct updated'; simpl; rewrite !lookup_total_insert_eq; done.
Qed.

Lemma update_reads_two_weighted_values_witness :
  ∃ self' w' msg,
    observer.update demo.str (demo.recorded []) (demo.scored 1 90)
      {| observer.files := ∅; observer.calls := [] |}
    = (self', Raise (IndexError msg), w')
    ∧ observer.files w' !!! "run_evaluations.csv" = []
    ∧ observer._individuals self' = [demo.scored 1 90].
Proof.
  destruct (proj1 (update_reads_two_weighted_values demo.str (demo.recorded [])
                     (demo.scored 1 90) {| observer.files := ∅; observer.calls := [] |}))
    as (self' & w' & msg & Hu & Hf & _ & _ & _ & _ & Hi).
  - simpl. lia.
  - exists self', w', msg. split; [exact Hu|]. split; [|exact Hi].
    etrans; [exact Hf|reflexivity].
Defined.

(* ===================================================================== *)
(** ** Further properties of the mutation operators *)
(* ===================================================================== *)

Lemma find_unmatched_terminal_loop_terminal (q : list ty) (i k : nat) (l : genome) :
  mutation.find_unmatched_terminal_loop q i l = Some k →
  i ≤ k ∧ ∃ t, l !! (k - i) = Some (Term t).
Proof.
  revert q i. induction l as [|el l IH]; intros q i; simpl; [done|].
  destruct (bool_decide (0 < length q) && bool_decide (head q = Some (ret el))).
  - intros Hk. apply IH in Hk as [Hle (t & Ht)]. split; [lia|].
    exists t. by replace (k - i) with (S (k - S i)) by lia.
  - destruct el as [p|t]; simpl.
    + intros Hk. apply IH in Hk as [Hle (t & Ht)]. split; [lia|].
      exists t. by replace (k - i) with (S (k - S i)) by lia.
    + intros [= ->]. split; [done|]. exists t. by rewrite Nat.sub_diag.
Qed.

Lemma find_unmatched_terminal_loop_no_terminal (q : list ty) (i : nat) (l : genome) :
  Forall (λ el, is_Terminal el = false) l →
  mutation.find_unmatched_terminal_loop q i l = None.
Proof.
  intros Hl. revert q i. induction Hl as [|el l Hel _ IH]; intros q i; simpl; [done|].
  rewrite Hel. by destruct (_ && _).
Qed.

(** X1.  What [find_unmatched_terminal] returns is the index of a terminal
    of the sequence; on a sequence without terminal it returns [False]
    (it does not raise the [ValueError] its docstring announces). *)
Theorem find_unmatched_terminal_returns_a_terminal (individual : genome) :
  (∀ i, mutation.find_unmatched_terminal individual = Some i →
        ∃ t, individual !! i = Some (Term t))
  ∧ (Forall (λ el, is_Terminal el = false) individual →
     mutation.find_unmatched_terminal individual = None).
Proof.
  split.
  - intros i Hi. apply find_unmatched_terminal_loop_terminal in Hi as [_ (t & Ht)].
    exists t. by rewrite Nat.sub_0_r in Ht.
  - apply find_unmatched_terminal_loop_no_terminal.
Qed.

Lemma find_unmatched_terminal_returns_a_terminal_witness :
  mutation.find_unmatched_terminal [Prim demo.NB; Prim demo.Scaler] = None.
Proof.
  apply (proj2 (find_unmatched_terminal_returns_a_terminal
                  [Prim demo.NB; Prim demo.Scaler])).
  repeat constructor.
Defined.

(** X2.  The scan passes over a complete subtree that starts with a
    primitive: on such a subtree alone it finds nothing, although the
    subtree has terminals, and with a terminal behind the subtree it
    stops exactly there. *)
Theorem find_unmatched_terminal_skips_subtree
    (T : ty) (p : Primitive) (subtree : genome) :
  type_consistent T (Prim p :: subtree) →
  mutation.find_unmatched_terminal (Prim p :: subtree) = None
  ∧ ∀ t rest,
      mutation.find_unmatched_terminal (Prim p :: subtree ++ Term t :: rest)
      = Some (S (length subtree)).
Proof.
  unfold type_consistent. simpl. case_decide; [|done]. rewrite app_nil_r. intros Hs.
  unfold mutation.find_unmatched_terminal. split.
  - rewrite scan_primitive. rewrite <- (app_nil_r subtree).
    by rewrite (scan_matched _ _ _ _ Hs).
  - intros t rest. rewrite scan_primitive. by rewrite (scan_matched _ _ _ _ Hs).
Qed.

Lemma find_unmatched_terminal_skips_subtree_witness :
  mutation.find_unmatched_terminal demo.pipeline = None
  ∧ ∀ t rest,
      mutation.find_unmatched_terminal
        (Prim demo.Tree :: [Prim demo.Scaler; Term demo.data; Term demo.mean_True;
                            Term demo.depth_1] ++ Term t :: rest)
      = Some 5.
Proof.
  apply (find_unmatched_terminal_skips_subtree Predictions demo.Tree
           [Prim demo.Scaler; Term demo.data; Term demo.mean_True; Term demo.depth_1]).
  apply (bool_decide_unpack _). vm_compute. exact I.
Defined.

Lemma individual_length_insert_terminal (ind : genome) (i : nat) (t t' : Terminal) :
  ind !! i = Some (Term t) →
  automl_gp.individual_length (<[i := Term t']> ind) = automl_gp.individual_length ind.
Proof.
  unfold automl_gp.individual_length. revert i.
  induction ind as [|el ind IH]; intros i; [done|].
  destruct i as [|i]; simpl.
  - by intros [= ->].
  - intros Hi. destruct el; simpl; by rewrite (IH i Hi).
Qed.

(** X3.  When [mut_replace_terminal] returns, the genome differs from the
    one before in exactly one position: a terminal has been exchanged for
    a different terminal that the primitive set registers for the type of
    the old one.  The length and the number of primitives are as before. *)
Theorem mut_replace_terminal_changes_one_terminal (str : genome → string)
    (r : rng) (ind ind' : genome) (pset : PrimitiveSetTyped) :
  mutation.mut_replace_terminal_expr str r ind pset = Ok ind' →
  length ind' = length ind
  ∧ automl_gp.individual_length ind' = automl_gp.individual_length ind
  ∧ ∃ i t t',
      ind !! i = Some (Term t) ∧ ind' !! i = Some (Term t') ∧ t' ≠ t
      ∧ t' ∈ terminals pset !!! term_ret t
      ∧ ∀ j, j ≠ i → ind' !! j = ind !! j.
Proof.
  intros Hm.
  apply mut_replace_terminal_expr_inv in Hm as (i & t & t' & Hi & -> & Hin & Hne).
  split; [apply length_insert|]. split; [by eapply individual_length_insert_terminal|].
  exists i, t, t'. split; [done|]. split.
  { apply list_lookup_insert_eq. by eapply lookup_lt_Some. }
  split; [done|]. split; [done|].
  intros j Hj. by apply list_lookup_insert_ne.
Qed.

Lemma mut_replace_terminal_changes_one_terminal_witness :
  ∃ i t t',
    demo.pipeline !! i = Some (Term t)
    ∧ [Prim demo.Tree; Prim demo.Scaler; Term demo.data; Term demo.mean_False;
       Term demo.depth_1] !! i = Some (Term t')
    ∧ t' ≠ t.
Proof.
  destruct (mut_replace_terminal_changes_one_terminal demo.render demo.first demo.pipeline
              [Prim demo.Tree; Prim demo.Scaler; Term demo.data; Term demo.mean_False;
               Term demo.depth_1] demo.pset)
    as (_ & _ & i & t & t' & H1 & H2 & H3 & _).
  - vm_compute. reflexivity.
  - by exists i, t, t'.
Defined.

Lemma choice_raises {A} (draw : nat) (xs : list A) (e : exn) :
  choice draw xs = Raise e → ∃ msg, e = ValueError msg.
Proof. unfold choice. destruct (xs !! _); [done|]. intros [= <-]. eauto. Qed.

Lemma choice_nonempty {A} (draw : nat) (xs : list A) :
  xs ≠ [] → ∃ x, choice draw xs = Ok x.
Proof.
  intros Hxs. unfold choice.
  destruct (lookup_lt_is_Some_2 xs (draw mod length xs)) as [x ->]; [|eauto].
  apply Nat.mod_upper_bound. by destruct xs.
Qed.

(** X4.  [mut_replace_terminal] raises nothing but a [ValueError], and it
    raises the one that reports that no valid terminal was available (the
    message ends with the individual as [str] renders it) exactly when no
    terminal of the genome has a type with more than one registered
    terminal. *)
Theorem mut_replace_terminal_errors (str : genome → string)
    (r : rng) (ind : genome) (pset : PrimitiveSetTyped) :
  (∀ e, mutation.mut_replace_terminal_expr str r ind pset = Raise e → ∃ msg, e = ValueError msg)
  ∧ (mutation.mut_replace_terminal_expr str r ind pset
     = Raise (ValueError
         ("Individual could not be mutated because no valid terminal was available: "
          +:+ str ind))
     ↔ Forall (λ el, mutation.eligible_terminal pset el = false) ind).
Proof.
  assert (Hpos : mutation.positions (mutation.eligible_terminal pset) ind = []
                 ↔ Forall (λ el, mutation.eligible_terminal pset el = false) ind).
  { unfold mutation.positions, enumerate. generalize 0.
    induction ind as [|el ind IH]; intros k; simpl.
    - split; [constructor|done].
    - destruct (mutation.eligible_terminal pset el) eqn:E; simpl.
      + split; [done|]. intros Hall. apply Forall_cons in Hall as [? _]. congruence.
      + rewrite (IH (S k)). split; [by constructor|]. by intros [_ ?]%Forall_cons. }
  unfold mutation.mut_replace_terminal_expr. split.
  - intros e. case_bool_decide; [intros [= <-]; eauto|].
    destruct (choice (r 0) _) as [i|e'] eqn:Ei; simpl.
    + apply choice_elem, positions_elem in Ei as (cur & -> & _).
      destruct (choice (r 1) _) as [t'|e''] eqn:Et; simpl; [done|].
      intros [= <-]. by eapply choice_raises.
    + intros [= <-]. by eapply choice_raises.
  - rewrite <- Hpos. case_bool_decide as Hel; [done|]. split; [|done].
    destruct (choice (r 0) _) as [i|e'] eqn:Ei; simpl.
    + apply choice_elem, positions_elem in Ei as (cur & -> & _).
      destruct (choice (r 1) _) as [t'|e''] eqn:Et; simpl; [done|].
      unfold choice in Et. destruct (_ !! _); [done|]. injection Et as <-.
      unfold String.append. by intros [=].
    + unfold choice in Ei. destruct (_ !! _); [done|]. injection Ei as <-.
      unfold String.append. by intros [=].
Qed.

Lemma mut_replace_terminal_errors_witness :
  mutation.mut_replace_terminal_expr demo.render demo.first [Prim demo.NB; Term demo.data] demo.pset
  = Raise (ValueError
      "Individual could not be mutated because no valid terminal was available: NB ARG0").
Proof.
  apply (proj2 (mut_replace_terminal_errors demo.render demo.first [Prim demo.NB; Term demo.data]
                  demo.pset)).
  repeat constructor.
Defined.

Lemma sample_terminals_raises (r : rng) (k : nat) (pset : PrimitiveSetTyped)
    (types : list ty) (e : exn) :
  mutation.sample_terminals r k pset types = Raise e → ∃ msg, e = ValueError msg.
Proof.
  revert k. induction types as [|T types IH]; intros k; simpl; [done|].
  destruct (choice (r k) _) as [t|e'] eqn:Ec; simpl.
  - destruct (mutation.sample_terminals r (S k) pset types) as [ts|e''] eqn:Es; simpl; [done|].
    intros [= <-]. by eapply IH.
  - intros [= <-]. by eapply choice_raises.
Qed.

(** X5.  On a type-consistent genome [mut_replace_primitive] raises
    nothing but a [ValueError] (no eligible primitive, or nothing to choose
    from): the scan always finds the place of the splice, so the
    [Exception] for "no unmatched terminals" and index or attribute errors
    do not occur. *)
Theorem mut_replace_primitive_errors (str : genome → string)
    (pset : PrimitiveSetTyped) (root : ty) (r : rng) (ind : genome) (e : exn) :
  pset_wf pset → genome_over pset ind → type_consistent root ind →
  mutation.mut_replace_primitive_expr str r ind pset = Raise e →
  ∃ msg, e = ValueError msg.
Proof.
  intros Hwf Hover Hcons. unfold mutation.mut_replace_primitive_expr.
  case_bool_decide as Hel; [intros [= <-]; eauto|].
  destruct (choice (r 0) _) as [a|e0] eqn:Ea; simpl;
    [|intros [= <-]; by eapply choice_raises].
  apply choice_elem, positions_elem in Ea as (old & Hold & Hc).
  rewrite Hold. unfold mutation.eligible_primitive in Hc.
  apply andb_true_iff in Hc as [Hprim _].
  destruct old as [p|]; [|done]. clear Hprim. simpl ret. simpl name. simpl args.
  destruct (choice (r 1) _) as [p'|e1] eqn:Ep'; simpl;
    [|intros [= <-]; by eapply choice_raises].
  destruct (mutation.sample_terminals r 2 pset _) as [newT|e2] eqn:Et; simpl;
    [|intros [= <-]; by eapply sample_terminals_raises].
  destruct (genome_at_primitive pset Hwf root ind a p Hover Hcons Hold)
    as (pre & D & H & R & hs & Hind & Hlen & Hpre & Hhs & HD & HH & HR).
  destruct (prim_of_wf pset Hwf p) as (_ & hy & Hargs & Hhy).
  { unfold genome_over in Hover. rewrite Forall_forall in Hover.
    apply Hover. by eapply list_elem_of_lookup_2. }
  rewrite Hargs in HH |- *. simpl in HH.
  assert (HoD : genome_over pset D ∧ genome_over pset (H ++ R)).
  { unfold genome_over in *. rewrite Hind in Hover.
    apply Forall_app in Hover as [_ Hover]. apply Forall_cons in Hover as [_ Hover].
    by apply Forall_app in Hover. }
  destruct HoD as [HoD HoHR].
  assert (HHR : pending (hy ++ hs) (H ++ R) = Some []).
  { rewrite pending_app, (pending_frame _ _ _ HH). done. }
  assert (Hdrop : drop (a + 1) ind = D ++ H ++ R).
  { rewrite Hind. rewrite cons_middle, app_assoc.
    apply drop_app_length'. rewrite length_app. simpl. lia. }
  rewrite Hdrop.
  destruct (scan_behind_primitive pset Hwf D (H ++ R) (hy ++ hs) HoD HoHR HD)
    as [(d & -> & Hd & Hscan)|[HDp [(Hnil & Hq & Hscan)|(t & X & HX & Ht & Hscan)]]];
    [by apply Forall_app|done|..]; rewrite Hscan.
  - assert (Hl : ind !! (0 + (a + 1)) = Some (Term d)).
    { rewrite Hind. replace (0 + (a + 1)) with (S (length pre)) by lia.
      rewrite lookup_app_r by lia. by replace (S (length pre) - length pre) with 1 by lia. }
    by rewrite Hl.
  - apply app_eq_nil in Hq as [-> _]. by simpl.
  - assert (Hl : ind !! (length D + (a + 1)) = Some (Term t)).
    { rewrite Hind, HX. rewrite cons_middle, !app_assoc.
      apply list_lookup_middle. rewrite !length_app. simpl. lia. }
    by rewrite Hl.
Qed.

Lemma mut_replace_primitive_errors_witness :
  ∃ msg, mutation.mut_replace_primitive_expr demo.render demo.first
           [Prim demo.NB; Term demo.data] demo.pset_one_classifier
         = Raise (ValueError msg).
Proof.
  destruct (mut_replace_primitive_errors demo.render demo.pset_one_classifier Predictions
              demo.first [Prim demo.NB; Term demo.data]
              (ValueError
                 "Individual could not be mutated because no valid primitive was available: NB ARG0"))
    as [msg Hmsg].
  - apply (bool_decide_unpack _). vm_compute. exact I.
  - apply (bool_decide_unpack _). vm_compute. exact I.
  - apply (bool_decide_unpack _). vm_compute. exact I.
  - vm_compute. reflexivity.
  - eexists. vm_compute. reflexivity.
Defined.

Lemma individual_length_app (l1 l2 : genome) :
  automl_gp.individual_length (l1 ++ l2)
  = automl_gp.individual_length l1 + automl_gp.individual_length l2.
Proof.
  unfold automl_gp.individual_length. by rewrite List.filter_app, length_app.
Qed.

Lemma individual_length_terminals (ts : list Terminal) :
  automl_gp.individual_length (Term <$> ts) = 0.
Proof. unfold automl_gp.individual_length. by induction ts. Qed.

(** X6.  [mut_replace_primitive] exchanges one primitive for another of
    the same return type and a different name; the number of primitives
    of the genome stays the same, and its length changes by the difference
    between the numbers of arguments of the two primitives. *)
Theorem mut_replace_primitive_size (str : genome → string)
    (pset : PrimitiveSetTyped) (root : ty) (r : rng) (ind ind' : genome) :
  pset_wf pset → genome_over pset ind → type_consistent root ind →
  mutation.mut_replace_primitive_expr str r ind pset = Ok ind' →
  automl_gp.individual_length ind' = automl_gp.individual_length ind
  ∧ ∃ i p p',
      ind !! i = Some (Prim p) ∧ ind' !! i = Some (Prim p')
      ∧ prim_ret p' = prim_ret p ∧ prim_name p' ≠ prim_name p
      ∧ length ind' + length (prim_args p) = length ind + length (prim_args p').
Proof.
  intros Hwf Hover Hcons Hm.
  destruct (mut_replace_primitive_expr_splice pset Hwf root r ind ind' Hover Hcons Hm)
    as (pre & p & D & H & R & hs & p' & newT
        & -> & -> & Hpre & Hhs & HD & HH & HR & Hp' & Hname & HnewT & _ & HlenH).
  destruct (prim_in_pset pset Hwf _ _ Hp') as [Hret Hnode].
  destruct (prim_of_wf pset Hwf p' Hnode) as (_ & hy' & Hargs' & _).
  assert (Hp : node_of pset (Prim p)).
  { unfold genome_over in Hover. rewrite Forall_forall in Hover.
    apply Hover. set_solver. }
  destruct (prim_of_wf pset Hwf p Hp) as (_ & hy & Hargs & Hhy).
  assert (HoH : genome_over pset H).
  { unfold genome_over in *. apply Forall_app in Hover as [_ Hover].
    apply Forall_cons in Hover as [_ Hover]. apply Forall_app in Hover as [_ Hover].
    by apply Forall_app in Hover as [? _]. }
  rewrite Hargs in HH. simpl in HH.
  destruct (hyper_terminals pset Hwf H hy HoH Hhy HH) as (tsH & -> & HtsH).
  split.
  - rewrite (cons_middle (Prim p')), (cons_middle (Prim p)).
    rewrite !individual_length_app, !individual_length_terminals. done.
  - exists (length pre), p, p'.
    split; [by apply list_lookup_middle|]. split; [by apply list_lookup_middle|].
    split; [done|]. split; [done|].
    apply Forall2_length in HnewT. rewrite Hargs' in HnewT |- *. simpl in HnewT.
    rewrite Hargs in HlenH |- *. simpl in HlenH.
    rewrite !length_app. simpl. rewrite !length_app, !length_fmap.
    rewrite length_fmap in HlenH. lia.
Qed.

Lemma mut_replace_primitive_size_witness :
  automl_gp.individual_length
    [Prim demo.NB; Prim demo.Scaler; Term demo.data; Term demo.mean_True]
  = automl_gp.individual_length demo.pipeline.
Proof.
  refine (proj1 (mut_replace_primitive_size demo.render demo.pset Predictions demo.first demo.pipeline
                   [Prim demo.NB; Prim demo.Scaler; Term demo.data; Term demo.mean_True]
                   _ _ _ _)).
  - apply (bool_decide_unpack _). vm_compute. exact I.
  - apply (bool_decide_unpack _). vm_compute. exact I.
  - apply (bool_decide_unpack _). vm_compute. exact I.
  - vm_compute. reflexivity.
Defined.

(** X7.  [random_valid_mutation] applies [gp.mutShrink] only to a genome
    with more than one primitive and [mut_replace_terminal] only to a
    genome with more than one terminal; [mut_replace_primitive] and
    [gp.mutInsert] are candidates for every genome, so a choice is always
    possible. *)
Theorem random_valid_mutation_choice (str : genome → string)
    (mutInsert : rng → loc → PrimitiveSetTyped → heap → result loc * heap)
    (mutShrink : rng → loc → heap → result loc * heap)
    (r : rng) (ind : loc) (pset : PrimitiveSetTyped) (h : heap) (g : genome) :
  h !! ind = Some g →
  (∀ ind' fn h',
     mutation.random_valid_mutation str mutInsert mutShrink r ind pset h = (Ok (ind', fn), h') →
     (fn = mutation.fn_mutShrink → 1 < automl_gp.individual_length g)
     ∧ (fn = mutation.fn_mut_replace_terminal → 1 < length (List.filter is_Terminal g)))
  ∧ mutation.fn_mut_replace_primitive ∈ mutation.available_mutations g
  ∧ mutation.fn_mutInsert ∈ mutation.available_mutations g
  ∧ ∃ fn, choice (r 0) (mutation.available_mutations g) = Ok fn.
Proof.
  intros Hg. unfold mutation.random_valid_mutation.
  rewrite (lookup_total_correct _ _ _ Hg). split.
  - intros ind' fn h'.
    destruct (choice (r 0) _) as [f|] eqn:Ef; [|done].
    apply choice_elem in Ef. unfold mutation.available_mutations in Ef.
    rewrite !elem_of_app, !elem_of_cons in Ef.
    unfold automl_gp.individual_length.
    destruct (bool_decide (1 < length (List.filter is_Primitive g))) eqn:E1;
      destruct (bool_decide (1 < length (List.filter is_Terminal g))) eqn:E2;
      try apply bool_decide_eq_true_1 in E1; try apply bool_decide_eq_true_1 in E2;
      (destruct f;
       match goal with |- context [let '(_, _) := ?x in _] => destruct x as [[l|] h1] end;
       try done; simpl; intros [= <- <- <-]; (split; [|]); try done; intros _;
       rewrite ?elem_of_cons, ?elem_of_nil in Ef; intuition (discriminate || done)).
  - split; [by left|]. split; [by right; left|].
    by apply choice_nonempty.
Qed.

Lemma random_valid_mutation_choice_witness :
  ∃ fn, choice (demo.first 0) (mutation.available_mutations demo.pipeline) = Ok fn.
Proof.
  destruct (random_valid_mutation_choice demo.render demo.unchanged_insert demo.unchanged_shrink
              demo.first 0 demo.pset demo.store demo.pipeline eq_refl)
    as (_ & _ & _ & fn & Hfn).
  by exists fn.
Defined.

(* ===================================================================== *)
(** ** Further properties of compilation *)
(* ===================================================================== *)

Lemma String_length_app (s1 s2 : string) :
  String.length (s1 +:+ s2) = String.length s1 + String.length s2.
Proof. induction s1 as [|a s1 IH]; simpl; [done|]. by rewrite IH. Qed.

Lemma String_app_assoc (s1 s2 s3 : string) :
  (s1 +:+ s2) +:+ s3 = s1 +:+ s2 +:+ s3.
Proof.
  induction s1 as [|a s1 IH]; [done|].
  change (String a ((s1 +:+ s2) +:+ s3) = String a (s1 +:+ s2 +:+ s3)). by f_equal.
Qed.

Lemma String_app_empty_r (s : string) : s +:+ "" = s.
Proof.
  induction s as [|a s IH]; [done|]. change (String a (s +:+ "") = String a s). by f_equal.
Qed.

Lemma substring_prefix (s1 s2 : string) :
  String.substring 0 (String.length s1) (s1 +:+ s2) = s1.
Proof.
  induction s1 as [|a s1 IH]; simpl.
  - by destruct s2.
  - by rewrite IH.
Qed.

Lemma substring_middle (s1 s2 s3 : string) :
  String.substring (String.length s1) (String.length s2) (s1 +:+ s2 +:+ s3) = s2.
Proof.
  induction s1 as [|a s1 IH]; [apply (substring_prefix s2 s3)|apply IH].
Qed.

Lemma substring_all (s : string) : String.substring 0 (String.length s) s = s.
Proof. induction s as [|a s IH]; simpl; [done|]. by rewrite IH. Qed.

Lemma rfind_from_absent (c : ascii) (i : nat) (s : string) :
  c ∉ list_ascii_of_string s → rfind_from c i s = None.
Proof.
  revert i. induction s as [|a s IH]; intros i; simpl; [done|].
  rewrite not_elem_of_cons. intros [Hne Hs]. rewrite (IH _ Hs).
  destruct (Ascii.eqb_spec a c); congruence.
Qed.

Lemma rfind_from_last (c : ascii) (i : nat) (s1 s2 : string) :
  c ∉ list_ascii_of_string s2 →
  rfind_from c i (s1 +:+ String c s2) = Some (i + String.length s1).
Proof.
  intros Hs2. revert i. induction s1 as [|a s1 IH]; intros i; simpl.
  - rewrite (rfind_from_absent _ _ _ Hs2), Ascii.eqb_refl. f_equal. lia.
  - rewrite IH. f_equal. lia.
Qed.

Lemma str_slice_prefix (n : nat) (s1 s2 : string) :
  n = String.length s1 → str_slice 0 (Z.of_nat n) (s1 +:+ s2) = s1.
Proof.
  intros ->. unfold str_slice, slice_bound. simpl.
  destruct (Z.ltb_spec (Z.of_nat (String.length s1)) 0); [lia|].
  rewrite Nat2Z.id, String_length_app, Nat.sub_0_r.
  rewrite Nat.min_l by lia. apply substring_prefix.
Qed.

(** X8.  [extract_arg_name] recovers the hyperparameter name from the
    names [pset_from_config] gives to terminals: from
    [Operator.hyperparameter=value] it returns [hyperparameter] and from
    [key=value] (a shared hyperparameter) it returns [key], provided the
    value contains no ['='] and the hyperparameter name contains neither
    ['.'] nor ['=']. *)
Theorem extract_arg_name_of_terminal_name (operator hyperparameter value : string) :
  "="%char ∉ list_ascii_of_string value →
  "="%char ∉ list_ascii_of_string hyperparameter →
  "."%char ∉ list_ascii_of_string hyperparameter →
  automl_gp.extract_arg_name (operator +:+ "." +:+ hyperparameter +:+ "=" +:+ value)
  = hyperparameter
  ∧ automl_gp.extract_arg_name (hyperparameter +:+ "=" +:+ value) = hyperparameter.
Proof.
  intros Hv Hh Hd. unfold automl_gp.extract_arg_name.
  assert (Hrf : ∀ c s1 s2, c ∉ list_ascii_of_string s2 →
            rfind c (Z.of_nat (String.length (s1 +:+ String c s2))) (s1 +:+ String c s2)
            = Z.of_nat (String.length s1)).
  { intros c s1 s2 Hc. unfold rfind.
    rewrite <- (String_app_empty_r (s1 +:+ String c s2)) at 2.
    rewrite (str_slice_prefix _ _ _ eq_refl).
    by rewrite (rfind_from_last _ _ _ _ Hc). }
  split.
  - set (front := operator +:+ "." +:+ hyperparameter).
    assert (Hs : operator +:+ "." +:+ hyperparameter +:+ "=" +:+ value
                 = front +:+ String "=" value).
    { unfold front. by rewrite !String_app_assoc. }
    rewrite Hs, (Hrf _ _ _ Hv).
    assert (Hdot : rfind "." (Z.of_nat (String.length front)) (front +:+ String "=" value)
                   = Z.of_nat (String.length operator)).
    { unfold rfind. rewrite (str_slice_prefix _ _ _ eq_refl). unfold front.
      by rewrite (rfind_from_last _ _ _ _ Hd). }
    rewrite Hdot. unfold str_slice, slice_bound.
    destruct (Z.ltb_spec (Z.of_nat (String.length operator) + 1) 0); [lia|].
    destruct (Z.ltb_spec (Z.of_nat (String.length front)) 0); [lia|].
    rewrite Nat2Z.id. rewrite !String_length_app. unfold front.
    rewrite !String_length_app. simpl.
    rewrite !Nat.min_l by lia.
    replace (Z.to_nat (Z.of_nat (String.length operator) + 1))
      with (String.length (operator +:+ ".")) by (rewrite String_length_app; simpl; lia).
    replace (String.length operator + S (String.length hyperparameter)
             - String.length (operator +:+ "."))
      with (String.length hyperparameter) by (rewrite String_length_app; simpl; lia).
    replace ((operator +:+ "." +:+ hyperparameter) +:+ String "=" value)
      with ((operator +:+ ".") +:+ hyperparameter +:+ String "=" value)
      by (by rewrite !String_app_assoc).
    apply substring_middle.
  - change (hyperparameter +:+ "=" +:+ value) with (hyperparameter +:+ String "=" value).
    rewrite (Hrf _ _ _ Hv).
    assert (Hdot : rfind "." (Z.of_nat (String.length hyperparameter))
                     (hyperparameter +:+ String "=" value) = (-1)%Z).
    { unfold rfind. rewrite (str_slice_prefix _ _ _ eq_refl).
      by rewrite (rfind_from_absent _ _ _ Hd). }
    rewrite Hdot. by apply str_slice_prefix.
Qed.

Lemma extract_arg_name_of_terminal_name_witness :
  automl_gp.extract_arg_name ("Tree" +:+ "." +:+ "max_depth" +:+ "=" +:+ "0.5") = "max_depth"
  ∧ automl_gp.extract_arg_name ("max_depth" +:+ "=" +:+ "0.5") = "max_depth".
Proof.
  apply (extract_arg_name_of_terminal_name "Tree" "max_depth" "0.5");
    apply (bool_decide_unpack _); vm_compute; exact I.
Defined.

(** X9.  [expression_to_component] looks at as many leading terminals as
    the primitive has arguments that are not the data: what follows them
    in the list is ignored, and the number of terminals it reports as used
    is the number of keyword arguments, at most the number of those
    arguments. *)
Theorem expression_to_component_ignores_trailing
    (primitive : Primitive) (terminals trailing : list node) (pset : PrimitiveSetTyped)
    (parameter_checks : option automl_gp.checks) :
  let required :=
    List.filter (λ t, negb (String.eqb (__name__ t) "Data")) (prim_args primitive) in
  (length required ≤ length terminals →
   automl_gp.expression_to_component primitive (terminals ++ trailing) pset parameter_checks
   = automl_gp.expression_to_component primitive terminals pset parameter_checks)
  ∧ (∀ c n,
       automl_gp.expression_to_component primitive terminals pset parameter_checks
       = Ok (c, n) →
       n = size (automl_gp.comp_kwargs c) ∧ n ≤ length required).
Proof.
  simpl. split.
  - intros Hlen. unfold automl_gp.expression_to_component.
    rewrite zip_with_app_r.
    rewrite drop_ge by (rewrite length_reverse; lia).
    rewrite take_ge by (rewrite length_reverse; lia).
    simpl. by rewrite app_nil_r.
  - intros c n. unfold automl_gp.expression_to_component.
    set (pairs := zip _ terminals).
    assert (Hb : ∀ acc l kw, automl_gp.build_kwargs pset acc l = Ok kw →
                   size kw ≤ size acc + length l).
    { intros acc l. revert acc. induction l as [|[T el] l IH]; intros acc kw; simpl.
      - intros [= <-]. lia.
      - destruct (context pset !! name el) as [v|]; [|done]. intros Hkw.
        apply IH in Hkw.
        revert Hkw. rewrite map_size_insert.
        destruct (acc !! automl_gp.extract_arg_name (name el)); simpl; lia. }
    destruct (negb (forallb _ pairs)); [done|].
    destruct (automl_gp.build_kwargs pset ∅ pairs) as [kw|] eqn:Ekw; [|done]. simpl.
    destruct (context pset !! prim_name primitive); [|done].
    match goal with |- (if ?b then _ else _) = _ → _ => destruct b end; [done|].
    intros [= <- <-]. simpl. split; [done|].
    apply Hb in Ekw. rewrite map_size_empty in Ekw. unfold pairs in Ekw.
    rewrite length_zip_with, length_reverse in Ekw. lia.
Qed.

Lemma expression_to_component_ignores_trailing_witness :
  automl_gp.expression_to_component demo.Tree
    ([Term demo.depth_1] ++ [Term demo.mean_True; Term demo.data; Prim demo.Scaler])
    demo.pset None
  = automl_gp.expression_to_component demo.Tree [Term demo.depth_1] demo.pset None.
Proof.
  refine (proj1 (expression_to_component_ignores_trailing demo.Tree [Term demo.depth_1]
                   [Term demo.mean_True; Term demo.data; Prim demo.Scaler] demo.pset None) _).
  simpl. lia.
Defined.

Section compile_shape.
Context (pset : PrimitiveSetTyped) (Hwf : pset_wf pset) (Hcwf : compile_wf pset).

(** Without parameter checks, building the operator of a type-consistent
    genome succeeds. *)
Lemma expression_to_component_unchecked (p : Primitive) (hy : list ty) (D : genome)
    (ts : list Terminal) :
  node_of pset (Prim p) → prim_args p = Data :: hy →
  Forall2 (λ t T, t ∈ terminals pset !!! T) ts hy →
  ∃ c, automl_gp.expression_to_component p (reverse (D ++ (Term <$> ts))) pset None
       = Ok (c, length ts).
Proof.
  intros Hp Hargs Hts.
  destruct (expression_to_component_valid pset Hwf Hcwf p hy D ts None Hp Hargs Hts)
    as [?|[m Hm]]; [done|].
  exfalso. revert Hm. unfold automl_gp.expression_to_component.
  destruct (negb (forallb _ _)) eqn:Ef.
  - intros _.
    destruct (expression_to_component_valid pset Hwf Hcwf p hy D ts
                (Some ∅) Hp Hargs Hts) as [[c Hc]|[m' Hm']].
    + revert Hc. unfold automl_gp.expression_to_component. by rewrite Ef.
    + destruct (prim_of_compile_wf pset Hcwf p Hp) as ([cls Hcls] & Hnames & _).
      destruct (prim_of_wf pset Hwf p Hp) as (_ & hy0 & Hargs0 & Hhy).
      rewrite Hargs in Hargs0, Hnames. injection Hargs0 as <-. simpl in Hnames.
      revert Ef. rewrite Hargs, (filter_not_Data hy Hnames).
      rewrite reverse_app, <- fmap_reverse.
      rewrite <- (app_nil_r (reverse hy)).
      rewrite (zip_with_app pair (reverse hy) [] (Term <$> reverse ts) (reverse D))
        by (rewrite length_fmap, !length_reverse; symmetry; by eapply Forall2_length).
      simpl. rewrite app_nil_r. rewrite pairs_match; [done|].
      apply Forall2_reverse. eapply Forall2_impl; [done|].
      intros t T Hin. by apply (term_in_pset pset Hwf).
  - destruct (automl_gp.build_kwargs _ _ _) as [kw|e] eqn:Ek; simpl.
    + by destruct (context pset !! prim_name p).
    + destruct (build_kwargs_raises _ _ _ _ Ek) as [k ->]. done.
Qed.

(** The loop of [compile_individual] on a type-consistent genome: it
    stops with [None] only through a parameter check, and otherwise it
    has added one operator for each primitive, the first of them for the
    primitive at the head of the genome. *)
Lemma compile_loop_shape (fuel : nat) (ind : genome) (root : ty)
    (components : list (string * automl_gp.step)) (name_counter : gmap string nat)
    (parameter_checks : option automl_gp.checks) :
  length ind ≤ fuel → genome_over pset ind → type_consistent root ind →
  (automl_gp.compile_loop fuel ind components name_counter pset parameter_checks = Ok None
   ∧ parameter_checks ≠ None)
  ∨ ∃ ops,
      automl_gp.compile_loop fuel ind components name_counter pset parameter_checks
      = Ok (Some (components ++ ops))
      ∧ length ops = automl_gp.individual_length ind
      ∧ ∀ p rest, ind = Prim p :: rest →
          ∃ c, head ops = Some (prim_name p +:+ pretty (name_counter !!! prim_name p),
                                automl_gp.Operator c)
               ∧ context pset !! prim_name p = Some (automl_gp.comp_class c).
Proof.
  revert ind root components name_counter.
  induction fuel as [|fuel IH]; intros ind root components name_counter Hlen Hover Hcons.
  { destruct ind; [done|]. simpl in Hlen. lia. }
  destruct ind as [|el remainder]; [done|].
  unfold type_consistent in Hcons. simpl in Hcons.
  case_decide as Hr; [|done]. rewrite app_nil_r in Hcons.
  apply Forall_cons in Hover as [Hel Hover].
  destruct el as [p|t]; simpl in Hcons.
  - destruct (prim_of_wf pset Hwf p Hel) as (_ & hy & Hargs & Hhy).
    rewrite Hargs in Hcons.
    apply (pending_split [Data] hy) in Hcons as (D & H & -> & HD & HH).
    apply Forall_app in Hover as [HoD HoH].
    destruct (hyper_terminals pset Hwf H hy HoH Hhy HH) as (ts & -> & Hts).
    assert (Hind' : (if bool_decide (length ts = 0) then D ++ (Term <$> ts)
                     else take (S (length (D ++ (Term <$> ts))) - length ts - 1)
                               (D ++ (Term <$> ts))) = D).
    { case_bool_decide as Hn.
      - destruct ts; [|done]. simpl. by rewrite app_nil_r.
      - apply take_app_length'. rewrite length_app, length_fmap. lia. }
    assert (HlenD : length D ≤ fuel).
    { simpl in Hlen. rewrite length_app in Hlen. lia. }
    assert (Hil : automl_gp.individual_length (Prim p :: D ++ (Term <$> ts))
                  = S (automl_gp.individual_length D)).
    { change (Prim p :: D ++ (Term <$> ts)) with ([Prim p] ++ (D ++ (Term <$> ts))).
      rewrite !individual_length_app, individual_length_terminals.
      unfold automl_gp.individual_length at 1. simpl. lia. }
    assert (Hcases : ∀ c,
      automl_gp.expression_to_component p (reverse (D ++ (Term <$> ts))) pset parameter_checks
      = Ok (c, length ts) →
      context pset !! prim_name p = Some (automl_gp.comp_class c)).
    { intros c. unfold automl_gp.expression_to_component.
      destruct (negb (forallb _ _)); [done|].
      destruct (automl_gp.build_kwargs _ _ _) as [kw|]; [|done]. simpl.
      destruct (context pset !! prim_name p) as [cls|]; [|done].
      match goal with |- (if ?b then _ else _) = _ → _ => destruct b end; [done|].
      by intros [= <- _]. }
    destruct (expression_to_component_valid pset Hwf Hcwf p hy D ts parameter_checks
                Hel Hargs Hts) as [[c Hc]|[m Hm]].
    + cbn [automl_gp.compile_loop]. rewrite Hc. cbn [length]. rewrite Hind'.
      destruct (IH D Data
                  (components ++ [(prim_name p +:+ pretty (name_counter !!! prim_name p),
                                   automl_gp.Operator c)])
                  (<[prim_name p := name_counter !!! prim_name p + 1]> name_counter)
                  HlenD HoD HD) as [[Hnone Hpc]|(ops & Hops & Hlops & _)].
      * by left.
      * right. exists ((prim_name p +:+ pretty (name_counter !!! prim_name p),
                        automl_gp.Operator c) :: ops).
        split; [by rewrite Hops, <- app_assoc|]. split; [simpl; lia|].
        intros p0 rest [= <- _]. exists c. split; [done|]. by apply Hcases.
    + cbn [automl_gp.compile_loop]. rewrite Hm. left. split; [done|].
      intros ->.
      destruct (expression_to_component_unchecked p hy D ts Hel Hargs Hts) as [c Hc].
      congruence.
  - apply pending_nil_inv in Hcons as ->. right. exists []. simpl.
    rewrite app_nil_r. by repeat split.
Qed.

End compile_shape.

(** X10.  On a type-consistent genome [compile_individual] returns the
    sentinel only through a parameter check; otherwise the pipeline has
    the preprocessing steps first, in the order given, then one operator
    for each primitive of the genome, and the operator of the primitive at
    the head of the genome, named by its class name and [0], comes last. *)
Theorem compile_individual_pipeline_shape
    (pset : PrimitiveSetTyped) (root : ty) (expr : genome)
    (parameter_checks : option automl_gp.checks) (preprocessing_steps : list string) :
  pset_wf pset → compile_wf pset → genome_over pset expr → type_consistent root expr →
  (automl_gp.compile_individual expr pset parameter_checks preprocessing_steps = Ok None
   ∧ parameter_checks ≠ None)
  ∨ ∃ operators,
      automl_gp.compile_individual expr pset parameter_checks preprocessing_steps
      = Ok (Some (automl_gp.mkPipeline
                    (((λ cls, (cls, automl_gp.Preprocessing cls)) <$> preprocessing_steps)
                     ++ operators)))
      ∧ length operators = automl_gp.individual_length expr
      ∧ ∀ p rest, expr = Prim p :: rest →
          ∃ c, last operators = Some (prim_name p +:+ "0", automl_gp.Operator c)
               ∧ context pset !! prim_name p = Some (automl_gp.comp_class c).
Proof.
  intros Hwf Hcwf Hover Hcons. unfold automl_gp.compile_individual.
  destruct (compile_loop_shape pset Hwf Hcwf (length expr) expr root [] ∅ parameter_checks)
    as [[-> Hpc]|(ops & -> & Hlen & Hhead)]; [done..|by left|].
  right. exists (reverse ops). simpl.
  split; [|split].
  - rewrite reverse_app, <- fmap_reverse, reverse_involutive. done.
  - by rewrite length_reverse.
  - intros p rest Hexpr. destruct (Hhead p rest Hexpr) as (c & Hc & Hcls).
    exists c. split; [|done]. rewrite last_reverse. by rewrite Hc.
Qed.

Lemma compile_individual_pipeline_shape_witness :
  (automl_gp.compile_individual demo.pipeline demo.pset None ["Imputer"] = Ok None
   ∧ (None : option automl_gp.checks) ≠ None)
  ∨ ∃ operators,
      automl_gp.compile_individual demo.pipeline demo.pset None ["Imputer"]
      = Ok (Some (automl_gp.mkPipeline
                    ([("Imputer", automl_gp.Preprocessing "Imputer")] ++ operators)))
      ∧ length operators = 2
      ∧ ∀ p rest, demo.pipeline = Prim p :: rest →
          ∃ c, last operators = Some (prim_name p +:+ "0", automl_gp.Operator c)
               ∧ context demo.pset !! prim_name p = Some (automl_gp.comp_class c).
Proof.
  apply (compile_individual_pipeline_shape demo.pset Predictions demo.pipeline None
           ["Imputer"]);
    apply (bool_decide_unpack _); vm_compute; exact I.
Defined.

(* ===================================================================== *)
(** ** Elimination: every outcome *)
(* ===================================================================== *)

Lemma keyed_raises (pop : list Individual) :
  Exists (λ x, wvalues (fitness x) = []) pop →
  automl_gp.keyed pop = Raise (IndexError "tuple index out of range").
Proof.
  induction pop as [|x pop IH]; intros Hex; [by apply Exists_nil in Hex|].
  apply Exists_cons in Hex as [Hx|Hex]; simpl; unfold tuple_get.
  - by rewrite Hx.
  - rewrite (IH Hex). by destruct (wvalues (fitness x)).
Qed.

Lemma StronglySorted_drop {A} (R : A → A → Prop) (k : nat) (l : list A) :
  StronglySorted R l → StronglySorted R (drop k l).
Proof.
  intros Hs. rewrite <- (take_drop k l) in Hs.
  by apply StronglySorted_app_1_r in Hs.
Qed.

(** X11.  [eliminate_worst] computes the key of every individual before
    it selects: it raises an [IndexError] when some individual of the
    population has no weighted fitness value, whatever [n] is.  Otherwise it
    returns individuals of the population in ascending order of the first
    weighted value: [min(n, len(pop))] of them for a positive [n], all of
    them for [n = 0], and all but the first [-n] of the ascending order
    for a negative [n]. *)
Theorem eliminate_worst_outcomes (pop : list Individual) (n : Z) :
  (Exists (λ x, wvalues (fitness x) = []) pop →
     ∃ msg, automl_gp.eliminate_worst pop n = Raise (IndexError msg))
  ∧ (Forall (λ x, wvalues (fitness x) ≠ []) pop →
     ∃ removed,
       automl_gp.eliminate_worst pop n = Ok removed
       ∧ removed ⊆+ pop
       ∧ StronglySorted (λ x y, (primary_wvalue x ≤ primary_wvalue y)%Z) removed
       ∧ Z.of_nat (length removed)
         = if (0 <? n)%Z then Z.min n (Z.of_nat (length pop))
           else Z.max 0 (Z.of_nat (length pop) + n)).
Proof.
  split.
  - intros Hex. eexists. unfold automl_gp.eliminate_worst.
    by rewrite (keyed_raises pop Hex).
  - intros Hev.
    set (le := λ x y : Individual, (primary_wvalue x <=? primary_wvalue y)%Z).
    set (ranked := sorted le pop).
    assert (Hperm : ranked ≡ₚ pop) by apply sorted_Permutation.
    assert (Hlen : length ranked = length pop) by by rewrite Hperm.
    assert (Hs : StronglySorted (λ x y, (primary_wvalue x ≤ primary_wvalue y)%Z) ranked).
    { apply (StronglySorted_weaken (λ a b, le a b = true)).
      - intros x y _ _. unfold le. by rewrite Z.leb_le.
      - apply sorted_StronglySorted.
        + intros a b. unfold le.
          destruct (Z.le_ge_cases (primary_wvalue a) (primary_wvalue b));
            [left|right]; by apply Z.leb_le.
        + intros a b c. unfold le. rewrite !Z.leb_le. lia. }
    exists (slice_from (- n) ranked).
    split; [|split; [|split]].
    + unfold automl_gp.eliminate_worst. rewrite (keyed_ok pop Hev). simpl.
      by rewrite (sorted_keyed Z.leb primary_wvalue).
    + unfold slice_from. rewrite <- Hperm.
      destruct (- n <? 0)%Z; apply submseteq_drop.
    + unfold slice_from. destruct (- n <? 0)%Z; by apply StronglySorted_drop.
    + unfold slice_from.
      destruct (Z.ltb_spec (- n) 0), (Z.ltb_spec 0 n); try lia;
        rewrite length_drop, Hlen; lia.
Qed.

Lemma eliminate_worst_outcomes_witness :
  (∃ msg, automl_gp.eliminate_worst [demo.scored 1 2; demo.unevaluated] 1
          = Raise (IndexError msg))
  ∧ ∃ removed,
      automl_gp.eliminate_worst [demo.scored 1 2; demo.scored 1 5; demo.scored 1 3] 2
      = Ok removed
      ∧ Z.of_nat (length removed) = 2%Z.
Proof.
  split.
  - apply (proj1 (eliminate_worst_outcomes [demo.scored 1 2; demo.unevaluated] 1)).
    apply Exists_cons_tl, Exists_cons_hd. reflexivity.
  - destruct (proj2 (eliminate_worst_outcomes
                       [demo.scored 1 2; demo.scored 1 5; demo.scored 1 3] 2))
      as (removed & Hr & _ & _ & Hlen).
    + repeat constructor; discriminate.
    + exists removed. split; [exact Hr|exact Hlen].
Defined.

(* ===================================================================== *)
(** ** The observer: ranking errors, callbacks, resets *)
(* ===================================================================== *)

Lemma best_n_keys_raises (str : Individual → string) (xs : list Individual) :
  Exists (λ x, values (fitness x) = []) xs →
  observer.best_n_keys str xs = Raise (IndexError "tuple index out of range").
Proof.
  induction xs as [|x xs IH]; intros Hex; [by apply Exists_nil in Hex|].
  apply Exists_cons in Hex as [Hx|Hex]; simpl; unfold tuple_get.
  - by rewrite Hx.
  - rewrite (IH Hex). by destruct (values (fitness x)).
Qed.

(** X12.  [best_n] computes the key of every recorded individual before
    it takes the first [n]: it raises (an [IndexError], and nothing else)
    exactly when some recorded individual has no fitness values, whatever
    [n] is, also for [n = 0]. *)
Theorem best_n_raises_on_unevaluated
    (str : Individual → string) (self : observer.Observer) (n : nat) (e : exn) :
  observer.best_n str self n = Raise e
  ↔ e = IndexError "tuple index out of range"
    ∧ Exists (λ x, values (fitness x) = []) (observer._individuals self).
Proof.
  unfold observer.best_n.
  destruct (decide (Forall (λ x, values (fitness x) ≠ []) (observer._individuals self)))
    as [Hev|Hex].
  - rewrite (best_n_keys_ok str _ Hev). simpl. split; [done|].
    intros [_ Hex]. exfalso. revert Hex. by apply Forall_Exists_neg.
  - apply not_Forall_Exists in Hex; [|apply _].
    assert (Hex' : Exists (λ x, values (fitness x) = []) (observer._individuals self)).
    { eapply Exists_impl; [exact Hex|]. simpl. intros x Hx.
      destruct (values (fitness x)); [done|]. by destruct Hx. }
    rewrite (best_n_keys_raises str _ Hex'). simpl. split.
    + by intros [= <-].
    + by intros [-> _].
Qed.

Lemma best_n_raises_on_unevaluated_witness :
  observer.best_n demo.str (demo.recorded [demo.scored 1 2; demo.unevaluated]) 0
  = Raise (IndexError "tuple index out of range").
Proof.
  apply (best_n_raises_on_unevaluated demo.str
           (demo.recorded [demo.scored 1 2; demo.unevaluated]) 0).
  split; [reflexivity|]. apply Exists_cons_tl, Exists_cons_hd. reflexivity.
Defined.

(** The observer after the callbacks [fns] have been registered, one
    after the other. *)
Lemma register_all_callbacks (self : observer.Observer) (fns : list nat) :
  let self' := foldl observer.on_pareto_updated self fns in
  observer._pareto_callbacks self' = observer._pareto_callbacks self ++ fns
  ∧ observer._overall_pareto_front self' = observer._overall_pareto_front self
  ∧ observer._current_pareto_front self' = observer._current_pareto_front self
  ∧ observer._individuals self' = observer._individuals self
  ∧ observer._evaluation_filename self' = observer._evaluation_filename self.
Proof.
  revert self. induction fns as [|fn fns IH]; intros self; simpl.
  - by rewrite app_nil_r.
  - destruct (IH (observer.on_pareto_updated self fn)) as (-> & -> & -> & -> & ->).
    simpl. by rewrite <- app_assoc.
Qed.

(** X13.  The callbacks registered with [on_pareto_updated] are invoked
    by an [update] that succeeds exactly when no individual of the
    overall front dominates the new one: then each is called once with
    the individual, in the order of registration, those registered last
    after the others; when a member of the overall front dominates the
    individual, none is called. *)
Theorem update_notifies_in_registration_order
    (str : Individual → string) (self : observer.Observer) (fns : list nat)
    (ind : Individual) (w : observer.world) :
  2 ≤ length (wvalues (fitness ind)) →
  let registered := foldl observer.on_pareto_updated self fns in
  let dominated :=
    existsb (λ m, observer.dominates (wvalues (fitness m)) (wvalues (fitness ind)))
            (observer._overall_pareto_front self) in
  ∃ self' w',
    observer.update str registered ind w = (self', Ok (), w')
    ∧ observer._pareto_callbacks self' = observer._pareto_callbacks self ++ fns
    ∧ observer.calls w'
      = observer.calls w
        ++ (if dominated then []
            else (λ callback, (callback, ind)) <$> (observer._pareto_callbacks self ++ fns)).
Proof.
  intros Hlen. simpl.
  destruct (register_all_callbacks self fns) as (Hcb & Hov & Hcur & Hind & Hfile).
  simpl in *. unfold observer.update, observer._record_individual. simpl.
  destruct (wvalues (fitness ind)) as [|w0 [|w1 rest]] eqn:Hw; simpl in Hlen; [lia..|].
  simpl. unfold observer.ParetoFront_update. rewrite Hov, Hw.
  destruct (existsb _ (observer._current_pareto_front _));
    destruct (existsb _ (observer._overall_pareto_front self)); simpl;
    do 2 eexists; (split; [done|]); simpl; rewrite ?Hcb, ?app_nil_r; done.
Qed.

Lemma update_notifies_in_registration_order_witness :
  ∃ self' w',
    observer.update demo.str
      (foldl observer.on_pareto_updated (demo.recorded []) [4; 2]) demo.measured
      {| observer.files := ∅; observer.calls := [] |} = (self', Ok (), w')
    ∧ observer.calls w' = [(4, demo.measured); (2, demo.measured)].
Proof.
  destruct (update_notifies_in_registration_order demo.str (demo.recorded []) [4; 2]
              demo.measured {| observer.files := ∅; observer.calls := [] |})
    as (self' & w' & Hu & _ & Hc).
  - vm_compute. lia.
  - exists self', w'. split; [exact Hu|exact Hc].
Defined.

(** X14.  [reset_current_pareto_front] changes nothing but the current
    front and the count of individuals since its last update: an
    [update] after the reset has the outcome it has without the reset,
    leaves the same files and invokes the same callbacks, and leaves the
    same overall front and the same history.  When it succeeds, the
    current front holds the new individual alone and the count is 0. *)
Theorem reset_affects_current_front_only
    (str : Individual → string) (self : observer.Observer) (ind : Individual)
    (w : observer.world) :
  let after := observer.update str self ind w in
  let after_reset := observer.update str (observer.reset_current_pareto_front self) ind w in
  after_reset.1.2 = after.1.2
  ∧ after_reset.2 = after.2
  ∧ observer._overall_pareto_front after_reset.1.1 = observer._overall_pareto_front after.1.1
  ∧ observer._individuals after_reset.1.1 = observer._individuals after.1.1
  ∧ observer._pareto_callbacks after_reset.1.1 = observer._pareto_callbacks after.1.1
  ∧ (after_reset.1.2 = Ok () →
       observer._current_pareto_front after_reset.1.1 = [ind]
       ∧ observer._individuals_since_last_pareto_update after_reset.1.1 = 0).
Proof.
  simpl. unfold observer.update, observer._record_individual. simpl.
  destruct (tuple_get (wvalues (fitness ind)) 0) as [w0|e0]; [|by repeat split].
  destruct (tuple_get (wvalues (fitness ind)) 1) as [w1|e1]; [|by repeat split].
  destruct (observer.ParetoFront_update (observer._current_pareto_front self) ind)
    as [updated current].
  destruct (observer.ParetoFront_update (observer._overall_pareto_front self) ind)
    as [[] overall]; by repeat split.
Qed.

Lemma reset_affects_current_front_only_witness :
  let after_reset :=
    observer.update demo.str
      (observer.reset_current_pareto_front (demo.recorded [demo.measured])) demo.measured
      {| observer.files := ∅; observer.calls := [] |} in
  observer._current_pareto_front after_reset.1.1 = [demo.measured]
  ∧ observer._individuals_since_last_pareto_update after_reset.1.1 = 0.
Proof.
  apply (reset_affects_current_front_only demo.str (demo.recorded [demo.measured])
           demo.measured {| observer.files := ∅; observer.calls := [] |}).
  reflexivity.
Defined.

(* ===================================================================== *)
(** ** The loop: every outcome of [get_next_evaluation_result] *)
(* ===================================================================== *)

(** X15.  [get_next_evaluation_result] raises a [KeyError] for an
    identifier that is not queued and an [IndexError] when there is no
    objective at all.  In every other case it returns the queued individual with the start time and
    the duration of the evaluation set, its genome and weights as they
    were, and fitness values that are [(score,)], [(score, time)],
    [(score, length)] or, for a second objective that is neither [time]
    nor [size], the values it had; objectives behind the second are not
    looked at; in the queue only the entry of the identifier changes. *)
Theorem get_next_evaluation_result_outcomes
    (objectives : list string) (queued_individuals : gmap nat Individual)
    (identifier : nat) (out : async_ea.output) :
  let result :=
    async_ea.get_next_evaluation_result objectives queued_individuals (identifier, out) in
  (queued_individuals !! identifier = None →
     result = Raise (KeyError (pretty identifier)))
  ∧ (∀ individual, queued_individuals !! identifier = Some individual →
       (objectives = [] → ∃ msg, result = Raise (IndexError msg))
       ∧ (objectives ≠ [] →
          ∃ vs,
            result = Ok (evaluated individual out vs,
                         <[identifier := evaluated individual out vs]> queued_individuals)
            ∧ vs ∈ [[async_ea.score out];
                    [async_ea.score out; async_ea.evaluation_time out];
                    [async_ea.score out; async_ea.length out];
                    values (fitness individual)]
            ∧ (∀ o1 o2 rest, objectives = o1 :: o2 :: rest →
                 o2 ≠ "time" → o2 ≠ "size" → vs = values (fitness individual))
            ∧ (∀ o1 o2 rest,
                 async_ea.get_next_evaluation_result (o1 :: o2 :: rest) queued_individuals
                   (identifier, out)
                 = async_ea.get_next_evaluation_result [o1; o2] queued_individuals
                     (identifier, out)))).
Proof.
  simpl. unfold async_ea.get_next_evaluation_result. split.
  - by intros ->.
  - intros individual ->. split.
    + intros ->. simpl. by eexists.
    + intros Hne. destruct objectives as [|o1 [|o2 rest]]; [done| |].
      * exists [async_ea.score out]. simpl.
        split; [done|]. split; [set_solver|]. split; [by intros ? ? ? [=]|done].
      * simpl.
        destruct (String.eqb_spec o2 "time") as [->|Ht]; simpl;
          [|destruct (String.eqb_spec o2 "size") as [->|Hs]; simpl].
        -- exists [async_ea.score out; async_ea.evaluation_time out].
           split; [done|]. split; [set_solver|]. split; [|done].
           by intros ? ? ? [= _ <- _] ?.
        -- exists [async_ea.score out; async_ea.length out].
           split; [done|]. split; [set_solver|]. split; [|done].
           by intros ? ? ? [= _ <- _] ? ?.
        -- exists (values (fitness individual)).
           split; [by destruct individual as [? []]|]. split; [set_solver|]. done.
Qed.

Lemma get_next_evaluation_result_outcomes_witness :
  async_ea.get_next_evaluation_result ["neg_log_loss"; "size"] demo.queued (8, demo.out)
  = Raise (KeyError "8")
  ∧ ∃ msg, async_ea.get_next_evaluation_result [] demo.queued (7, demo.out)
           = Raise (IndexError msg).
Proof.
  split.
  - apply (proj1 (get_next_evaluation_result_outcomes ["neg_log_loss"; "size"]
                    demo.queued 8 demo.out)).
    reflexivity.
  - apply (proj1 (proj2 (get_next_evaluation_result_outcomes [] demo.queued 7 demo.out)
                    demo.unevaluated eq_refl)).
    reflexivity.
Defined.

Lemma update_raises_on_short_wvalues
    (str : Individual → string) (self : observer.Observer) (ind : Individual)
    (w : observer.world) :
  length (wvalues (fitness ind)) < 2 →
  ∃ self' w' msg,
    observer.update str self ind w = (self', Raise (IndexError msg), w')
    ∧ observer._individuals self' = observer._individuals self ++ [ind]
    ∧ observer.files w' !!! observer._evaluation_filename self
      = observer.files w !!! observer._evaluation_filename self
    ∧ observer.calls w' = observer.calls w.
Proof.
  intros Hlen. unfold observer.update, observer._record_individual. simpl.
  destruct (wvalues (fitness ind)) as [|w0 [|w1 rest]]; simpl in *; [| |lia];
    do 3 eexists; (split; [done|]); simpl; by rewrite lookup_total_insert_eq.
Qed.

Lemma update_succeeds
    (str : Individual → string) (self : observer.Observer) (ind : Individual)
    (w : observer.world) :
  2 ≤ length (wvalues (fitness ind)) →
  ∃ self' w', observer.update str self ind w = (self', Ok (), w').
Proof.
  intros Hlen. unfold observer.update, observer._record_individual. simpl.
  destruct (wvalues (fitness ind)) as [|w0 [|w1 rest]]; simpl in *; [lia..|].
  destruct (observer.ParetoFront_update (observer._current_pareto_front self) ind).
  destruct (observer.ParetoFront_update (observer._overall_pareto_front self) ind).
  by do 2 eexists.
Qed.

(** X16.  The loop and the observer together.  The individual that
    [get_next_evaluation_result] returns for a single objective has one
    fitness value, and [Observer.update] raises an [IndexError] for it:
    it joins the history, but no line is written for it and no callback
    is invoked.  For two objectives the second of which is [time] or
    [size], and a fitness of two weights or more, [update] succeeds on
    the individual returned. *)
Theorem single_objective_is_not_recorded
    (str : Individual → string) (self : observer.Observer) (w : observer.world)
    (queued_individuals : gmap nat Individual)
    (identifier : nat) (out : async_ea.output) (individual : Individual) :
  queued_individuals !! identifier = Some individual →
  (∀ o, ∃ ind' queued',
      async_ea.get_next_evaluation_result [o] queued_individuals (identifier, out)
      = Ok (ind', queued')
      ∧ ∃ self' w' msg,
          observer.update str self ind' w = (self', Raise (IndexError msg), w')
          ∧ observer._individuals self' = observer._individuals self ++ [ind']
          ∧ observer.files w' !!! observer._evaluation_filename self
            = observer.files w !!! observer._evaluation_filename self
          ∧ observer.calls w' = observer.calls w)
  ∧ (∀ o o2, o2 = "time" ∨ o2 = "size" → 2 ≤ length (weights (fitness individual)) →
       ∃ ind' queued' self' w',
         async_ea.get_next_evaluation_result [o; o2] queued_individuals (identifier, out)
         = Ok (ind', queued')
         ∧ observer.update str self ind' w = (self', Ok (), w')).
Proof.
  intros Hq. unfold async_ea.get_next_evaluation_result. rewrite Hq. split.
  - intros o. do 2 eexists. split; [done|].
    apply update_raises_on_short_wvalues. unfold wvalues. simpl.
    destruct (weights (fitness individual)); simpl; lia.
  - intros o o2 Ho2 Hw.
    assert (Hlen : ∀ a b, 2 ≤ length (zip_with Z.mul [a; b] (weights (fitness individual)))).
    { intros a b. destruct (weights (fitness individual)) as [|? [|? ?]]; simpl in *; lia. }
    destruct Ho2 as [-> | ->]; simpl.
    + edestruct (update_succeeds str self) as (self' & w' & Hu); [|by eauto 10].
      unfold wvalues. simpl. apply Hlen.
    + edestruct (update_succeeds str self) as (self' & w' & Hu); [|by eauto 10].
      unfold wvalues. simpl. apply Hlen.
Qed.

Lemma single_objective_is_not_recorded_witness :
  ∃ ind' queued',
    async_ea.get_next_evaluation_result ["neg_log_loss"] demo.queued (7, demo.out)
    = Ok (ind', queued')
    ∧ ∃ self' w' msg,
        observer.update demo.str (demo.recorded []) ind'
          {| observer.files := ∅; observer.calls := [] |}
        = (self', Raise (IndexError msg), w')
        ∧ observer._individuals self' = [ind'].
Proof.
  destruct (proj1 (single_objective_is_not_recorded demo.str (demo.recorded [])
                     {| observer.files := ∅; observer.calls := [] |}
                     demo.queued 7 demo.out demo.unevaluated eq_refl) "neg_log_loss")
    as (ind' & queued' & Hg & self' & w' & msg & Hu & Hi & _).
  exists ind', queued'. split; [exact Hg|].
  exists self', w', msg. split; [exact Hu|exact Hi].
Defined.

(* ===================================================================== *)
(** ** The loop: queueing individuals *)
(* ===================================================================== *)

Section queueing.
Context (str : Individual → string)
        (toolbox_compile : Individual → result (option automl_gp.Pipeline))
        {Dispatcher : Type}
        (queue_evaluation : automl_gp.Pipeline → Dispatcher → nat * Dispatcher).

(** What one call of [queue_individual_for_evaluation] does to the
    queue. *)
Lemma queue_individual_for_evaluation_step (individual : Individual)
    (q q' : async_ea.queue) (r : result bool) :
  async_ea.queue_individual_for_evaluation str toolbox_compile queue_evaluation
    individual q = (r, q') →
  async_ea.queued_individuals_str q'
  = (async_ea.queued_individuals_str q ∪ {[ str individual ]})
  ∧ (∀ identifier ind,
       async_ea.queued_individuals q' !! identifier = Some ind →
       async_ea.queued_individuals q !! identifier = Some ind
       ∨ (ind = individual
          ∧ r = Ok true
          ∧ (str individual ∉ async_ea.queued_individuals_str q)
          ∧ ∃ pl, toolbox_compile individual = Ok (Some pl)))
  ∧ (r ≠ Ok true → async_ea.queued_individuals q' = async_ea.queued_individuals q).
Proof.
  unfold async_ea.queue_individual_for_evaluation.
  case_bool_decide as Hseen.
  - destruct (toolbox_compile individual) as [[pl|]|e] eqn:Ec.
    + destruct (queue_evaluation pl _) as [identifier d] eqn:Eq.
      intros [= <- <-]. simpl. split; [done|]. split; [|done].
      intros i ind. destruct (decide (i = identifier)) as [->|Hne].
      * rewrite lookup_insert_eq. intros [= <-]. right. eauto.
      * rewrite lookup_insert_ne by done. by left.
    + intros [= <- <-]. simpl. split; [done|]. split; [by left|done].
    + intros [= <- <-]. simpl. split; [done|]. split; [by left|done].
  - intros [= <- <-]. split; [|split; [by left|done]].
    symmetry. rewrite (comm_L (∪)). apply subseteq_union_1_L.
    by apply singleton_subseteq_l.
Qed.

End queueing.

(** X17.  An individual is offered for evaluation at most once.  After
    [queue_individual_for_evaluation] has been called with an individual,
    whatever came of it (it was queued, it did not compile, or the
    compilation raised), a call with an individual of the same canonical
    string returns [False] and changes nothing: it is not compiled and
    not queued. *)
Theorem queue_individual_at_most_once
    (str : Individual → string)
    (toolbox_compile : Individual → result (option automl_gp.Pipeline))
    {Dispatcher : Type}
    (queue_evaluation : automl_gp.Pipeline → Dispatcher → nat * Dispatcher)
    (individual again : Individual) (q : async_ea.queue) :
  str again = str individual →
  let q1 :=
    (async_ea.queue_individual_for_evaluation str toolbox_compile queue_evaluation
       individual q).2 in
  async_ea.queue_individual_for_evaluation str toolbox_compile queue_evaluation again q1
  = (Ok false, q1).
Proof.
  intros Hstr. simpl.
  destruct (async_ea.queue_individual_for_evaluation str toolbox_compile queue_evaluation
              individual q) as [r q1] eqn:E1.
  destruct (queue_individual_for_evaluation_step _ _ _ _ _ _ _ E1) as (Hset & _).
  simpl. unfold async_ea.queue_individual_for_evaluation at 1.
  rewrite bool_decide_eq_false_2; [done|].
  rewrite Hset, Hstr. intros Hn. apply Hn, elem_of_union_r. by apply elem_of_singleton.
Qed.

Lemma queue_individual_at_most_once_witness :
  let q1 :=
    (async_ea.queue_individual_for_evaluation demo.str (λ ind, demo.compile (expr ind))
       demo.queue_evaluation demo.incomplete demo.queue0).2 in
  async_ea.queue_individual_for_evaluation demo.str (λ ind, demo.compile (expr ind))
    demo.queue_evaluation demo.incomplete q1
  = (Ok false, q1).
Proof.
  apply (queue_individual_at_most_once demo.str (λ ind, demo.compile (expr ind))
           demo.queue_evaluation demo.incomplete demo.incomplete demo.queue0).
  reflexivity.
Defined.

(** X18.  Queueing the start population.  When the loop over the start
    population finishes, the canonical string of every individual of the
    population has been noted, and the queue has gained only individuals
    of the population that compile and whose string had not been noted
    before: an individual that does not compile, or that was seen
    before, is never queued.  An individual that is queued is noted:
    this holds of the queue afterwards when it held before. *)
Theorem queue_population_queues_new_compilable
    (str : Individual → string)
    (toolbox_compile : Individual → result (option automl_gp.Pipeline))
    {Dispatcher : Type}
    (queue_evaluation : automl_gp.Pipeline → Dispatcher → nat * Dispatcher)
    (start_population : list Individual) (q q' : async_ea.queue) (r : result unit) :
  async_ea.queue_population str toolbox_compile queue_evaluation start_population q
  = (r, q') →
  (r = Ok () →
     async_ea.queued_individuals_str q'
     = (async_ea.queued_individuals_str q ∪ list_to_set (str <$> start_population)))
  ∧ (∀ identifier ind,
       async_ea.queued_individuals q' !! identifier = Some ind →
       async_ea.queued_individuals q !! identifier = Some ind
       ∨ (ind ∈ start_population
          ∧ (str ind ∉ async_ea.queued_individuals_str q)
          ∧ ∃ pl, toolbox_compile ind = Ok (Some pl)))
  ∧ ((∀ identifier ind,
        async_ea.queued_individuals q !! identifier = Some ind →
        str ind ∈ async_ea.queued_individuals_str q) →
     ∀ identifier ind,
       async_ea.queued_individuals q' !! identifier = Some ind →
       str ind ∈ async_ea.queued_individuals_str q').
Proof.
  revert q. induction start_population as [|individual rest IH]; intros q; simpl.
  - intros [= <- <-]. split; [intros _; by rewrite union_empty_r_L|].
    split; [by left|done].
  - destruct (async_ea.queue_individual_for_evaluation str toolbox_compile
                queue_evaluation individual q) as [r1 q1] eqn:E1.
    destruct (queue_individual_for_evaluation_step _ _ _ _ _ _ _ E1)
      as (Hset & Hnew & _).
    assert (Hinv1 : (∀ identifier ind,
                       async_ea.queued_individuals q !! identifier = Some ind →
                       str ind ∈ async_ea.queued_individuals_str q) →
                    ∀ identifier ind,
                      async_ea.queued_individuals q1 !! identifier = Some ind →
                      str ind ∈ async_ea.queued_individuals_str q1).
    { intros Hinv i ind Hi. rewrite Hset.
      destruct (Hnew i ind Hi) as [Hold|(-> & _)].
      - apply elem_of_union_l. by eapply Hinv.
      - apply elem_of_union_r. by apply elem_of_singleton. }
    assert (Hfirst : ∀ i ind,
              async_ea.queued_individuals q1 !! i = Some ind →
              async_ea.queued_individuals q !! i = Some ind
              ∨ (ind ∈ individual :: rest
                 ∧ (str ind ∉ async_ea.queued_individuals_str q)
                 ∧ ∃ pl, toolbox_compile ind = Ok (Some pl))).
    { intros i ind Hi. destruct (Hnew i ind Hi) as [?|(-> & _ & ? & ?)]; [by left|right].
      split; [by left|done]. }
    destruct r1 as [b|e].
    + intros Hrest. destruct (IH q1 Hrest) as (Hset' & Hnew' & Hinv').
      split; [|split].
      * intros Hr. by rewrite (Hset' Hr), Hset, (assoc_L (∪)).
      * intros i ind Hi. destruct (Hnew' i ind Hi) as [Hold|(Hin & Hseen & Hpl)].
        -- by apply Hfirst.
        -- right. split; [by right|]. split; [|done].
           intros Hq. apply Hseen. rewrite Hset. by apply elem_of_union_l.
      * intros Hinv. by apply Hinv', Hinv1.
    + intros [= <- <-]. split; [done|]. split; [exact Hfirst|done].
Qed.

Lemma queue_population_queues_new_compilable_witness :
  ∃ q',
    async_ea.queue_population demo.str (λ ind, demo.compile (expr ind))
      demo.queue_evaluation [demo.incomplete; demo.unevaluated; demo.unevaluated]
      demo.queue0 = (Ok (), q')
    ∧ async_ea.queued_individuals_str q'
      = (∅ ∪ list_to_set (demo.str <$> [demo.incomplete; demo.unevaluated; demo.unevaluated]))
    ∧ async_ea.queued_individuals q' = {[ 0 := demo.unevaluated ]}.
Proof.
  eexists. split; [reflexivity|]. split; [|reflexivity].
  refine (proj1 (queue_population_queues_new_compilable demo.str
                   (λ ind, demo.compile (expr ind)) demo.queue_evaluation
                   [demo.incomplete; demo.unevaluated; demo.unevaluated]
                   demo.queue0 _ (Ok ()) _) eq_refl).
  reflexivity.
Defined.

(* ===================================================================== *)
(** ** Generating individuals *)
(* ===================================================================== *)

Lemma compile_individual_unchecked (pset : PrimitiveSetTyped) (root : ty) (expr : genome)
    (preprocessing_steps : list string) :
  pset_wf pset → compile_wf pset → genome_over pset expr → type_consistent root expr →
  ∃ pl, automl_gp.compile_individual expr pset None preprocessing_steps = Ok (Some pl).
Proof.
  intros Hwf Hcwf Hover Hcons. unfold automl_gp.compile_individual.
  destruct (compile_loop_shape pset Hwf Hcwf (length expr) expr root [] ∅ None)
    as [[_ Hpc]|(ops & -> & _)]; [done..|]. by eexists.
Qed.

Section generating.
Context (gen_grow_safe : PrimitiveSetTyped → Z → Z → rng → result genome * rng)
        (pset : PrimitiveSetTyped) (min_ max_ : Z)
        (toolbox_compile : genome → result (option automl_gp.Pipeline)).

Lemma generate_valid_loop_compiles (attempts : nat) (r r' : rng) (ind : genome) :
  automl_gp.generate_valid_loop gen_grow_safe attempts pset min_ max_ toolbox_compile r
  = (Ok ind, r') →
  ∃ pl, toolbox_compile ind = Ok (Some pl).
Proof.
  revert r. induction attempts as [|attempts IH]; intros r; simpl; [done|].
  destruct (gen_grow_safe pset min_ max_ r) as [[g|e] r1]; [|done].
  destruct (toolbox_compile g) as [[pl|]|e] eqn:Ec; [|apply IH|done].
  intros [= <- _]. eauto.
Qed.

Lemma generate_valid_loop_gives_up (attempts : nat) (r r' : rng) :
  rejected gen_grow_safe pset min_ max_ toolbox_compile attempts r = Some r' →
  automl_gp.generate_valid_loop gen_grow_safe attempts pset min_ max_ toolbox_compile r
  = (Raise (Exception ""), r').
Proof.
  revert r. induction attempts as [|attempts IH]; intros r; simpl; [by intros [= ->]|].
  destruct (gen_grow_safe pset min_ max_ r) as [[g|e] r1]; [|done].
  destruct (toolbox_compile g) as [[pl|]|e]; [done|apply IH|done].
Qed.

Lemma generate_valid_loop_first_compilable (attempts k : nat) (r r1 r2 : rng)
    (ind : genome) (pl : automl_gp.Pipeline) :
  rejected gen_grow_safe pset min_ max_ toolbox_compile k r = Some r1 →
  gen_grow_safe pset min_ max_ r1 = (Ok ind, r2) →
  toolbox_compile ind = Ok (Some pl) →
  automl_gp.generate_valid_loop gen_grow_safe (k + S attempts) pset min_ max_
    toolbox_compile r
  = (Ok ind, r2).
Proof.
  intros Hk Hg Hc. revert r Hk. induction k as [|k IH]; intros r; simpl.
  - intros [= ->]. by rewrite Hg, Hc.
  - destruct (gen_grow_safe pset min_ max_ r) as [[g|e] r0]; [|done].
    destruct (toolbox_compile g) as [[pl'|]|e]; [done|apply IH|done].
Qed.

End generating.

(** X19.  What [generate_valid] returns compiles: [toolbox.compile] gives
    a pipeline for it, not [None].  It returns the first candidate that
    compiles when that is among the first 50 that [gen_grow_safe] grows,
    also when it is the 50th; when the first 50 candidates all compile to
    [None], it gives up and raises an [Exception], and a 51st candidate is
    not grown. *)
Theorem generate_valid_returns_compilable
    (gen_grow_safe : PrimitiveSetTyped → Z → Z → rng → result genome * rng)
    (pset : PrimitiveSetTyped) (min_ max_ : Z)
    (toolbox_compile : genome → result (option automl_gp.Pipeline)) (r : rng) :
  (∀ ind r',
     automl_gp.generate_valid gen_grow_safe pset min_ max_ toolbox_compile r = (Ok ind, r') →
     ∃ pl, toolbox_compile ind = Ok (Some pl))
  ∧ (∀ k r1 ind r2 pl,
       k < 50 →
       rejected gen_grow_safe pset min_ max_ toolbox_compile k r = Some r1 →
       gen_grow_safe pset min_ max_ r1 = (Ok ind, r2) →
       toolbox_compile ind = Ok (Some pl) →
       automl_gp.generate_valid gen_grow_safe pset min_ max_ toolbox_compile r
       = (Ok ind, r2))
  ∧ (∀ r50,
       rejected gen_grow_safe pset min_ max_ toolbox_compile 50 r = Some r50 →
       automl_gp.generate_valid gen_grow_safe pset min_ max_ toolbox_compile r
       = (Raise (Exception ""), r50)).
Proof.
  split; [|split].
  - intros ind r'. apply generate_valid_loop_compiles.
  - intros k r1 ind r2 pl Hk Hrej Hg Hc. unfold automl_gp.generate_valid.
    replace 50 with (k + S (49 - k)) by lia.
    by eapply generate_valid_loop_first_compilable.
  - intros r50. apply generate_valid_loop_gives_up.
Qed.

Lemma generate_valid_returns_compilable_witness :
  (∃ r', automl_gp.generate_valid demo.grow_by_draw demo.pset 1 3 demo.compile
           demo.zero_49_times = (Ok demo.pipeline, r'))
  ∧ ∃ r', automl_gp.generate_valid demo.grow_by_draw demo.pset 1 3 demo.compile demo.first
          = (Raise (Exception ""), r').
Proof.
  split.
  - eexists.
    eapply (proj1 (proj2 (generate_valid_returns_compilable demo.grow_by_draw demo.pset 1 3
                            demo.compile demo.zero_49_times)) 49).
    + lia.
    + reflexivity.
    + reflexivity.
    + reflexivity.
  - eexists.
    apply (proj2 (proj2 (generate_valid_returns_compilable demo.grow_by_draw demo.pset 1 3
                           demo.compile demo.first))).
    reflexivity.
Defined.

(** X20.  Generation and compilation together.  When [gen_grow_safe]
    grows type-consistent genomes over the primitive set and
    [toolbox.compile] is [compile_individual] without parameter checks,
    [generate_valid] returns the first genome grown: no candidate is
    thrown away, and the [Exception] is not raised. *)
Theorem generate_valid_keeps_first_candidate
    (gen_grow_safe : PrimitiveSetTyped → Z → Z → rng → result genome * rng)
    (pset : PrimitiveSetTyped) (root : ty) (min_ max_ : Z)
    (preprocessing_steps : list string) (r : rng) :
  pset_wf pset → compile_wf pset →
  (∀ r, ∃ g r', gen_grow_safe pset min_ max_ r = (Ok g, r')
                ∧ genome_over pset g ∧ type_consistent root g) →
  automl_gp.generate_valid gen_grow_safe pset min_ max_
    (λ ind, automl_gp.compile_individual ind pset None preprocessing_steps) r
  = gen_grow_safe pset min_ max_ r.
Proof.
  intros Hwf Hcwf Hgrow. unfold automl_gp.generate_valid. simpl.
  destruct (Hgrow r) as (g & r' & -> & Hover & Hcons).
  destruct (compile_individual_unchecked pset root g preprocessing_steps
              Hwf Hcwf Hover Hcons) as [pl ->].
  done.
Qed.

Lemma generate_valid_keeps_first_candidate_witness :
  automl_gp.generate_valid demo.grow demo.pset 1 3 demo.compile demo.first
  = (Ok demo.pipeline, shift 1 demo.first).
Proof.
  apply (generate_valid_keeps_first_candidate demo.grow demo.pset Predictions 1 3 []
           demo.first).
  - apply (bool_decide_unpack _). vm_compute. exact I.
  - apply (bool_decide_unpack _). vm_compute. exact I.
  - intros r. exists demo.pipeline, (shift 1 r). split; [reflexivity|].
    split; apply (bool_decide_unpack _); vm_compute; exact I.
Defined.

(* ===================================================================== *)
(** ** Offspring *)
(* ===================================================================== *)

Lemma choice_two_distinct (draw1 draw2 n : nat) (i1 i2 : nat) :
  automl_gp.choice_two draw1 draw2 n = Ok (i1, i2) →
  i1 < n ∧ i2 < n ∧ i1 ≠ i2.
Proof.
  unfold automl_gp.choice_two. destruct n as [|[|n]]; [done..|].
  intros [= <- <-].
  pose proof (Nat.mod_upper_bound draw1 (S (S n)) ltac:(lia)).
  pose proof (Nat.mod_upper_bound draw2 (S (S n) - 1) ltac:(lia)).
  case_bool_decide; lia.
Qed.

Section offspring.
Context (random : nat → Q)
        (mate : Individual → Individual → rng → result (Individual * Individual) * rng)
        (mutate : Individual → rng → result Individual * rng).

Lemma offspring_loop_length (turns : nat) (pop : list Individual) (cxpb mutpb : Q)
    (acc offspring : list Individual) (r r' : rng) :
  automl_gp.offspring_loop random mate mutate turns pop cxpb mutpb acc r
  = (Ok offspring, r') →
  length offspring = length acc + turns.
Proof.
  revert acc r. induction turns as [|turns IH]; intros acc r; simpl.
  - intros [= <- _]. lia.
  - destruct (automl_gp.choice_two _ _ _) as [[i1 i2]|e]; [|done].
    destruct (automl_gp.list_get pop i1) as [ind1|e]; [|done].
    destruct (automl_gp.list_get pop i2) as [ind2|e]; [|done].
    destruct (negb (Qle_bool cxpb _)).
    + destruct (mate ind1 ind2 _) as [[[c1 c2]|e] r1]; [|done].
      intros Hl. apply IH in Hl. rewrite length_app in Hl. simpl in Hl. lia.
    + destruct (negb (Qle_bool mutpb _)).
      * destruct (mutate ind1 _) as [[c1|e] r1]; [|done].
        intros Hl. apply IH in Hl. rewrite length_app in Hl. simpl in Hl. lia.
      * intros Hl. apply IH in Hl. rewrite length_app in Hl. simpl in Hl. lia.
Qed.

Lemma offspring_loop_clones (turns : nat) (pop : list Individual) (cxpb mutpb : Q)
    (acc : list Individual) (r : rng) :
  (∀ d, 0 <= random d)%Q → (cxpb <= 0)%Q → (mutpb <= 0)%Q → 2 ≤ length pop →
  Forall (λ x, x ∈ pop) acc →
  ∃ offspring r',
    automl_gp.offspring_loop random mate mutate turns pop cxpb mutpb acc r
    = (Ok offspring, r')
    ∧ Forall (λ x, x ∈ pop) offspring.
Proof.
  intros Hrandom Hcx Hmut Hpop. revert acc r.
  induction turns as [|turns IH]; intros acc r Hacc; simpl; [eauto|].
  destruct (automl_gp.choice_two (r 0) (r 1) (length pop)) as [[i1 i2]|e] eqn:Ec.
  2: { unfold automl_gp.choice_two in Ec. by destruct (length pop) as [|[|n]]; [lia..|]. }
  destruct (choice_two_distinct _ _ _ _ _ Ec) as (H1 & H2 & _).
  unfold automl_gp.list_get.
  destruct (lookup_lt_is_Some_2 pop i1 H1) as [ind1 E1].
  destruct (lookup_lt_is_Some_2 pop i2 H2) as [ind2 E2].
  rewrite E1, E2.
  assert (Hle : ∀ p d, (p <= 0)%Q → Qle_bool p (random d) = true).
  { intros p d Hp. apply Qle_bool_iff. by apply (Qle_trans _ 0). }
  rewrite (Hle cxpb), (Hle mutpb) by done. simpl.
  apply IH. apply Forall_app. split; [done|].
  apply Forall_singleton. by eapply list_elem_of_lookup_2.
Qed.

End offspring.

(** X21.  [offspring_mate_or_mutate] returns [n] offspring when it
    returns, and the empty list for [n <= 0], whatever the population is.
    For a positive [n] and a population of fewer than two individuals it
    raises a [ValueError]: two different parents cannot be drawn.  With
    probabilities of crossover and mutation that are not positive, and
    two individuals or more, neither [toolbox.mate] nor
    [toolbox.mutate] is used: every one of the offspring is (a clone of)
    an individual of the population. *)
Theorem offspring_mate_or_mutate_outcomes
    (random : nat → Q)
    (mate : Individual → Individual → rng → result (Individual * Individual) * rng)
    (mutate : Individual → rng → result Individual * rng)
    (pop : list Individual) (n : Z) (cxpb mutpb : Q) (r : rng) :
  let result := automl_gp.offspring_mate_or_mutate random mate mutate pop n cxpb mutpb r in
  (∀ offspring r', result = (Ok offspring, r') → length offspring = Z.to_nat n)
  ∧ ((n ≤ 0)%Z → result = (Ok [], r))
  ∧ ((0 < n)%Z → length pop < 2 → ∃ msg, result = (Raise (ValueError msg), r))
  ∧ ((∀ d, 0 <= random d)%Q → (cxpb <= 0)%Q → (mutpb <= 0)%Q → 2 ≤ length pop →
     ∃ offspring r', result = (Ok offspring, r') ∧ Forall (λ x, x ∈ pop) offspring).
Proof.
  simpl. unfold automl_gp.offspring_mate_or_mutate. split; [|split; [|split]].
  - intros offspring r' Hl. by apply offspring_loop_length in Hl.
  - intros Hn. by replace (Z.to_nat n) with 0 by lia.
  - intros Hn Hpop. destruct (Z.to_nat n) as [|turns] eqn:En; [lia|]. simpl.
    destruct (length pop) as [|[|k]]; [by eexists..|lia].
  - intros Hrandom Hcx Hmut Hpop. by apply offspring_loop_clones.
Qed.

Lemma offspring_mate_or_mutate_outcomes_witness :
  (∃ msg, automl_gp.offspring_mate_or_mutate demo.random demo.mate demo.mutate
            [demo.measured] 3 (1 # 2) (1 # 2) demo.first
          = (Raise (ValueError msg), demo.first))
  ∧ ∃ offspring r',
      automl_gp.offspring_mate_or_mutate demo.random demo.mate demo.mutate
        [demo.measured; demo.unevaluated] 3 0 0 demo.first
      = (Ok offspring, r')
      ∧ Forall (λ x, x ∈ [demo.measured; demo.unevaluated]) offspring.
Proof.
  split.
  - apply (proj1 (proj2 (proj2 (offspring_mate_or_mutate_outcomes demo.random demo.mate
                                  demo.mutate [demo.measured] 3 (1 # 2) (1 # 2)
                                  demo.first)))).
    + reflexivity.
    + simpl. lia.
  - apply (proj2 (proj2 (proj2 (offspring_mate_or_mutate_outcomes demo.random demo.mate
                                  demo.mutate [demo.measured; demo.unevaluated] 3 0 0
                                  demo.first)))).
    + intros d. unfold demo.random, Qle. simpl. lia.
    + discriminate.
    + discriminate.
    + simpl. lia.
Defined.

(* ===================================================================== *)
(** ** Mutation and compilation together *)
(* ===================================================================== *)

Lemma mutant_terminal_size {str : genome → string} (r : rng) (ind ind' : genome) (pset : PrimitiveSetTyped) :
  mutation.mut_replace_terminal_expr str r ind pset = Ok ind' →
  automl_gp.individual_length ind' = automl_gp.individual_length ind.
Proof.
  intros Hm.
  apply mut_replace_terminal_expr_inv in Hm as (i & t & t' & Hi & -> & _).
  by eapply individual_length_insert_terminal.
Qed.

Lemma mutant_primitive_size {str : genome → string} (pset : PrimitiveSetTyped) (root : ty) (r : rng)
    (ind ind' : genome) :
  pset_wf pset → genome_over pset ind → type_consistent root ind →
  mutation.mut_replace_primitive_expr str r ind pset = Ok ind' →
  automl_gp.individual_length ind' = automl_gp.individual_length ind.
Proof.
  intros Hwf Hover Hcons Hm.
  destruct (mut_replace_primitive_expr_splice pset Hwf root r ind ind' Hover Hcons Hm)
    as (pre & p & D & H & R & hs & p' & newT
        & -> & -> & _ & _ & _ & HH & _).
  assert (Hp : node_of pset (Prim p)).
  { unfold genome_over in Hover. apply Forall_app in Hover as [_ Hover].
    by apply Forall_cons in Hover as [? _]. }
  destruct (prim_of_wf pset Hwf p Hp) as (_ & hy & Hargs & Hhy).
  assert (HoH : genome_over pset H).
  { unfold genome_over in *. apply Forall_app in Hover as [_ Hover].
    apply Forall_cons in Hover as [_ Hover]. apply Forall_app in Hover as [_ Hover].
    by apply Forall_app in Hover as [? _]. }
  rewrite Hargs in HH. simpl in HH.
  destruct (hyper_terminals pset Hwf H hy HoH Hhy HH) as (tsH & -> & HtsH).
  rewrite (cons_middle (Prim p')), (cons_middle (Prim p)).
  by rewrite !individual_length_app, !individual_length_terminals.
Qed.

(** X22.  What the two mutations of the repository make of a
    type-consistent genome compiles: [compile_individual] raises nothing
    for it, returns a pipeline when there are no parameter checks, and
    the pipeline has as many operators as the genome had primitives
    before the mutation. *)
Theorem mutants_compile (str : genome → string)
    (pset : PrimitiveSetTyped) (root : ty) (r : rng) (g g' : genome)
    (parameter_checks : option automl_gp.checks) (preprocessing_steps : list string) :
  pset_wf pset → compile_wf pset → genome_over pset g → type_consistent root g →
  mutation.mut_replace_terminal_expr str r g pset = Ok g'
  ∨ mutation.mut_replace_primitive_expr str r g pset = Ok g' →
  ∃ compiled,
    automl_gp.compile_individual g' pset parameter_checks preprocessing_steps = Ok compiled
    ∧ (parameter_checks = None → compiled ≠ None)
    ∧ ∀ steps, compiled = Some (automl_gp.mkPipeline steps) →
        length steps = length preprocessing_steps + automl_gp.individual_length g.
Proof.
  intros Hwf Hcwf Hover Hcons Hmut.
  assert (Hvalid : genome_over pset g' ∧ type_consistent root g').
  { destruct Hmut as [Hm|Hm].
    - by apply (mut_replace_terminal_expr_valid (str := str) pset Hwf root r g g').
    - by apply (mut_replace_primitive_expr_valid (str := str) pset Hwf root r g g'). }
  assert (Hsize : automl_gp.individual_length g' = automl_gp.individual_length g).
  { destruct Hmut as [Hm|Hm].
    - by apply (mutant_terminal_size (str := str) r g g' pset).
    - by apply (mutant_primitive_size (str := str) pset root r g g'). }
  destruct Hvalid as [Hover' Hcons'].
  unfold automl_gp.compile_individual.
  destruct (compile_loop_shape pset Hwf Hcwf (length g') g' root [] ∅ parameter_checks)
    as [[-> Hpc]|(ops & -> & Hlen & _)]; [done..| |].
  - exists None. split; [done|]. split; [done|]. by intros steps [=].
  - eexists. split; [done|]. split; [done|]. intros steps [= <-].
    rewrite length_reverse, length_app, length_fmap, length_reverse. lia.
Qed.

Lemma mutants_compile_witness :
  ∃ compiled,
    automl_gp.compile_individual
      [Prim demo.Tree; Prim demo.Scaler; Term demo.data; Term demo.mean_False;
       Term demo.depth_1]
      demo.pset None [] = Ok compiled
    ∧ compiled ≠ None.
Proof.
  destruct (mutants_compile demo.render demo.pset Predictions demo.first demo.pipeline
              [Prim demo.Tree; Prim demo.Scaler; Term demo.data; Term demo.mean_False;
               Term demo.depth_1] None [])
    as (compiled & Hc & Hsome & _).
  - apply (bool_decide_unpack _). vm_compute. exact I.
  - apply (bool_decide_unpack _). vm_compute. exact I.
  - apply (bool_decide_unpack _). vm_compute. exact I.
  - apply (bool_decide_unpack _). vm_compute. exact I.
  - left. reflexivity.
  - exists compiled. split; [exact Hc|]. by apply Hsome.
Defined.
